(** * heximeter: the hexagonal grid, its cursor and the three-cell rotation

    A shallow embedding of [src/main.cpp].  The C++ [int] coordinates are
    modelled by [Z] (signed overflow is undefined behaviour in C++ and lies
    outside the model), the [float] members by IEEE 754 binary32 values with
    round-to-nearest-even operations (Rocq's [SpecFloat] at precision 24 and
    maximal exponent 128), the [std::unordered_map<Hex, Cell>] by a finite
    map keyed by the pair [(q, r)] that [Hex::operator==] and
    [std::hash<Hex>] look at, and references into the map by their keys. *)

From Stdlib Require Import ZArith Zquot Lia Bool List.
From Stdlib Require Import Floats.SpecFloat.
From Stdlib Require Import QArith Qround Qabs.
From stdpp Require Import gmap list.

Local Open Scope Z_scope.

(* ===================================================================== *)
(** ** binary32 arithmetic *)
(* ===================================================================== *)

Module F32.

Definition prec : Z := 24.
Definition emax : Z := 128.

Definition float : Type := spec_float.

Definition valid (x : float) : bool := valid_binary prec emax x.

Definition add : float -> float -> float := SFadd prec emax.
Definition sub : float -> float -> float := SFsub prec emax.
Definition mul : float -> float -> float := SFmul prec emax.
Definition sqrt : float -> float := SFsqrt prec emax.
Definition div : float -> float -> float := SFdiv prec emax.
Definition opp : float -> float := SFopp.

(** The C++ comparisons; each is false as soon as an operand is a NaN. *)
Definition lt (x y : float) : bool := SFltb x y.
Definition le (x y : float) : bool := SFleb x y.
Definition gt (x y : float) : bool := SFltb y x.
Definition ge (x y : float) : bool := SFleb y x.

(** The literals of the program. *)
Definition zero : float := S754_zero false.                      (* 0.0f *)
Definition one : float := S754_finite false 8388608 (-23).       (* 1.0f *)
Definition minus_one : float := S754_finite true 8388608 (-23).  (* -1.0f *)
Definition two : float := S754_finite false 8388608 (-22).       (* 2 as a float *)
Definition four : float := S754_finite false 8388608 (-21).      (* 4.0f *)
Definition quarter : float := S754_finite false 8388608 (-25).   (* 0.25f *)

(** raylib's [PI], the binary32 value nearest to pi. *)
Definition PI : float := S754_finite false 13176795 (-22).

Definition is_finite (x : float) : bool :=
  match x with
  | S754_zero _ | S754_finite _ _ _ => true
  | _ => false
  end.

(** The rational number a finite float stands for (0 for the others). *)
Definition to_Q (x : float) : Q :=
  match x with
  | S754_finite sg m e =>
      let n := if sg then Z.neg m else Z.pos m in
      if (0 <=? e)%Z then inject_Z (n * 2 ^ e) else Qmake n (Z.to_pos (2 ^ (- e)))
  | _ => 0%Q
  end.

End F32.

Abbreviation float := F32.float.

(* ===================================================================== *)
(** ** Hex coordinates *)
(* ===================================================================== *)

(** [class Hex], lines 17-42 *)
Record Hex : Type := mkHex { q : Z; r : Z; s : Z }.

(** The constructor's assertion. *)
Definition Hex_valid (h : Hex) : Prop := q h + r h + s h = 0.

(** [Hex::operator==] compares [q] and [r] only. *)
Definition Hex_eqb (a b : Hex) : bool := (q a =? q b) && (r a =? r b).

(** What equality and [std::hash<Hex>] depend on: the identity of a map key. *)
Definition key (h : Hex) : Z * Z := (q h, r h).

Definition hexAdd (a b : Hex) : Hex := mkHex (q a + q b) (r a + r b) (s a + s b).
Definition hexSubtract (a b : Hex) : Hex := mkHex (q a - q b) (r a - r b) (s a - s b).
Definition hexMultiply (a : Hex) (scalar : Z) : Hex :=
  mkHex (q a * scalar) (r a * scalar) (s a * scalar).

(** Integer division of C++ truncates; the operand is non-negative here. *)
Definition hexLength (hex : Hex) : Z :=
  Z.quot (Z.abs (q hex) + Z.abs (r hex) + Z.abs (s hex)) 2.

Definition hexDistance (a b : Hex) : Z := hexLength (hexSubtract a b).

Inductive HexDirection : Type :=
| East | SouthEast | SouthWest | West | NorthWest | NorthEast.

Definition hex_directions : list Hex :=
  [ mkHex 1 0 (-1); mkHex 1 (-1) 0; mkHex 0 (-1) 1;
    mkHex (-1) 0 1; mkHex (-1) 1 0; mkHex 0 1 (-1) ].

(** The cast [(size_t)direction]. *)
Definition direction_index (d : HexDirection) : nat :=
  match d with
  | East => 0 | SouthEast => 1 | SouthWest => 2
  | West => 3 | NorthWest => 4 | NorthEast => 5
  end%nat.

Definition hexDirection (direction : HexDirection) : Hex :=
  nth (direction_index direction) hex_directions (mkHex 0 0 0).

Definition hexNeighbour (hex : Hex) (direction : HexDirection) : Hex :=
  hexAdd hex (hexDirection direction).

(** Three coordinates: [std::array<Hex, 3>]. *)
Definition Hex3 : Type := Hex * Hex * Hex.

(* ===================================================================== *)
(** ** Cursor *)
(* ===================================================================== *)

(** [class Cursor], lines 272-324 *)
Record Cursor : Type := mkCursor { hexes : Hex3 }.

Definition Cursor_new (topHex : Hex) : Cursor :=
  mkCursor (topHex, hexNeighbour topHex NorthWest, hexNeighbour topHex NorthEast).

Definition Cursor_move (hexDir : HexDirection) (c : Cursor) : Cursor :=
  let '(h0, h1, h2) := hexes c in
  mkCursor (hexNeighbour h0 hexDir, hexNeighbour h1 hexDir, hexNeighbour h2 hexDir).

(** [hexes[0].r % 2 == 0]: the remainder of C++ has the sign of the dividend,
    which is [Z.rem]. *)
Definition Cursor_moveUp (c : Cursor) : Cursor :=
  let '(h0, _, _) := hexes c in
  if Z.rem (r h0) 2 =? 0 then Cursor_move SouthEast c else Cursor_move SouthWest c.

Definition Cursor_moveDown (c : Cursor) : Cursor :=
  let '(h0, _, _) := hexes c in
  if Z.rem (r h0) 2 =? 0 then Cursor_move NorthEast c else Cursor_move NorthWest c.

Definition Cursor_moveLeft (c : Cursor) : Cursor := Cursor_move West c.
Definition Cursor_moveRight (c : Cursor) : Cursor := Cursor_move East c.

(* ===================================================================== *)
(** ** The world outside the program *)
(* ===================================================================== *)

(** raylib's [Color]: four bytes. *)
Record Color : Type := mkColor { red : N; green : N; blue : N; alpha : N }.

Definition ORANGE : Color := mkColor 255 161 0 255.
Definition MAROON : Color := mkColor 190 33 55 255.
Definition LIME : Color := mkColor 0 158 47 255.

Definition availableColors : list Color := [ORANGE; MAROON; LIME].

(** What a run cannot know in advance: the numbers the generator behind
    raylib's [GetRandomValue] hands out, and the indeterminate content that
    the member [rotationProgress], which [Cell()] leaves uninitialised,
    happens to hold.  [constructed] counts the default constructions so far. *)
Record World : Type := mkWorld {
  random : nat -> nat;
  uninitialised : nat -> float;
  constructed : nat
}.

(** [GetRandomValue(min, max)] for [min <= max]: a value in that range. *)
Definition GetRandomValue (min max : nat) (w : World) : nat :=
  (min + random w (constructed w) mod (max - min + 1))%nat.

(** How a call ends: normally, with [std::out_of_range] thrown by
    [unordered_map::at] (nothing catches it), or in undefined behaviour
    (an empty [std::optional] dereferenced, a dangling reference read). *)
Inductive outcome (A : Type) : Type :=
| Normal (a : A)
| OutOfRange
| Undefined.

Arguments Normal {A} a.
Arguments OutOfRange {A}.
Arguments Undefined {A}.

(** Computations that may consult the world and may fail. *)
Definition M (A : Type) : Type := World -> outcome (A * World).

Definition ret {A : Type} (a : A) : M A := fun w => Normal (a, w).

Definition bind {A B : Type} (c : M A) (k : A -> M B) : M B :=
  fun w =>
    match c w with
    | Normal (a, w') => k a w'
    | OutOfRange => OutOfRange
    | Undefined => Undefined
    end.

Definition throw_out_of_range {A : Type} : M A := fun _ => OutOfRange.
Definition undefined_behaviour {A : Type} : M A := fun _ => Undefined.

Notation "'let*' x ':=' c 'in' k" := (bind c (fun x => k))
  (at level 10, x name, c at level 100, k at level 200).

(* ===================================================================== *)
(** ** Cell *)
(* ===================================================================== *)

(** [class Cell], lines 115-152 *)
Record Cell : Type := mkCell {
  rotatingTo : option Hex;
  rotationProgress : float;
  color : Color
}.

(** The default constructor: a random colour, no target, and a progress
    that is whatever the memory held. *)
Definition Cell_new : M Cell := fun w =>
  let v := GetRandomValue 0 (length availableColors - 1) w in
  Normal (mkCell None
                 (uninitialised w (constructed w))
                 (nth v availableColors ORANGE),
          mkWorld (random w) (uninitialised w) (S (constructed w))).

Definition Cell_startRotation (hex : Hex) (c : Cell) : Cell :=
  mkCell (Some hex) F32.zero (color c).

Definition Cell_stepRotation (dt : float) (c : Cell) : Cell :=
  match rotatingTo c with
  | Some _ =>
      let newRotation := F32.add (rotationProgress c) (F32.mul dt F32.four) in
      let newRotation := if F32.gt newRotation F32.one then F32.one else newRotation in
      mkCell (rotatingTo c) newRotation (color c)
  | None => c
  end.

(** [std::optional::has_value] *)
Definition has_value {A : Type} (o : option A) : bool :=
  match o with Some _ => true | None => false end.

Definition Cell_rotationDone (c : Cell) : bool :=
  negb (has_value (rotatingTo c)) || F32.ge (rotationProgress c) F32.one.

Definition Cell_resetRotation (c : Cell) : Cell :=
  mkCell None F32.minus_one (color c).

(* ===================================================================== *)
(** ** HexMap *)
(* ===================================================================== *)

(** [class HexMap], lines 201-270.  The map forgets the [s] of the [Hex]
    object a key was inserted with: nothing in the program looks at it. *)
Record HexMap : Type := mkHexMap {
  cells : gmap (Z * Z) Cell;
  rotation : option Hex3
}.

Definition HexMap_new : HexMap := mkHexMap ∅ None.

Definition HexMap_hasRotation (g : HexMap) : bool := has_value (rotation g).

(** [cells.emplace(hex, cell)]: a key that is taken keeps its cell. *)
Definition HexMap_insert (hex : Hex) (cell : Cell) (g : HexMap) : HexMap :=
  match cells g !! key hex with
  | Some _ => g
  | None => mkHexMap (<[key hex := cell]> (cells g)) (rotation g)
  end.

(** A [Cell &] into the map is the key of the slot it refers to. *)
Abbreviation ref := (Z * Z)%type.

(** [cells.at(h)] *)
Definition cells_at (h : Hex) (g : HexMap) : M ref :=
  match cells g !! key h with
  | Some _ => ret (key h)
  | None => throw_out_of_range
  end.

(** [cells[h]]: a key that is absent is first given a default-constructed cell. *)
Definition cells_index (h : Hex) (g : HexMap) : M (ref * HexMap) :=
  match cells g !! key h with
  | Some _ => ret (key h, g)
  | None =>
      let* c := Cell_new in
      ret (key h, mkHexMap (<[key h := c]> (cells g)) (rotation g))
  end.

(** Reading and writing through a reference. *)
Definition load (p : ref) (g : HexMap) : M Cell :=
  match cells g !! p with
  | Some c => ret c
  | None => undefined_behaviour
  end.

Definition store (p : ref) (c : Cell) (g : HexMap) : HexMap :=
  mkHexMap (<[p := c]> (cells g)) (rotation g).

(** A member function that mutates the cell behind a reference. *)
Definition update (p : ref) (f : Cell -> Cell) (g : HexMap) : M HexMap :=
  let* c := load p g in ret (store p (f c) g).

(** [std::swap(a, b)] on two references, which may be the same one. *)
Definition swap (a b : ref) (g : HexMap) : M HexMap :=
  let* ca := load a g in
  let* cb := load b g in
  ret (store b ca (store a cb g)).

(** [std::swap(cell, cells[*cell.rotatingTo])] *)
Definition swap_with_target (cell : ref) (g : HexMap) : M HexMap :=
  let* c := load cell g in
  match rotatingTo c with
  | None => undefined_behaviour
  | Some target =>
      let* other := cells_index target g in
      swap cell (fst other) (snd other)
  end.

(** [HexMap::at], lines 266-269 *)
Definition HexMap_at (h : Hex) (g : HexMap) : M Cell :=
  let* p := cells_at h g in load p g.

(** [HexMap::startRotation], lines 224-236: the descriptor is assigned
    first, then the three references are taken, then the targets are set
    through them in the order [cell1], [cell2], [cell0]. *)
Definition HexMap_startRotation (hexes : Hex3) (g : HexMap) : M HexMap :=
  let g := mkHexMap (cells g) (Some hexes) in
  let '(rot0, rot1, rot2) := hexes in
  let* cell0 := cells_at rot0 g in
  let* cell1 := cells_at rot1 g in
  let* cell2 := cells_at rot2 g in
  let* g := update cell1 (Cell_startRotation rot0) g in
  let* g := update cell2 (Cell_startRotation rot1) g in
  update cell0 (Cell_startRotation rot2) g.

(** [HexMap::stepRotation], lines 247-249: the three cells are stepped
    through their references. *)
Definition advance_cells (dt : float) (cell0 cell1 cell2 : ref) (g : HexMap) : M HexMap :=
  let* g := update cell0 (Cell_stepRotation dt) g in
  let* g := update cell1 (Cell_stepRotation dt) g in
  update cell2 (Cell_stepRotation dt) g.

(** [HexMap::stepRotation], line 251 *)
Definition all_done (cell0 cell1 cell2 : ref) (g : HexMap) : M bool :=
  let* c0 := load cell0 g in
  let* c1 := load cell1 g in
  let* c2 := load cell2 g in
  ret (Cell_rotationDone c0 && Cell_rotationDone c1 && Cell_rotationDone c2).

(** [HexMap::stepRotation], lines 253-261: each swap reads the target of
    the cell that the slot holds at that moment. *)
Definition commit (cell0 cell1 cell2 : ref) (g : HexMap) : M HexMap :=
  let* g := swap_with_target cell0 g in
  let* g := swap_with_target cell1 g in
  let* g := swap_with_target cell2 g in
  let* g := update cell0 Cell_resetRotation g in
  let* g := update cell1 Cell_resetRotation g in
  let* g := update cell2 Cell_resetRotation g in
  ret (mkHexMap (cells g) None).

(** [HexMap::stepRotation], lines 238-264 *)
Definition HexMap_stepRotation (dt : float) (g : HexMap) : M HexMap :=
  match rotation g with
  | Some (rot0, rot1, rot2) =>
      let* cell0 := cells_at rot0 g in
      let* cell1 := cells_at rot1 g in
      let* cell2 := cells_at rot2 g in
      let* g := advance_cells dt cell0 cell1 cell2 g in
      let* finished := all_done cell0 cell1 cell2 g in
      if finished then commit cell0 cell1 cell2 g else ret g
  | None => ret g
  end.

(** A loop body run over a list of values, threading the state. *)
Fixpoint foldM {A S : Type} (body : A -> S -> M S) (l : list A) (st : S) : M S :=
  match l with
  | [] => ret st
  | a :: l' => let* st' := body a st in foldM body l' st'
  end.

(** [for (int i = lo; i <= hi; i++)] *)
Definition for_upto {S : Type} (lo hi : Z) (body : Z -> S -> M S) : S -> M S :=
  foldM body (seqZ lo (hi - lo + 1)).

(** [generateHexMap], lines 326-339 *)
Definition generateHexMap (size : Z) : M HexMap :=
  for_upto (- size) size
    (fun q hexMap =>
       let r1 := Z.max (- size) (- q - size) in
       let r2 := Z.min size (- q + size) in
       for_upto r1 r2
         (fun r hexMap =>
            let* cell := Cell_new in
            ret (HexMap_insert (mkHex q r (- q - r)) cell hexMap))
         hexMap)
    HexMap_new.

(** The game loop's calls of [stepRotation], one per frame. *)
Definition stepRotations (dts : list float) (g : HexMap) : M HexMap :=
  foldM HexMap_stepRotation dts g.

(* ===================================================================== *)
(** ** Arc interpolation *)
(* ===================================================================== *)

(** raylib's [Vector2]. *)
Record Vector2 : Type := mkVector2 { x : float; y : float }.

(** raymath's [Vector2Subtract] and [Vector2Length]. *)
Definition Vector2Subtract (v1 v2 : Vector2) : Vector2 :=
  mkVector2 (F32.sub (x v1) (x v2)) (F32.sub (y v1) (y v2)).

Definition Vector2Length (v : Vector2) : float :=
  F32.sqrt (F32.add (F32.mul (x v) (x v)) (F32.mul (y v) (y v))).

(** The C library's [atan2f], [cosf] and [sinf]: the program fixes nothing
    about them, so they are taken as they come. *)
Record Libm : Type := mkLibm {
  atan2f : float -> float -> float;
  cosf : float -> float;
  sinf : float -> float
}.

(** [rotatePoint], lines 162-189 *)
Definition rotatePoint (libm : Libm) (start end_ pivot : Vector2) (progress : float)
  : Vector2 :=
  let startRelative := Vector2Subtract start pivot in
  let endRelative := Vector2Subtract end_ pivot in
  let startAngle := atan2f libm (y startRelative) (x startRelative) in
  let endAngle := atan2f libm (y endRelative) (x endRelative) in
  let angleDiff := F32.sub endAngle startAngle in
  let angleDiff :=
    if F32.gt angleDiff F32.PI then F32.sub angleDiff (F32.mul F32.two F32.PI)
    else if F32.lt angleDiff (F32.opp F32.PI)
         then F32.add angleDiff (F32.mul F32.two F32.PI)
         else angleDiff in
  let currentAngle := F32.add startAngle (F32.mul angleDiff progress) in
  let radius := Vector2Length startRelative in
  mkVector2 (F32.add (x pivot) (F32.mul (cosf libm currentAngle) radius))
            (F32.add (y pivot) (F32.mul (sinf libm currentAngle) radius)).

(* ===================================================================== *)
(** ** The hash of a coordinate *)
(* ===================================================================== *)

(** [std::hash<Hex>], lines 94-108.  [std::hash<int>] is left to the
    implementation: [int_hash] stands for it, its values being [size_t]
    values, here of 64 bits.  The shift to the left and the sums wrap
    around. *)
Definition size_t (z : Z) : Z := z mod 2 ^ 64.

Definition Hex_hash (int_hash : Z -> Z) (h : Hex) : Z :=
  let hq := int_hash (q h) in
  let hr := int_hash (r h) in
  Z.lxor hq (size_t (hr + 2654435769 + size_t (Z.shiftl hq 6) + Z.shiftr hq 2)).

(* ===================================================================== *)
(** ** The game loop *)
(* ===================================================================== *)

(** The keys [main] asks raylib about. *)
Inductive KeyboardKey : Type := KEY_UP | KEY_DOWN | KEY_LEFT | KEY_RIGHT | KEY_SPACE.

(** What raylib answers during one turn of the loop: which keys were
    pressed, and the time the last frame took. *)
Record Frame : Type := mkFrame {
  IsKeyPressed : KeyboardKey -> bool;
  GetFrameTime : float
}.

(** The two objects [main] owns. *)
Record Game : Type := mkGame { hexMap : HexMap; cursor : Cursor }.

Definition Cursor_getHexes (c : Cursor) : Hex3 := hexes c.

(** [main], lines 419-420 *)
Definition main_setup : M Game :=
  let* hexMap := generateHexMap 10 in
  ret (mkGame hexMap (Cursor_new (mkHex 2 2 (-4)))).

(** [main], lines 425-448: one turn of the loop, up to the drawing, which
    reads the two objects and changes neither. *)
Definition main_turn (f : Frame) (st : Game) : M Game :=
  let dt := GetFrameTime f in
  let* st :=
    if IsKeyPressed f KEY_UP
    then ret (mkGame (hexMap st) (Cursor_moveUp (cursor st)))
    else if IsKeyPressed f KEY_DOWN
    then ret (mkGame (hexMap st) (Cursor_moveDown (cursor st)))
    else if IsKeyPressed f KEY_LEFT
    then ret (mkGame (hexMap st) (Cursor_moveLeft (cursor st)))
    else if IsKeyPressed f KEY_RIGHT
    then ret (mkGame (hexMap st) (Cursor_moveRight (cursor st)))
    else if IsKeyPressed f KEY_SPACE && negb (HexMap_hasRotation (hexMap st))
    then
      let* hexMap := HexMap_startRotation (Cursor_getHexes (cursor st)) (hexMap st) in
      ret (mkGame hexMap (cursor st))
    else ret st in
  let* hexMap := HexMap_stepRotation dt (hexMap st) in
  ret (mkGame hexMap (cursor st)).

(** [main] until the window is closed: one turn per frame. *)
Definition main (frames : list Frame) : M Game :=
  let* st := main_setup in
  foldM main_turn frames st.

(* ===================================================================== *)
(** ** Vocabulary of the statements *)
(* ===================================================================== *)

(** *** Progress and step sizes *)

(** The progress a cell with a pending target has after one step: what
    [Cell::stepRotation] stores. *)
Definition advanced (dt p : float) : float :=
  let newRotation := F32.add p (F32.mul dt F32.four) in
  if F32.gt newRotation F32.one then F32.one else newRotation.

(** The progress accumulated from [p] over successive steps, stopping at the
    first step that reaches [1.0f]; [None] once it has been reached. *)
Fixpoint accumulate (dts : list float) (p : float) : option float :=
  match dts with
  | [] => Some p
  | dt :: dts' =>
      if F32.ge (advanced dt p) F32.one then None else accumulate dts' (advanced dt p)
  end.

(** The number of the call (counted from 1) at which progress accumulated
    from [p] reaches [1.0f], if one of the calls does. *)
Fixpoint commit_call (dts : list float) (p : float) : option nat :=
  match dts with
  | [] => None
  | dt :: dts' =>
      if F32.ge (advanced dt p) F32.one then Some 1%nat
      else S <$> commit_call dts' (advanced dt p)
  end.

(** The sum of the step sizes as a [float] variable accumulates it, call
    after call. *)
Definition cumulative (dts : list float) : float :=
  fold_left F32.add dts F32.zero.

(** The sum of the step sizes as a rational number. *)
Definition total (dts : list float) : Q :=
  foldr (fun dt acc => (F32.to_Q dt + acc)%Q) 0%Q dts.

(** The number of terms after which the running binary32 sum
    [c + dt + dt + ...] first reaches [0.25f], if at most [n] are needed. *)
Fixpoint calls_needed (dt c : float) (n : nat) : option nat :=
  match n with
  | O => None
  | S n' =>
      let c' := F32.add c dt in
      if F32.ge c' F32.quarter then Some 1%nat else S <$> calls_needed dt c' n'
  end.

(** A frame time that is not negative: a binary32 value with [dt >= 0.0f],
    so a zero, a positive subnormal or normal float, or [+infinity]. *)
Definition nonnegative (dt : float) : bool :=
  F32.valid dt && F32.ge dt F32.zero.

(** Four times a float, when only the exponent has to move. *)
Definition scale4 (x : float) : float :=
  match x with
  | S754_finite sg m e =>
      if e + 2 <=? 104 then S754_finite sg m (e + 2) else S754_infinity sg
  | _ => x
  end.

(** [p] is four times [c] as the progress holds it: with the exponent of
    [c] moved by two, or, where [c] is subnormal, with its mantissa shifted
    by one or two digits instead. *)
Definition quadruple (p c : float) : Prop :=
  p = scale4 c \/
  match c with
  | S754_finite sg m e =>
      e = -149 /\
      (p = S754_finite sg (xO m) (-148) \/ p = S754_finite sg (xO (xO m)) (-149))
  | _ => False
  end.

(** Not negative where a sign shows. *)
Definition sign_ok (c : float) : bool :=
  match c with
  | S754_zero sg | S754_infinity sg | S754_finite sg _ _ => negb sg
  | S754_nan => true
  end.

(** The exponent is one a binary32 value can have. *)
Definition exp_ok (c : float) : Prop :=
  match c with
  | S754_finite _ _ e => -149 <= e
  | _ => True
  end.

(** An angle that adding a zero leaves as it is: finite and not [-0]. *)
Definition steady_angle (a : float) : bool :=
  match a with
  | S754_finite _ _ _ | S754_zero false => true
  | _ => false
  end.

(** *** Grids *)

(** The colour, the progress and the target stored under a coordinate. *)
Definition color_at (h : Hex) (g : HexMap) : option Color :=
  color <$> cells g !! key h.

Definition progress_at (h : Hex) (g : HexMap) : option float :=
  rotationProgress <$> cells g !! key h.

Definition target_at (h : Hex) (g : HexMap) : option (option Hex) :=
  rotatingTo <$> cells g !! key h.

(** The three coordinates are different keys. *)
Definition distinct (h0 h1 h2 : Hex) : Prop :=
  key h0 <> key h1 /\ key h0 <> key h2 /\ key h1 <> key h2.

(** [k] is one of three references. *)
Definition among (k0 k1 k2 k : ref) : Prop := k = k0 \/ k = k1 \/ k = k2.

(** Each of the three slots holds a cell that is heading for one of the
    three slots. *)
Definition heading (k0 k1 k2 : ref) (m : gmap (Z * Z) Cell) : Prop :=
  forall k, among k0 k1 k2 k ->
    exists c t, m !! k = Some c /\ rotatingTo c = Some t /\ among k0 k1 k2 (key t).

(** The state invariant: a grid that is rotating has its three cells in the
    map, each heading for one of the three coordinates. *)
Definition consistent (g : HexMap) : Prop :=
  match rotation g with
  | Some (h0, h1, h2) => heading (key h0) (key h1) (key h2) (cells g)
  | None => True
  end.

(** No cell outside the active rotation has a pending target. *)
Definition quiet_elsewhere (g : HexMap) : Prop :=
  forall k c, cells g !! k = Some c -> is_Some (rotatingTo c) ->
    match rotation g with
    | Some (h0, h1, h2) => among (key h0) (key h1) (key h2) k
    | None => False
    end.

(** The slot holds a cell without a pending target. *)
Definition idle_at (k : ref) (m : gmap (Z * Z) Cell) : Prop :=
  exists c, m !! k = Some c /\ rotatingTo c = None.

(** No cell of the grid has a pending target. *)
Definition all_idle (g : HexMap) : Prop :=
  forall k c, cells g !! k = Some c -> rotatingTo c = None.

(** [g'] has the keys of [g] and the same cell under every key other than
    the three. *)
Definition same_frame (k0 k1 k2 : ref) (g g' : HexMap) : Prop :=
  dom (cells g') = dom (cells g) /\
  forall k, ~ among k0 k1 k2 k -> cells g' !! k = cells g !! k.

(** A cell without a pending target, as [Cell()] builds them. *)
Definition idle_cell (c : Cell) : Prop := rotatingTo c = None.

(** The grids the interface can build: generated, then any sequence of
    [insert] (of cells that satisfy [ok]), [startRotation] under its
    preconditions (the grid is idle and holds the three coordinates) and
    [stepRotation]. *)
Inductive reachable (ok : Cell -> Prop) : HexMap -> Prop :=
| reach_generate n w g w' :
    generateHexMap n w = Normal (g, w') -> reachable ok g
| reach_insert hex cell g :
    reachable ok g -> ok cell -> reachable ok (HexMap_insert hex cell g)
| reach_start h0 h1 h2 g w g' w' :
    reachable ok g ->
    rotation g = None ->
    is_Some (cells g !! key h0) -> is_Some (cells g !! key h1) ->
    is_Some (cells g !! key h2) ->
    HexMap_startRotation (h0, h1, h2) g w = Normal (g', w') ->
    reachable ok g'
| reach_step dt g w g' w' :
    reachable ok g ->
    HexMap_stepRotation dt g w = Normal (g', w') ->
    reachable ok g'.

(** [startRotation] followed by one [stepRotation] per step size. *)
Definition rotate (hs : Hex3) (dts : list float) (g : HexMap) : M HexMap :=
  let* g1 := HexMap_startRotation hs g in stepRotations dts g1.

(** A grid while a rotation started on [(h0, h1, h2)] is in flight: the
    three cells with their colours and progress, over the rest of the map. *)
Definition in_flight (h0 h1 h2 : Hex) (col0 col1 col2 : Color) (p0 p1 p2 : float)
    (rest : gmap (Z * Z) Cell) : HexMap :=
  mkHexMap (<[key h0 := mkCell (Some h2) p0 col0]>
             (<[key h1 := mkCell (Some h0) p1 col1]>
               (<[key h2 := mkCell (Some h1) p2 col2]> rest)))
           (Some (h0, h1, h2)).

(** The grid once that rotation has been committed. *)
Definition landed (h0 h1 h2 : Hex) (col0 col1 col2 : Color)
    (rest : gmap (Z * Z) Cell) : HexMap :=
  mkHexMap (<[key h0 := mkCell None F32.minus_one col1]>
             (<[key h1 := mkCell None F32.minus_one col2]>
               (<[key h2 := mkCell None F32.minus_one col0]> rest)))
           None.

(** *** Generation *)

(** The keys [generateHexMap] inserts, row by row in the order of its loops. *)
Definition row_keys (n q : Z) : list (Z * Z) :=
  (fun r => (q, r)) <$> seqZ (Z.max (- n) (- q - n))
                             (Z.min n (- q + n) - Z.max (- n) (- q - n) + 1).

Definition grid_keys (n : Z) : list (Z * Z) :=
  seqZ (- n) (n - - n + 1) ≫= row_keys n.

(** Number of cells of row [q] in a grid of the given radius. *)
Definition row_length (n q : Z) : nat :=
  Z.to_nat (Z.min n (- q + n) - Z.max (- n) (- q - n) + 1).

(* ===================================================================== *)
(** ** Sample data for the examples *)
(* ===================================================================== *)

Definition sample_world : World := mkWorld (fun n => n) (fun _ => S754_nan) 0.

(** The cursor's triangle at the origin. *)
Definition hexA : Hex := mkHex 0 0 0.
Definition hexB : Hex := hexNeighbour hexA NorthWest.
Definition hexC : Hex := hexNeighbour hexA NorthEast.

(** Orange at [hexA], maroon at [hexB], lime at [hexC]. *)
Definition sample_grid : HexMap :=
  HexMap_insert hexC (mkCell None S754_nan LIME)
    (HexMap_insert hexB (mkCell None S754_nan MAROON)
       (HexMap_insert hexA (mkCell None S754_nan ORANGE) HexMap_new)).

(** The sample grid with a rotation over the triangle just started. *)
Definition sample_rotating : HexMap :=
  in_flight hexA hexB hexC ORANGE MAROON LIME F32.zero F32.zero F32.zero
    (cells sample_grid).





Definition half_started : HexMap :=
  mkHexMap (<[key hexA := mkCell (Some hexC) F32.zero ORANGE]>
             (<[key hexC := mkCell (Some hexB) F32.zero LIME]> (cells sample_grid)))
           (Some (hexA, hexB, hexC)).

(** [0.01f] and [0.005f]: the binary32 values nearest to 1/100 and 1/200. *)
Definition centi : float := S754_finite false 10737418 (-30).
Definition half_centi : float := S754_finite false 10737418 (-31).

(** [0.0625f], [0.5f] and [50.0f]. *)
Definition sixteenth : float := S754_finite false 8388608 (-27).
Definition half : float := S754_finite false 8388608 (-24).
Definition fifty : float := S754_finite false 13107200 (-18).

(** [-2^126] and [2^127]. *)
Definition minus_huge : float := S754_finite true 8388608 103.
Definition huge : float := S754_finite false 8388608 104.

(** [0.25f - 2^-26], the float just below a quarter, and [2^-28]. *)
Definition below_quarter : float := S754_finite false 16777215 (-26).
Definition tiny : float := S754_finite false 8388608 (-51).

(** The origin, a point too far from it for its squared distance to be a
    finite float ([2^127] on the x axis), and one too near ([2^-100]). *)
Definition origin : Vector2 := mkVector2 F32.zero F32.zero.
Definition far_point : Vector2 := mkVector2 (S754_finite false 8388608 104) F32.zero.
Definition near_point : Vector2 := mkVector2 (S754_finite false 8388608 (-123)) F32.zero.

(** The point [(1, 1)]; the binary32 values nearest to [pi/4], which is
    the angle of that point, and to the cosine and the sine of that value
    (the two are the same float); and the float just below [1.0f]. *)
Definition diagonal_point : Vector2 := mkVector2 F32.one F32.one.
Definition eighth_turn : float := S754_finite false 13176795 (-24).
Definition cos_eighth_turn : float := S754_finite false 11863283 (-24).
Definition below_one : float := S754_finite false 16777215 (-24).

(** [+infinity]. *)
Definition infinity : float := S754_infinity false.

(** A stand-in for the C library that is right on the positive x axis:
    angle [0], cosine [1], sine [0]. *)
Definition axis_libm : Libm :=
  mkLibm (fun _ _ => F32.zero) (fun _ => F32.one) (fun _ => F32.zero).

(** *** Cursor motions *)

(** The four motions the arrow keys give the cursor. *)
Inductive Motion : Type := Up | Down | Left | Right.

Definition Cursor_apply (m : Motion) (c : Cursor) : Cursor :=
  match m with
  | Up => Cursor_moveUp c
  | Down => Cursor_moveDown c
  | Left => Cursor_moveLeft c
  | Right => Cursor_moveRight c
  end.

(** The cursor after a sequence of motions, the first of the list first. *)
Definition Cursor_path (ms : list Motion) (c : Cursor) : Cursor :=
  foldl (fun c m => Cursor_apply m c) c ms.

(** *** Colours *)

(** The colour under every key, and the colours of the grid with their
    multiplicities (in the order of the keys). *)
Definition colour_map (g : HexMap) : gmap (Z * Z) Color := color <$> cells g.

Definition colours (g : HexMap) : list Color := (map_to_list (colour_map g)).*2.

(** Every cell of the grid has one of the three available colours. *)
Definition palette (g : HexMap) : Prop :=
  forall k c, cells g !! k = Some c -> color c ∈ availableColors.

(** *** The game *)


(** The cursor after the arrow key of a frame, if one is pressed. *)
Definition steered (f : Frame) (c : Cursor) : Cursor :=
  if IsKeyPressed f KEY_UP then Cursor_moveUp c
  else if IsKeyPressed f KEY_DOWN then Cursor_moveDown c
  else if IsKeyPressed f KEY_LEFT then Cursor_moveLeft c
  else if IsKeyPressed f KEY_RIGHT then Cursor_moveRight c
  else c.

(** No arrow key is pressed, the space bar is. *)
Definition space_only (f : Frame) : bool :=
  negb (IsKeyPressed f KEY_UP) && negb (IsKeyPressed f KEY_DOWN) &&
  negb (IsKeyPressed f KEY_LEFT) && negb (IsKeyPressed f KEY_RIGHT) &&
  IsKeyPressed f KEY_SPACE.

(** What holds of the game between two turns, [g0] being the grid it was
    set up with. *)
Definition in_play (g0 : HexMap) (st : Game) : Prop :=
  reachable idle_cell (hexMap st) /\
  dom (cells (hexMap st)) = dom (cells g0) /\
  colours (hexMap st) ≡ₚ colours g0 /\
  (exists ms, cursor st = Cursor_path ms (Cursor_new (mkHex 2 2 (-4)))) /\
  (forall h0 h1 h2, rotation (hexMap st) = Some (h0, h1, h2) -> distinct h0 h1 h2).

(* ===================================================================== *)
(** * Proofs *)
(* ===================================================================== *)

(** ** Coordinates *)


Lemma hexAdd_valid (a b : Hex) : Hex_valid a -> Hex_valid b -> Hex_valid (hexAdd a b).
Proof. unfold Hex_valid, hexAdd. simpl. lia. Qed.

Lemma hexDirection_valid (d : HexDirection) : Hex_valid (hexDirection d).
Proof. destruct d; reflexivity. Qed.

Lemma hexNeighbour_valid (h : Hex) (d : HexDirection) :
  Hex_valid h -> Hex_valid (hexNeighbour h d).
Proof. intros H. apply hexAdd_valid; [exact H | apply hexDirection_valid]. Qed.

(** The cursor built on a top coordinate: three distinct keys. *)
Lemma Cursor_new_distinct (T : Hex) :
  let '(h0, h1, h2) := hexes (Cursor_new T) in distinct h0 h1 h2.
Proof.
  unfold Cursor_new, distinct, key, hexNeighbour, hexAdd. simpl.
  repeat split; intros H; inversion H; lia.
Qed.

(** ** The cursor *)

Lemma rem2_even (a : Z) : (Z.rem a 2 =? 0) = Z.even a.
Proof.
  rewrite Zquot.Zrem_even. destruct (Z.even a) eqn:E; [reflexivity|].
  apply Z.eqb_neq. destruct a; simpl in *; congruence.
Qed.

Lemma hexAdd_cancel (h u v : Hex) :
  q u + q v = 0 -> r u + r v = 0 -> s u + s v = 0 -> hexAdd (hexAdd h u) v = h.
Proof.
  intros Hq Hr Hs. destruct h as [a b c]. unfold hexAdd; simpl.
  f_equal; lia.
Qed.

Lemma move_move (d e : HexDirection) (c : Cursor) :
  q (hexDirection d) + q (hexDirection e) = 0 ->
  r (hexDirection d) + r (hexDirection e) = 0 ->
  s (hexDirection d) + s (hexDirection e) = 0 ->
  Cursor_move e (Cursor_move d c) = c.
Proof.
  intros Hq Hr Hs. destruct c as [[[a b] c]].
  unfold Cursor_move, hexNeighbour; simpl.
  rewrite !hexAdd_cancel by assumption. reflexivity.
Qed.

Lemma move_top_r (d : HexDirection) (c : Cursor) :
  r (fst (fst (hexes (Cursor_move d c)))) = r (fst (fst (hexes c))) + r (hexDirection d).
Proof. destruct c as [[[a b] c]]. reflexivity. Qed.

Lemma moveUp_unfold (c : Cursor) :
  Cursor_moveUp c =
  if Z.even (r (fst (fst (hexes c)))) then Cursor_move SouthEast c else Cursor_move SouthWest c.
Proof.
  destruct c as [[[a b] c]]. unfold Cursor_moveUp; simpl. now rewrite rem2_even.
Qed.

Lemma moveDown_unfold (c : Cursor) :
  Cursor_moveDown c =
  if Z.even (r (fst (fst (hexes c)))) then Cursor_move NorthEast c else Cursor_move NorthWest c.
Proof.
  destruct c as [[[a b] c]]. unfold Cursor_moveDown; simpl. now rewrite rem2_even.
Qed.

(** C6: [moveUp] translates the three coordinates by SouthEast [(1,-1,0)]
    when the top coordinate's [r] is even and by SouthWest [(0,-1,1)] when it
    is odd; [moveDown] translates them by NorthEast [(0,1,-1)] when it is
    even and by NorthWest [(-1,1,0)] when it is odd.  This holds for every
    cursor, whether or not its top coordinate satisfies [q + r + s = 0]. *)
Theorem cursor_vertical_moves (c : Cursor) :
  let '(h0, h1, h2) := hexes c in
  Cursor_moveUp c =
    (if Z.even (r h0)
     then mkCursor (mkHex (q h0 + 1) (r h0 - 1) (s h0),
                    mkHex (q h1 + 1) (r h1 - 1) (s h1),
                    mkHex (q h2 + 1) (r h2 - 1) (s h2))
     else mkCursor (mkHex (q h0) (r h0 - 1) (s h0 + 1),
                    mkHex (q h1) (r h1 - 1) (s h1 + 1),
                    mkHex (q h2) (r h2 - 1) (s h2 + 1))) /\
  Cursor_moveDown c =
    (if Z.even (r h0)
     then mkCursor (mkHex (q h0) (r h0 + 1) (s h0 - 1),
                    mkHex (q h1) (r h1 + 1) (s h1 - 1),
                    mkHex (q h2) (r h2 + 1) (s h2 - 1))
     else mkCursor (mkHex (q h0 - 1) (r h0 + 1) (s h0),
                    mkHex (q h1 - 1) (r h1 + 1) (s h1),
                    mkHex (q h2 - 1) (r h2 + 1) (s h2))).
Proof.
  rewrite moveUp_unfold, moveDown_unfold.
  destruct c as [[[a b] c]]; cbn [hexes fst].
  destruct (Z.even (r a)); split;
    unfold Cursor_move, hexNeighbour, hexAdd; cbn;
    rewrite ?Z.add_0_r; reflexivity.
Qed.

(** C7: [moveUp] followed by [moveDown], and [moveDown] followed by [moveUp],
    give back the three coordinates the cursor started from; in particular
    for the cursor built on any top coordinate. *)
Theorem cursor_up_down_roundtrip (c : Cursor) :
  Cursor_moveDown (Cursor_moveUp c) = c /\ Cursor_moveUp (Cursor_moveDown c) = c.
Proof.
  split.
  - rewrite moveDown_unfold, (moveUp_unfold c).
    destruct (Z.even (r (fst (fst (hexes c))))) eqn:E;
      rewrite move_top_r; simpl hexDirection; cbn [r];
      rewrite Z.even_add, E; simpl;
      apply move_move; reflexivity.
  - rewrite moveUp_unfold, (moveDown_unfold c).
    destruct (Z.even (r (fst (fst (hexes c))))) eqn:E;
      rewrite move_top_r; simpl hexDirection; cbn [r];
      rewrite Z.even_add, E; simpl;
      apply move_move; reflexivity.
Qed.
(** ** Computations on the map *)

Section primitives.
Context (g : HexMap) (w : World).

Lemma load_Some p c : cells g !! p = Some c -> load p g w = Normal (c, w).
Proof. intros H. unfold load. now rewrite H. Qed.

Lemma update_Some p f c :
  cells g !! p = Some c -> update p f g w = Normal (store p (f c) g, w).
Proof. intros H. unfold update, bind. now rewrite (load_Some p c H). Qed.

Lemma cells_at_Some h c : cells g !! key h = Some c -> cells_at h g w = Normal (key h, w).
Proof. intros H. unfold cells_at. now rewrite H. Qed.

Lemma cells_index_Some h c :
  cells g !! key h = Some c -> cells_index h g w = Normal ((key h, g), w).
Proof. intros H. unfold cells_index. now rewrite H. Qed.

Lemma swap_Some a b ca cb :
  cells g !! a = Some ca -> cells g !! b = Some cb ->
  swap a b g w = Normal (store b ca (store a cb g), w).
Proof.
  intros Ha Hb. unfold swap, bind.
  now rewrite (load_Some a ca Ha), (load_Some b cb Hb).
Qed.

Lemma swap_with_target_Some p c t ct :
  cells g !! p = Some c -> rotatingTo c = Some t -> cells g !! key t = Some ct ->
  swap_with_target p g w = Normal (store (key t) c (store p ct g), w).
Proof.
  intros Hp Ht Hk. unfold swap_with_target, bind.
  rewrite (load_Some p c Hp), Ht, (cells_index_Some t ct Hk). simpl.
  now apply swap_Some.
Qed.

End primitives.

Lemma cells_store p c g : cells (store p c g) = <[p := c]> (cells g).
Proof. reflexivity. Qed.

Lemma bind_Normal {A B : Type} (c : M A) (k : A -> M B) w a w' :
  c w = Normal (a, w') -> bind c k w = k a w'.
Proof. intros H. unfold bind. now rewrite H. Qed.

(** ** Cells *)

Lemma stepRotation_target dt c : rotatingTo (Cell_stepRotation dt c) = rotatingTo c.
Proof. unfold Cell_stepRotation. destruct (rotatingTo c) eqn:E; simpl; congruence. Qed.

Lemma stepRotation_progress dt c t :
  rotatingTo c = Some t ->
  rotationProgress (Cell_stepRotation dt c) = advanced dt (rotationProgress c).
Proof. intros H. unfold Cell_stepRotation. now rewrite H. Qed.

Lemma stepRotation_pending dt t p col :
  Cell_stepRotation dt (mkCell (Some t) p col) = mkCell (Some t) (advanced dt p) col.
Proof. reflexivity. Qed.

Lemma advanced_le_one dt p : F32.gt (advanced dt p) F32.one = false.
Proof.
  unfold advanced.
  destruct (F32.gt (F32.add p (F32.mul dt F32.four)) F32.one) eqn:E; [reflexivity | exact E].
Qed.

(** ** What a step may touch *)

Section frame.
Context (k0 k1 k2 : ref).

Local Abbreviation same_frame := (same_frame k0 k1 k2).

Lemma same_frame_trans g1 g2 g3 :
  same_frame g1 g2 -> same_frame g2 g3 -> same_frame g1 g3.
Proof.
  intros [D1 F1] [D2 F2]. split; [congruence|].
  intros k Hk. rewrite F2, F1; auto.
Qed.

Lemma same_frame_store g k c c' :
  among k0 k1 k2 k -> cells g !! k = Some c -> same_frame g (store k c' g).
Proof.
  intros Hk Hc. split.
  - rewrite cells_store. apply dom_insert_lookup_L. eauto.
  - intros k' Hk'. rewrite cells_store, lookup_insert_ne; [reflexivity|].
    intros ->. contradiction.
Qed.

Lemma heading_present m k :
  heading k0 k1 k2 m -> among k0 k1 k2 k -> is_Some (m !! k).
Proof. intros H Hk. destruct (H k Hk) as (c & t & Hc & _). eauto. Qed.

Lemma heading_insert m k c t :
  heading k0 k1 k2 m -> rotatingTo c = Some t -> among k0 k1 k2 (key t) ->
  heading k0 k1 k2 (<[k := c]> m).
Proof.
  intros H Ht Hin k' Hk'. destruct (decide (k = k')) as [->|Hne].
  - exists c, t. rewrite lookup_insert_eq. auto.
  - rewrite lookup_insert_ne by assumption. auto.
Qed.

Lemma update_heading g w k f :
  heading k0 k1 k2 (cells g) -> among k0 k1 k2 k ->
  (forall c, rotatingTo (f c) = rotatingTo c) ->
  exists g', update k f g w = Normal (g', w) /\
             rotation g' = rotation g /\
             heading k0 k1 k2 (cells g') /\
             same_frame g g'.
Proof.
  intros H Hk Hf. destruct (H k Hk) as (c & t & Hc & Ht & Hin).
  exists (store k (f c) g). split; [now apply update_Some|].
  split; [reflexivity|]. split.
  - rewrite cells_store. apply heading_insert with t; auto. now rewrite Hf.
  - now apply same_frame_store with c.
Qed.

Lemma swap_with_target_heading g w k :
  heading k0 k1 k2 (cells g) -> among k0 k1 k2 k ->
  exists g', swap_with_target k g w = Normal (g', w) /\
             rotation g' = rotation g /\
             heading k0 k1 k2 (cells g') /\
             same_frame g g'.
Proof.
  intros H Hk. destruct (H k Hk) as (c & t & Hc & Ht & Hin).
  destruct (H (key t) Hin) as (ct & tt & Hct & Htt & Hint).
  exists (store (key t) c (store k ct g)).
  split; [now apply swap_with_target_Some|].
  split; [reflexivity|]. split.
  - rewrite !cells_store.
    apply heading_insert with t; auto. apply heading_insert with tt; auto.
  - apply same_frame_trans with (store k ct g).
    + now apply same_frame_store with c.
    + destruct (heading_present (cells (store k ct g)) (key t)) as [c' Hc']; auto.
      { rewrite cells_store. apply heading_insert with tt; auto. }
      now apply same_frame_store with c'.
Qed.

Lemma reset_idle g w k :
  is_Some (cells g !! k) -> among k0 k1 k2 k ->
  exists g', update k Cell_resetRotation g w = Normal (g', w) /\
             rotation g' = rotation g /\
             same_frame g g' /\
             idle_at k (cells g') /\
             (forall k', is_Some (cells g !! k') -> is_Some (cells g' !! k')) /\
             (forall k', idle_at k' (cells g) -> idle_at k' (cells g')).
Proof.
  intros [c Hc] Hk. exists (store k (Cell_resetRotation c) g).
  split; [now apply update_Some|]. split; [reflexivity|].
  split; [now apply same_frame_store with c|].
  rewrite cells_store. split; [|split].
  - exists (Cell_resetRotation c). now rewrite lookup_insert_eq.
  - intros k' Hk'. destruct (decide (k = k')) as [->|Hne].
    + rewrite lookup_insert_eq. eauto.
    + now rewrite lookup_insert_ne.
  - intros k' (c' & Hc' & Hi). destruct (decide (k = k')) as [->|Hne].
    + exists (Cell_resetRotation c). now rewrite lookup_insert_eq.
    + exists c'. now rewrite lookup_insert_ne.
Qed.

Lemma advance_cells_heading g w dt :
  heading k0 k1 k2 (cells g) ->
  exists g', advance_cells dt k0 k1 k2 g w = Normal (g', w) /\
             rotation g' = rotation g /\
             heading k0 k1 k2 (cells g') /\
             same_frame g g'.
Proof.
  intros H. unfold advance_cells.
  destruct (update_heading g w k0 (Cell_stepRotation dt) H)
    as (g1 & E1 & R1 & H1 & F1); [left; reflexivity | apply stepRotation_target |].
  destruct (update_heading g1 w k1 (Cell_stepRotation dt) H1)
    as (g2 & E2 & R2 & H2 & F2); [right; left; reflexivity | apply stepRotation_target |].
  destruct (update_heading g2 w k2 (Cell_stepRotation dt) H2)
    as (g3 & E3 & R3 & H3 & F3); [right; right; reflexivity | apply stepRotation_target |].
  exists g3. rewrite (bind_Normal _ _ _ _ _ E1), (bind_Normal _ _ _ _ _ E2).
  split; [exact E3|]. split; [congruence|]. split; [exact H3|].
  eauto using same_frame_trans.
Qed.

Lemma all_done_heading g w :
  heading k0 k1 k2 (cells g) ->
  exists b, all_done k0 k1 k2 g w = Normal (b, w).
Proof.
  intros H. unfold all_done.
  destruct (heading_present _ k0 H) as [c0 E0]; [left; reflexivity|].
  destruct (heading_present _ k1 H) as [c1 E1]; [right; left; reflexivity|].
  destruct (heading_present _ k2 H) as [c2 E2]; [right; right; reflexivity|].
  rewrite (bind_Normal _ _ _ _ _ (load_Some g w _ _ E0)).
  rewrite (bind_Normal _ _ _ _ _ (load_Some g w _ _ E1)).
  rewrite (bind_Normal _ _ _ _ _ (load_Some g w _ _ E2)).
  eauto.
Qed.

Lemma commit_heading g w :
  heading k0 k1 k2 (cells g) ->
  exists g', commit k0 k1 k2 g w = Normal (g', w) /\
             rotation g' = None /\
             same_frame g g' /\
             (forall k, among k0 k1 k2 k -> idle_at k (cells g')).
Proof.
  intros H. unfold commit.
  destruct (swap_with_target_heading g w k0 H) as (g1 & E1 & _ & H1 & F1);
    [left; reflexivity|].
  destruct (swap_with_target_heading g1 w k1 H1) as (g2 & E2 & _ & H2 & F2);
    [right; left; reflexivity|].
  destruct (swap_with_target_heading g2 w k2 H2) as (g3 & E3 & _ & H3 & F3);
    [right; right; reflexivity|].
  destruct (reset_idle g3 w k0) as (g4 & E4 & _ & F4 & I4 & P4 & _);
    [apply (heading_present _ _ H3); left; reflexivity | left; reflexivity |].
  destruct (reset_idle g4 w k1) as (g5 & E5 & _ & F5 & I5 & P5 & K5);
    [apply P4, (heading_present _ _ H3); right; left; reflexivity
    | right; left; reflexivity |].
  destruct (reset_idle g5 w k2) as (g6 & E6 & _ & F6 & I6 & P6 & K6);
    [apply P5, P4, (heading_present _ _ H3); right; right; reflexivity
    | right; right; reflexivity |].
  exists (mkHexMap (cells g6) None).
  rewrite (bind_Normal _ _ _ _ _ E1), (bind_Normal _ _ _ _ _ E2),
    (bind_Normal _ _ _ _ _ E3), (bind_Normal _ _ _ _ _ E4),
    (bind_Normal _ _ _ _ _ E5), (bind_Normal _ _ _ _ _ E6).
  split; [reflexivity|]. split; [reflexivity|]. split.
  - assert (F : same_frame g g6) by eauto 8 using same_frame_trans.
    destruct F as [D F]. split; assumption.
  - intros k [->|[->| ->]]; simpl; auto.
Qed.

End frame.

(** One call of [stepRotation] on a consistent rotating grid: it ends
    normally, constructs no cell, keeps the keys and every cell outside the
    three, and leaves the grid either rotating and consistent or idle with
    the three cells at rest. *)
Lemma stepRotation_consistent dt g w h0 h1 h2 :
  rotation g = Some (h0, h1, h2) ->
  heading (key h0) (key h1) (key h2) (cells g) ->
  exists g', HexMap_stepRotation dt g w = Normal (g', w) /\
             same_frame (key h0) (key h1) (key h2) g g' /\
             ((rotation g' = Some (h0, h1, h2) /\
               heading (key h0) (key h1) (key h2) (cells g')) \/
              (rotation g' = None /\
               forall k, among (key h0) (key h1) (key h2) k -> idle_at k (cells g'))).
Proof.
  intros R H. unfold HexMap_stepRotation. rewrite R.
  destruct (heading_present _ _ _ _ (key h0) H) as [c0 E0]; [left; reflexivity|].
  destruct (heading_present _ _ _ _ (key h1) H) as [c1 E1]; [right; left; reflexivity|].
  destruct (heading_present _ _ _ _ (key h2) H) as [c2 E2]; [right; right; reflexivity|].
  rewrite (bind_Normal _ _ _ _ _ (cells_at_Some g w _ _ E0)).
  rewrite (bind_Normal _ _ _ _ _ (cells_at_Some g w _ _ E1)).
  rewrite (bind_Normal _ _ _ _ _ (cells_at_Some g w _ _ E2)).
  destruct (advance_cells_heading _ _ _ g w dt H) as (g1 & A & R1 & H1 & F1).
  rewrite (bind_Normal _ _ _ _ _ A).
  destruct (all_done_heading _ _ _ g1 w H1) as [b B].
  rewrite (bind_Normal _ _ _ _ _ B).
  destruct b.
  - destruct (commit_heading _ _ _ g1 w H1) as (g2 & C & R2 & F2 & I2).
    exists g2. split; [exact C|]. split; [eauto using same_frame_trans|].
    right. auto.
  - exists g1. split; [reflexivity|]. split; [exact F1|].
    left. split; [congruence | exact H1].
Qed.

(** ** Starting a rotation *)

Section start.
Context (k0 k1 k2 : ref).

(** The slot holds a cell heading for one of the three slots. *)
Local Abbreviation pending_at k m :=
  (exists c t, m !! k = Some c /\ rotatingTo c = Some t /\ among k0 k1 k2 (key t)).

Lemma start_update g w k t :
  is_Some (cells g !! k) -> among k0 k1 k2 k -> among k0 k1 k2 (key t) ->
  exists g', update k (Cell_startRotation t) g w = Normal (g', w) /\
             rotation g' = rotation g /\
             same_frame k0 k1 k2 g g' /\
             pending_at k (cells g') /\
             (forall k', is_Some (cells g !! k') -> is_Some (cells g' !! k')) /\
             (forall k', pending_at k' (cells g) -> pending_at k' (cells g')).
Proof.
  intros [c Hc] Hk Ht. exists (store k (Cell_startRotation t c) g).
  split; [now apply update_Some|]. split; [reflexivity|].
  split; [now apply same_frame_store with c|].
  rewrite cells_store. split; [|split].
  - exists (Cell_startRotation t c), t. now rewrite lookup_insert_eq.
  - intros k' Hk'. destruct (decide (k = k')) as [->|Hne].
    + rewrite lookup_insert_eq. eauto.
    + now rewrite lookup_insert_ne.
  - intros k' (c' & t' & Hc' & Ht' & Hin). destruct (decide (k = k')) as [->|Hne].
    + exists (Cell_startRotation t c), t. now rewrite lookup_insert_eq.
    + exists c', t'. now rewrite lookup_insert_ne.
Qed.

End start.

(** [startRotation] on three coordinates of the grid, distinct or not: it
    ends normally, records the descriptor and leaves the grid consistent. *)
Lemma startRotation_consistent g w h0 h1 h2 :
  is_Some (cells g !! key h0) -> is_Some (cells g !! key h1) ->
  is_Some (cells g !! key h2) ->
  exists g', HexMap_startRotation (h0, h1, h2) g w = Normal (g', w) /\
             rotation g' = Some (h0, h1, h2) /\
             heading (key h0) (key h1) (key h2) (cells g') /\
             same_frame (key h0) (key h1) (key h2) g g'.
Proof.
  intros [c0 E0] [c1 E1] [c2 E2]. unfold HexMap_startRotation.
  set (g0 := mkHexMap (cells g) (Some (h0, h1, h2))).
  rewrite (bind_Normal _ _ _ _ _ (cells_at_Some g0 w _ _ E0)).
  rewrite (bind_Normal _ _ _ _ _ (cells_at_Some g0 w _ _ E1)).
  rewrite (bind_Normal _ _ _ _ _ (cells_at_Some g0 w _ _ E2)).
  destruct (start_update (key h0) (key h1) (key h2) g0 w (key h1) h0)
    as (g1 & U1 & R1 & F1 & P1 & S1 & _);
    [simpl; eauto | right; left; reflexivity | left; reflexivity |].
  destruct (start_update (key h0) (key h1) (key h2) g1 w (key h2) h1)
    as (g2 & U2 & R2 & F2 & P2 & S2 & K2);
    [apply S1; simpl; eauto | right; right; reflexivity | right; left; reflexivity |].
  destruct (start_update (key h0) (key h1) (key h2) g2 w (key h0) h2)
    as (g3 & U3 & R3 & F3 & P3 & S3 & K3);
    [apply S2, S1; simpl; eauto | left; reflexivity | right; right; reflexivity |].
  exists g3.
  rewrite (bind_Normal _ _ _ _ _ U1), (bind_Normal _ _ _ _ _ U2).
  split; [exact U3|]. split; [now rewrite R3, R2, R1|]. split.
  - intros k [->|[->| ->]]; auto.
  - assert (F : same_frame (key h0) (key h1) (key h2) g0 g3)
      by eauto using same_frame_trans.
    exact F.
Qed.

(** ** Inserting and generating *)

Lemma insert_lookup_old hex cell g k c :
  cells g !! k = Some c -> cells (HexMap_insert hex cell g) !! k = Some c.
Proof.
  intros H. unfold HexMap_insert.
  destruct (cells g !! key hex) eqn:E; [exact H|]. simpl.
  rewrite lookup_insert_ne; [exact H|]. intros <-. congruence.
Qed.

Lemma insert_lookup_inv hex cell g k c :
  cells (HexMap_insert hex cell g) !! k = Some c ->
  cells g !! k = Some c \/ (k = key hex /\ c = cell /\ cells g !! k = None).
Proof.
  unfold HexMap_insert. destruct (cells g !! key hex) eqn:E; [auto|]. simpl.
  destruct (decide (key hex = k)) as [<-|Hne].
  - rewrite lookup_insert_eq. intros [= <-]. auto.
  - rewrite lookup_insert_ne by assumption. auto.
Qed.

Lemma insert_rotation hex cell g : rotation (HexMap_insert hex cell g) = rotation g.
Proof. unfold HexMap_insert. now destruct (cells g !! key hex). Qed.

Lemma insert_dom hex cell g :
  dom (cells (HexMap_insert hex cell g)) = {[ key hex ]} ∪ dom (cells g).
Proof.
  unfold HexMap_insert. destruct (cells g !! key hex) eqn:E.
  - assert (key hex ∈ dom (cells g)) by (apply elem_of_dom; eauto).
    apply set_eq. intros k. rewrite elem_of_union, elem_of_singleton.
    split; [auto|]. intros [->|]; assumption.
  - simpl. apply dom_insert_L.
Qed.

Lemma insert_all_idle hex cell g :
  rotatingTo cell = None -> all_idle g -> all_idle (HexMap_insert hex cell g).
Proof.
  intros Hc H k c E. destruct (insert_lookup_inv _ _ _ _ _ E) as [E'|(_ & -> & _)].
  - exact (H k c E').
  - exact Hc.
Qed.

Lemma Cell_new_idle w :
  exists c w', Cell_new w = Normal (c, w') /\ rotatingTo c = None.
Proof. unfold Cell_new. eauto. Qed.

Lemma row_loop qc (l : list Z) g w :
  exists g' w',
    foldM (fun rc hexMap =>
             let* cell := Cell_new in
             ret (HexMap_insert (mkHex qc rc (- qc - rc)) cell hexMap)) l g w
      = Normal (g', w') /\
    rotation g' = rotation g /\
    dom (cells g') = dom (cells g) ∪ list_to_set ((fun rc => (qc, rc)) <$> l) /\
    (all_idle g -> all_idle g').
Proof.
  revert g w. induction l as [|r0 l IH]; intros g w.
  - exists g, w. simpl. split; [reflexivity|]. split; [reflexivity|].
    split; [|auto]. now rewrite union_empty_r_L.
  - destruct (Cell_new_idle w) as (c & w1 & Ec & Hc).
    destruct (IH (HexMap_insert (mkHex qc r0 (- qc - r0)) c g) w1)
      as (g' & w' & E & R & D & I).
    exists g', w'. cbn [foldM].
    rewrite (bind_Normal _ _ _ _ _ (bind_Normal _ _ _ _ _ Ec)). unfold ret at 1.
    split; [exact E|]. split; [now rewrite R, insert_rotation|]. split.
    + rewrite D, insert_dom. cbn [fmap list_fmap list_to_set key q r].
      now rewrite union_assoc_L, (union_comm_L (dom (cells g))).
    + intros Hi. apply I. now apply insert_all_idle.
Qed.

Lemma grid_loop n (l : list Z) g w :
  exists g' w',
    foldM (fun q hexMap =>
             let r1 := Z.max (- n) (- q - n) in
             let r2 := Z.min n (- q + n) in
             for_upto r1 r2
               (fun r hexMap =>
                  let* cell := Cell_new in
                  ret (HexMap_insert (mkHex q r (- q - r)) cell hexMap))
               hexMap) l g w
      = Normal (g', w') /\
    rotation g' = rotation g /\
    dom (cells g') = dom (cells g) ∪ list_to_set (l ≫= row_keys n) /\
    (all_idle g -> all_idle g').
Proof.
  revert g w. induction l as [|q0 l IH]; intros g w.
  - exists g, w. simpl. split; [reflexivity|]. split; [reflexivity|].
    split; [|auto]. now rewrite union_empty_r_L.
  - destruct (row_loop q0 (seqZ (Z.max (- n) (- q0 - n))
                                 (Z.min n (- q0 + n) - Z.max (- n) (- q0 - n) + 1)) g w)
      as (g1 & w1 & E1 & R1 & D1 & I1).
    destruct (IH g1 w1) as (g' & w' & E & R & D & I).
    exists g', w'. cbn [foldM]. unfold for_upto at 1.
    rewrite (bind_Normal _ _ _ _ _ E1).
    split; [exact E|]. split; [congruence|]. split; [|auto].
    rewrite D, D1. cbn [mbind list_bind]. rewrite list_to_set_app_L.
    unfold row_keys at 2. now rewrite union_assoc_L.
Qed.

Lemma generateHexMap_spec n w :
  exists g w', generateHexMap n w = Normal (g, w') /\
               rotation g = None /\
               dom (cells g) = list_to_set (grid_keys n) /\
               all_idle g.
Proof.
  destruct (grid_loop n (seqZ (- n) (n - - n + 1)) HexMap_new w)
    as (g & w' & E & R & D & I).
  exists g, w'. split; [exact E|]. split; [exact R|]. split.
  - rewrite D. simpl. now rewrite dom_empty_L, union_empty_l_L.
  - apply I. intros k c. simpl. now rewrite lookup_empty.
Qed.

(** ** Counting the generated cells *)

Lemma NoDup_row_keys n qc : NoDup (row_keys n qc).
Proof.
  unfold row_keys. apply NoDup_fmap_2; [|apply NoDup_seqZ].
  intros a b [= ->]. reflexivity.
Qed.

Lemma row_keys_fst n qc k : k ∈ row_keys n qc -> k.1 = qc.
Proof.
  unfold row_keys. intros H. apply list_elem_of_fmap in H as (rc & -> & _). reflexivity.
Qed.

Lemma NoDup_grid_keys n : NoDup (grid_keys n).
Proof.
  unfold grid_keys. apply NoDup_bind.
  - intros q1 q2 k _ _ H1 H2.
    apply row_keys_fst in H1, H2. congruence.
  - intros qc _. apply NoDup_row_keys.
  - apply NoDup_seqZ.
Qed.

Lemma length_row_keys n qc : length (row_keys n qc) = row_length n qc.
Proof. unfold row_keys, row_length. now rewrite length_fmap, length_seqZ. Qed.

Lemma length_bind_rows n (l : list Z) :
  length (l ≫= row_keys n) = sum_list_with (row_length n) l.
Proof.
  induction l as [|qc l IH]; [reflexivity|].
  cbn [mbind list_bind sum_list_with]. fold (l ≫= row_keys n).
  now rewrite length_app, length_row_keys, IH.
Qed.

(** An arithmetic series over consecutive integers. *)
Lemma sum_affine (f : Z -> nat) (c sl a : Z) (k : nat) :
  (forall i, a <= i < a + Z.of_nat k -> Z.of_nat (f i) = c + sl * i) ->
  2 * Z.of_nat (sum_list_with f (seqZ a (Z.of_nat k))) =
  2 * Z.of_nat k * c + sl * (2 * Z.of_nat k * a + Z.of_nat k * (Z.of_nat k - 1)).
Proof.
  induction k as [|k IH]; intros Hf.
  - simpl. lia.
  - rewrite seqZ_S, sum_list_with_app. cbn [sum_list_with].
    rewrite Nat.add_0_r, Nat2Z.inj_add, Z.mul_add_distr_l.
    rewrite IH by (intros i Hi; apply Hf; lia).
    rewrite Hf by lia. lia.
Qed.

Lemma row_length_west n i : 0 <= n -> - n <= i <= 0 ->
  Z.of_nat (row_length n i) = (2 * n + 1) + 1 * i.
Proof. intros Hn Hi. unfold row_length. lia. Qed.

Lemma row_length_east n i : 0 <= n -> 0 <= i <= n ->
  Z.of_nat (row_length n i) = (2 * n + 1) + (-1) * i.
Proof. intros Hn Hi. unfold row_length. lia. Qed.

Lemma length_grid_keys n : 0 <= n ->
  Z.of_nat (length (grid_keys n)) = 3 * n * n + 3 * n + 1.
Proof.
  intros Hn. unfold grid_keys. rewrite length_bind_rows.
  replace (n - - n + 1) with (n + (n + 1)) by lia.
  rewrite seqZ_app by lia. rewrite sum_list_with_app, Nat2Z.inj_add.
  replace (- n + n) with 0 by lia.
  pose proof (sum_affine (row_length n) (2 * n + 1) 1 (- n) (Z.to_nat n)) as W.
  pose proof (sum_affine (row_length n) (2 * n + 1) (-1) 0 (Z.to_nat (n + 1))) as E.
  rewrite !Z2Nat.id in W, E by lia.
  specialize (W ltac:(intros i Hi; apply row_length_west; lia)).
  specialize (E ltac:(intros i Hi; apply row_length_east; lia)).
  nia.
Qed.

(** C8: for every radius [n >= 0] and whatever the random colours are,
    [generateHexMap(n)] returns a grid with exactly [3 n^2 + 3 n + 1] cells,
    one per key. *)
Theorem generateHexMap_cell_count (n : Z) (w : World) :
  0 <= n ->
  exists g w', generateHexMap n w = Normal (g, w') /\
               Z.of_nat (size (cells g)) = 3 * n * n + 3 * n + 1.
Proof.
  intros Hn. destruct (generateHexMap_spec n w) as (g & w' & E & _ & D & _).
  exists g, w'. split; [exact E|].
  rewrite <- size_dom, D, size_list_to_set by apply NoDup_grid_keys.
  now apply length_grid_keys.
Qed.

(** ** The invariant of the rotation state machine *)

Lemma stepRotation_idle dt g w : rotation g = None -> HexMap_stepRotation dt g w = Normal (g, w).
Proof. intros R. unfold HexMap_stepRotation. now rewrite R. Qed.

Lemma insert_consistent hex cell g : consistent g -> consistent (HexMap_insert hex cell g).
Proof.
  unfold consistent. rewrite insert_rotation.
  destruct (rotation g) as [[[h0 h1] h2]|]; [|auto].
  intros H k Hk. destruct (H k Hk) as (c & t & Hc & Ht).
  exists c, t. split; [now apply insert_lookup_old | exact Ht].
Qed.

Lemma reachable_consistent ok g : reachable ok g -> consistent g.
Proof.
  induction 1 as [n w g w' E | hex cell g _ IH _
                 | h0 h1 h2 g w g' w' _ _ _ P0 P1 P2 E
                 | dt g w g' w' _ IH E].
  - destruct (generateHexMap_spec n w) as (g0 & w0 & E0 & R0 & _).
    rewrite E0 in E. injection E as <- <-. unfold consistent. now rewrite R0.
  - now apply insert_consistent.
  - destruct (startRotation_consistent g w h0 h1 h2 P0 P1 P2) as (g0 & E0 & R0 & H0 & _).
    rewrite E0 in E. injection E as <- <-. unfold consistent. now rewrite R0.
  - unfold consistent in IH. destruct (rotation g) as [[[h0 h1] h2]|] eqn:R.
    + destruct (stepRotation_consistent dt g w h0 h1 h2 R IH)
        as (g0 & E0 & _ & [[R0 H0]|[R0 _]]);
        rewrite E0 in E; injection E as <- <-; unfold consistent; now rewrite R0.
    + rewrite (stepRotation_idle dt g w R) in E. injection E as <- <-.
      unfold consistent. now rewrite R.
Qed.

Lemma all_idle_quiet g : rotation g = None -> (all_idle g <-> quiet_elsewhere g).
Proof.
  intros R. unfold all_idle, quiet_elsewhere. rewrite R. split.
  - intros H k c Hc [t Ht]. rewrite (H k c Hc) in Ht. discriminate.
  - intros H k c Hc. destruct (rotatingTo c) eqn:E; [|reflexivity].
    exfalso. apply (H k c Hc). eauto.
Qed.

Lemma insert_quiet hex cell g :
  rotatingTo cell = None -> quiet_elsewhere g -> quiet_elsewhere (HexMap_insert hex cell g).
Proof.
  intros Hc H k c E P. rewrite insert_rotation.
  destruct (insert_lookup_inv _ _ _ _ _ E) as [E'|(_ & -> & _)].
  - exact (H k c E' P).
  - rewrite Hc in P. destruct P; discriminate.
Qed.

Lemma reachable_quiet ok g :
  (forall c, ok c -> idle_cell c) -> reachable ok g -> quiet_elsewhere g.
Proof.
  intros Hok.
  induction 1 as [n w g w' E | hex cell g _ IH Hc
                 | h0 h1 h2 g w g' w' _ IH R P0 P1 P2 E
                 | dt g w g' w' Hg IH E].
  - destruct (generateHexMap_spec n w) as (g0 & w0 & E0 & R0 & _ & I0).
    rewrite E0 in E. injection E as <- <-. now apply all_idle_quiet.
  - apply insert_quiet; [now apply Hok | exact IH].
  - destruct (startRotation_consistent g w h0 h1 h2 P0 P1 P2)
      as (g0 & E0 & R0 & _ & _ & F0).
    rewrite E0 in E. injection E as <- <-.
    apply all_idle_quiet in IH; [|exact R].
    intros k c Hc P. rewrite R0.
    destruct (decide (k = key h0)) as [->|N0]; [left; reflexivity|].
    destruct (decide (k = key h1)) as [->|N1]; [right; left; reflexivity|].
    destruct (decide (k = key h2)) as [->|N2]; [right; right; reflexivity|].
    rewrite F0 in Hc by (intros [|[|]]; contradiction).
    rewrite (IH k c Hc) in P. destruct P; discriminate.
  - destruct (rotation g) as [[[h0 h1] h2]|] eqn:R.
    + pose proof (reachable_consistent ok g Hg) as C. unfold consistent in C.
      rewrite R in C.
      destruct (stepRotation_consistent dt g w h0 h1 h2 R C)
        as (g0 & E0 & [_ F0] & Hcase).
      rewrite E0 in E. injection E as <- <-.
      intros k c Hc P.
      destruct Hcase as [[R0 _]|[R0 I0]]; rewrite R0.
      * destruct (decide (k = key h0)) as [->|N0]; [left; reflexivity|].
        destruct (decide (k = key h1)) as [->|N1]; [right; left; reflexivity|].
        destruct (decide (k = key h2)) as [->|N2]; [right; right; reflexivity|].
        rewrite F0 in Hc by (intros [|[|]]; contradiction).
        specialize (IH k c Hc P). rewrite R in IH.
        destruct IH as [|[|]]; contradiction.
      * destruct (decide (k = key h0)) as [->|N0];
          [|destruct (decide (k = key h1)) as [->|N1];
            [|destruct (decide (k = key h2)) as [->|N2]]].
        -- destruct (I0 (key h0)) as (c' & Hc' & Hi); [left; reflexivity|].
           rewrite Hc in Hc'. injection Hc' as <-. rewrite Hi in P. destruct P; discriminate.
        -- destruct (I0 (key h1)) as (c' & Hc' & Hi); [right; left; reflexivity|].
           rewrite Hc in Hc'. injection Hc' as <-. rewrite Hi in P. destruct P; discriminate.
        -- destruct (I0 (key h2)) as (c' & Hc' & Hi); [right; right; reflexivity|].
           rewrite Hc in Hc'. injection Hc' as <-. rewrite Hi in P. destruct P; discriminate.
        -- rewrite F0 in Hc by (intros [|[|]]; contradiction).
           specialize (IH k c Hc P). rewrite R in IH.
           destruct IH as [|[|]]; contradiction.
    + rewrite (stepRotation_idle dt g w R) in E. injection E as <- <-. exact IH.
Qed.

(** C4: in every grid reachable from a generated one by [insert],
    [startRotation] under its preconditions and [stepRotation]: the
    descriptor is present exactly when one of the cells it references has a
    pending target; the three coordinates of a present descriptor are keys of
    the map; and there is at most one rotation: the single descriptor, and,
    provided the inserted cells come without a target (as [Cell()] builds
    them), every cell with a pending target sits at one of its three
    coordinates, none when the grid is idle. *)
Theorem rotation_invariant (ok : Cell -> Prop) (g : HexMap) :
  reachable ok g ->
  (HexMap_hasRotation g = true <->
   exists h0 h1 h2 c,
     rotation g = Some (h0, h1, h2) /\
     (cells g !! key h0 = Some c \/ cells g !! key h1 = Some c \/
      cells g !! key h2 = Some c) /\
     is_Some (rotatingTo c)) /\
  (forall h0 h1 h2, rotation g = Some (h0, h1, h2) ->
     is_Some (cells g !! key h0) /\ is_Some (cells g !! key h1) /\
     is_Some (cells g !! key h2)) /\
  ((forall c, ok c -> idle_cell c) -> quiet_elsewhere g).
Proof.
  intros Hg. pose proof (reachable_consistent ok g Hg) as C.
  unfold consistent in C. split; [|split].
  - unfold HexMap_hasRotation. destruct (rotation g) as [[[h0 h1] h2]|]; split.
    + intros _. destruct (C (key h0)) as (c & t & Hc & Ht & _); [left; reflexivity|].
      exists h0, h1, h2, c. rewrite Ht. eauto.
    + reflexivity.
    + discriminate.
    + intros (? & ? & ? & ? & [=] & _).
  - intros h0 h1 h2 R. rewrite R in C.
    repeat split; eapply heading_present; try exact C;
      [left | right; left | right; right]; reflexivity.
  - intros Hok. now apply reachable_quiet with ok.
Qed.


(** ** binary32 facts *)

Lemma fexp_normal z : -125 <= z -> fexp F32.prec F32.emax z = z - 24.
Proof. unfold fexp, emin, F32.prec, F32.emax. lia. Qed.

Lemma normal_digits m e :
  bounded F32.prec F32.emax m e = true -> -148 <= e -> digits2_pos m = 24%positive.
Proof.
  unfold bounded, canonical_mantissa, fexp, emin, F32.prec, F32.emax.
  intros H He. apply andb_prop in H as [H _]. apply Z.eqb_eq in H.
  assert (Z.pos (digits2_pos m) = 24) by lia. congruence.
Qed.

(** Multiplying a normal number by four only moves its exponent. *)
Lemma mul_four_normal m e :
  digits2_pos m = 24%positive -> -149 <= e ->
  F32.mul (S754_finite false m e) F32.four =
  if e + 2 <=? 104 then S754_finite false m (e + 2) else S754_infinity false.
Proof.
  intros Hd He. unfold F32.mul, F32.four, SFmul. cbn [xorb].
  rewrite Pos.mul_comm.
  replace (8388608 * m)%positive
    with (m~0~0~0~0~0~0~0~0~0~0~0~0~0~0~0~0~0~0~0~0~0~0~0)%positive by reflexivity.
  unfold binary_round_aux, shr_fexp.
  replace (Zdigits2 (Z.pos m~0~0~0~0~0~0~0~0~0~0~0~0~0~0~0~0~0~0~0~0~0~0~0)) with 47
    by (cbn [Zdigits2 digits2_pos]; rewrite Hd; reflexivity).
  rewrite fexp_normal by lia.
  replace (47 + (e + -21) - 24 - (e + -21)) with 23 by lia.
  change (shr (shr_record_of_loc (Z.pos m~0~0~0~0~0~0~0~0~0~0~0~0~0~0~0~0~0~0~0~0~0~0~0)
                 loc_Exact) (e + -21) 23)
    with (Build_shr_record (Z.pos m) false false, e + -21 + 23).
  cbn [shr_m loc_of_shr_record round_nearest_even shr_record_of_loc Zdigits2].
  rewrite Hd, fexp_normal by lia.
  replace (24 + (e + -21 + 23) - 24 - (e + -21 + 23)) with 0 by lia.
  cbn [shr shr_m].
  replace (e + -21 + 23) with (e + 2) by lia. reflexivity.
Qed.

(** From rest, a step of at least a quarter of a time unit completes the
    rotation. *)
Lemma advanced_quarter dt :
  F32.valid dt = true -> F32.ge dt F32.quarter = true ->
  advanced dt F32.zero = F32.one.
Proof.
  intros Hv Hq. destruct dt as [sg|sg| |sg m e]; try discriminate.
  - destruct sg; [discriminate|]. reflexivity.
  - destruct sg; [discriminate|].
    unfold F32.ge, SFleb, F32.quarter in Hq. cbn [SFcompare] in Hq.
    assert (He : -25 <= e).
    { destruct (Z.compare_spec (-25) e); try lia; discriminate. }
    unfold F32.valid, valid_binary in Hv.
    pose proof (normal_digits m e Hv ltac:(lia)) as Hd.
    unfold advanced. rewrite (mul_four_normal m e Hd) by lia.
    destruct (e + 2 <=? 104) eqn:Hb; [|reflexivity].
    unfold F32.add, F32.zero, SFadd, F32.gt, SFltb, F32.one. cbn [SFcompare].
    destruct (Z.compare_spec (-23) (e + 2)) as [E|E|E]; try lia; [|reflexivity].
    assert (e = -25) by lia. subst e.
    rewrite Z.compare_refl in Hq.
    destruct (Pos.compare_cont Eq 8388608 m) eqn:C; try discriminate; [|reflexivity].
    apply Pos.compare_eq in C. subst m. reflexivity.
Qed.

(** ** Progress is four times the running sum *)

Lemma digits2_size p : digits2_pos p = Pos.size p.
Proof. induction p; cbn; congruence. Qed.

Lemma digits2_le a b : (a <= b)%positive -> (digits2_pos a <= digits2_pos b)%positive.
Proof.
  intros H. rewrite (digits2_size a), (digits2_size b).
  destruct (Pos.lt_total (Pos.size b) (Pos.size a)) as [L|[E|L]]; [exfalso|lia..].
  pose proof (Pos.size_gt b) as Gb. pose proof (Pos.size_le a) as La.
  apply Pos2Z.pos_lt_pos in Gb. apply Pos2Z.pos_le_pos in La.
  rewrite Pos2Z.inj_pow in Gb, La.
  assert (P : 2 ^ (Z.pos (Pos.size b) + 1) <= 2 ^ Z.pos (Pos.size a))
    by (apply Z.pow_le_mono_r; lia).
  rewrite Z.pow_add_r, Z.pow_1_r in P by lia. lia.
Qed.

Lemma digits2_iter_xO m d :
  digits2_pos (Pos.iter xO m d) = (digits2_pos m + d)%positive.
Proof.
  induction d as [|d IH] using Pos.peano_ind.
  - cbn. lia.
  - rewrite Pos.iter_succ. cbn [digits2_pos]. rewrite IH. lia.
Qed.

Lemma shl_align_digits m e e' :
  Z.pos (digits2_pos (fst (shl_align m e e'))) + snd (shl_align m e e')
  = Z.pos (digits2_pos m) + e.
Proof.
  unfold shl_align. destruct (e' - e) as [|d|d] eqn:E; cbn [fst snd]; try reflexivity.
  rewrite digits2_iter_xO. lia.
Qed.

Lemma shl_align_shift m e e' k :
  shl_align m (e + k) (e' + k) = (fst (shl_align m e e'), snd (shl_align m e e') + k).
Proof.
  unfold shl_align. replace (e' + k - (e + k)) with (e' - e) by lia.
  destruct (e' - e); reflexivity.
Qed.

Lemma fexp_shift z : -125 <= z ->
  fexp F32.prec F32.emax (z + 2) = fexp F32.prec F32.emax z + 2.
Proof. unfold fexp, emin, F32.prec, F32.emax. lia. Qed.

Lemma fexp_ge z : z - 24 <= fexp F32.prec F32.emax z.
Proof. unfold fexp, emin, F32.prec, F32.emax. lia. Qed.

Lemma shr_shift mrs e n k : shr mrs (e + k) n = (fst (shr mrs e n), snd (shr mrs e n) + k).
Proof. unfold shr. destruct n; cbn [fst snd]; f_equal; lia. Qed.

Lemma shr_exponent mrs e n : e <= snd (shr mrs e n) /\ e + n <= snd (shr mrs e n).
Proof. unfold shr. destruct n; cbn [snd]; lia. Qed.

Lemma Zdigits2_nonneg n : 0 <= Zdigits2 n.
Proof. destruct n; cbn; lia. Qed.

Lemma shr_idle mrs e n : n <= 0 -> shr mrs e n = (mrs, e).
Proof. unfold shr. destruct n; [reflexivity | lia | reflexivity]. Qed.

Lemma binary_round_aux_scale sg mz ez :
  -125 <= Zdigits2 mz + ez -> -149 <= ez ->
  binary_round_aux F32.prec F32.emax sg mz (ez + 2) loc_Exact
  = scale4 (binary_round_aux F32.prec F32.emax sg mz ez loc_Exact).
Proof.
  intros Hd Hz. unfold binary_round_aux, shr_fexp.
  replace (Zdigits2 mz + (ez + 2)) with (Zdigits2 mz + ez + 2) by lia.
  rewrite fexp_shift by lia.
  replace (fexp F32.prec F32.emax (Zdigits2 mz + ez) + 2 - (ez + 2))
    with (fexp F32.prec F32.emax (Zdigits2 mz + ez) - ez) by lia.
  rewrite shr_shift.
  pose proof (shr_exponent (shr_record_of_loc mz loc_Exact) ez
                (fexp F32.prec F32.emax (Zdigits2 mz + ez) - ez)) as [He _].
  destruct (shr (shr_record_of_loc mz loc_Exact) ez
              (fexp F32.prec F32.emax (Zdigits2 mz + ez) - ez)) as [mrs' e'].
  cbn [fst snd] in *.
  set (m1 := round_nearest_even (shr_m mrs') (loc_of_shr_record mrs')).
  assert (X : shr (shr_record_of_loc m1 loc_Exact) (e' + 2)
                (fexp F32.prec F32.emax (Zdigits2 m1 + (e' + 2)) - (e' + 2))
              = (fst (shr (shr_record_of_loc m1 loc_Exact) e'
                        (fexp F32.prec F32.emax (Zdigits2 m1 + e') - e')),
                 snd (shr (shr_record_of_loc m1 loc_Exact) e'
                        (fexp F32.prec F32.emax (Zdigits2 m1 + e') - e')) + 2)).
  { destruct (Z_le_gt_dec (Zdigits2 m1) 24) as [Small|Large].
    - (* no digit to drop, before or after the scaling *)
      rewrite !shr_idle; [reflexivity | |];
        unfold fexp, emin, F32.prec, F32.emax; lia.
    - replace (Zdigits2 m1 + (e' + 2)) with (Zdigits2 m1 + e' + 2) by lia.
      rewrite fexp_shift by lia.
      replace (fexp F32.prec F32.emax (Zdigits2 m1 + e') + 2 - (e' + 2))
        with (fexp F32.prec F32.emax (Zdigits2 m1 + e') - e') by lia.
      apply shr_shift. }
  rewrite X.
  destruct (shr (shr_record_of_loc m1 loc_Exact) e'
              (fexp F32.prec F32.emax (Zdigits2 m1 + e') - e')) as [mrs'' e''].
  cbn [fst snd].
  destruct (shr_m mrs'') as [|m|m]; try reflexivity.
  unfold F32.emax, F32.prec. change (128 - 24) with 104. cbn [scale4].
  destruct (e'' <=? 104) eqn:E1; destruct (e'' + 2 <=? 104) eqn:E2; cbn [scale4];
    try rewrite E2; try reflexivity; lia.
Qed.

Lemma shl_align_exponent m e e' : -149 <= e -> -149 <= e' -> -149 <= snd (shl_align m e e').
Proof. unfold shl_align. destruct (e' - e) eqn:E; cbn [snd]; lia. Qed.

Lemma fexp_emin z : -149 <= fexp F32.prec F32.emax z.
Proof. unfold fexp, emin, F32.prec, F32.emax. lia. Qed.

Lemma binary_round_scale sg m e :
  -125 <= Z.pos (digits2_pos m) + e -> -149 <= e ->
  binary_round F32.prec F32.emax sg m (e + 2)
  = scale4 (binary_round F32.prec F32.emax sg m e).
Proof.
  intros Hd He. unfold binary_round.
  replace (Z.pos (digits2_pos m) + (e + 2)) with (Z.pos (digits2_pos m) + e + 2) by lia.
  rewrite fexp_shift by lia. rewrite shl_align_shift.
  pose proof (shl_align_digits m e (fexp F32.prec F32.emax (Z.pos (digits2_pos m) + e))) as Hs.
  pose proof (shl_align_exponent m e (fexp F32.prec F32.emax (Z.pos (digits2_pos m) + e))
                He (fexp_emin _)) as Hx.
  destruct (shl_align m e (fexp F32.prec F32.emax (Z.pos (digits2_pos m) + e))) as [mz ez].
  cbn [fst snd] in *. apply binary_round_aux_scale; [cbn [Zdigits2]; lia | exact Hx].
Qed.

(** A sum of two floats has an exponent of the format when they have. *)
Lemma binary_round_aux_exponent sg mz ez l :
  -149 <= ez -> exp_ok (binary_round_aux F32.prec F32.emax sg mz ez l).
Proof.
  intros Hz. unfold binary_round_aux, shr_fexp.
  pose proof (shr_exponent (shr_record_of_loc mz l) ez
                (fexp F32.prec F32.emax (Zdigits2 mz + ez) - ez)) as [He _].
  destruct (shr (shr_record_of_loc mz l) ez _) as [mrs' e']. cbn [fst snd] in *.
  set (m1 := round_nearest_even (shr_m mrs') (loc_of_shr_record mrs')).
  pose proof (shr_exponent (shr_record_of_loc m1 loc_Exact) e'
                (fexp F32.prec F32.emax (Zdigits2 m1 + e') - e')) as [He' _].
  destruct (shr (shr_record_of_loc m1 loc_Exact) e' _) as [mrs'' e'']. cbn [fst snd] in *.
  destruct (shr_m mrs''); cbn [exp_ok]; auto.
  destruct (e'' <=? F32.emax - F32.prec); cbn [exp_ok]; [lia | exact I].
Qed.

Lemma add_exponent mc ec md ed :
  -149 <= ec -> -149 <= ed ->
  exp_ok (F32.add (S754_finite false mc ec) (S754_finite false md ed)).
Proof.
  intros Hc Hd. unfold F32.add, SFadd. cbn [cond_Zopp].
  change (Z.pos ?a + Z.pos ?b) with (Z.pos (a + b)). unfold binary_normalize, binary_round.
  set (S := (fst (shl_align mc ec (Z.min ec ed)) + fst (shl_align md ed (Z.min ec ed)))%positive).
  pose proof (shl_align_exponent S (Z.min ec ed)
                (fexp F32.prec F32.emax (Z.pos (digits2_pos S) + Z.min ec ed))
                ltac:(lia) (fexp_emin _)) as Hx.
  destruct (shl_align S (Z.min ec ed) _) as [mz ez]. cbn [snd] in Hx.
  now apply binary_round_aux_exponent.
Qed.

Lemma scale4_ge c : sign_ok c = true -> F32.ge (scale4 c) F32.one = F32.ge c F32.quarter.
Proof.
  destruct c as [sg|sg| |sg m e]; cbn [sign_ok scale4]; try reflexivity.
  destruct sg; [discriminate|]. intros _.
  unfold F32.ge, SFleb, F32.one, F32.quarter.
  destruct (e + 2 <=? 104) eqn:E; cbn [SFcompare].
  - replace (-23 ?= e + 2) with (-25 ?= e); [reflexivity|].
    rewrite (Z.compare_sub (-25)), (Z.compare_sub (-23)). f_equal. lia.
  - apply Z.leb_gt in E. assert (C : (-25 ?= e) = Lt) by (apply Z.compare_lt_iff; lia).
    now rewrite C.
Qed.

Lemma gt_ge x y : F32.gt x y = true -> F32.ge x y = true.
Proof. unfold F32.gt, F32.ge, SFltb, SFleb. now destruct (SFcompare y x) as [[| |]|]. Qed.

Lemma binary_round_aux_sign sg m e l :
  sign_ok (binary_round_aux F32.prec F32.emax sg m e l) = negb sg
  \/ binary_round_aux F32.prec F32.emax sg m e l = S754_nan.
Proof.
  unfold binary_round_aux.
  destruct (shr_fexp _ _ m e l) as [mrs' e'].
  destruct (shr_fexp _ _ _ e' loc_Exact) as [mrs'' e''].
  destruct (shr_m mrs''); [left; reflexivity| |right; reflexivity].
  destruct (e'' <=? F32.emax - F32.prec); left; reflexivity.
Qed.

Lemma add_nonneg_sign mc ec md ed :
  sign_ok (F32.add (S754_finite false mc ec) (S754_finite false md ed)) = true.
Proof.
  unfold F32.add, SFadd. cbn [cond_Zopp].
  change (Z.pos ?a + Z.pos ?b) with (Z.pos (a + b)). unfold binary_normalize, binary_round.
  destruct (shl_align _ _ _) as [mz ez].
  destruct (binary_round_aux_sign false (Z.pos mz) ez loc_Exact) as [H|H]; now rewrite H.
Qed.

Lemma lt_quarter_exponent m e :
  F32.lt (S754_finite false m e) F32.quarter = true -> e <= -25.
Proof.
  unfold F32.lt, SFltb, F32.quarter. cbn [SFcompare].
  destruct (Z.compare_spec e (-25)); [lia | lia | discriminate].
Qed.

(** ** Representations of the same number *)

Section iter.
Context {A : Type} (f : A -> A).

Lemma iter_pos_swap n : forall x, SpecFloat.iter_pos f n (f x) = f (SpecFloat.iter_pos f n x).
Proof.
  induction n as [n IH|n IH|]; intros x; cbn [SpecFloat.iter_pos]; [|now rewrite !IH | reflexivity].
  now rewrite !IH.
Qed.

Lemma iter_pos_succ n x :
  SpecFloat.iter_pos f (Pos.succ n) x = SpecFloat.iter_pos f n (f x).
Proof.
  revert x. induction n as [n IH|n IH|]; intros x; [|reflexivity | reflexivity].
  change (SpecFloat.iter_pos f (Pos.succ n) (SpecFloat.iter_pos f (Pos.succ n) x)
          = SpecFloat.iter_pos f n (SpecFloat.iter_pos f n (f (f x)))).
  now rewrite !IH, !iter_pos_swap.
Qed.

End iter.

(** Dropping a trailing zero of the mantissa first changes nothing. *)
Lemma shr_xO m e n :
  0 <= n ->
  shr (Build_shr_record (Z.pos (xO m)) false false) (e - 1) (n + 1)
  = shr (Build_shr_record (Z.pos m) false false) e n.
Proof.
  intros Hn. unfold shr. destruct n as [|q|q]; [| |lia].
  - cbn. f_equal. lia.
  - replace (Z.pos q + 1) with (Z.pos (Pos.succ q)) by lia.
    rewrite iter_pos_succ. cbn [shr_1 orb]. f_equal. lia.
Qed.

Lemma iter_xO_succ m k : Pos.iter xO m (Pos.succ k) = xO (Pos.iter xO m k).
Proof. apply Pos.iter_succ. Qed.

Lemma iter_xO_swap m k : Pos.iter xO (xO m) k = xO (Pos.iter xO m k).
Proof. apply Pos.iter_swap. Qed.

(** Rounding the mantissa [2 m] at the exponent [e - 1] gives the same
    float as rounding [m] at [e]. *)
Lemma binary_round_xO sg m e :
  binary_round F32.prec F32.emax sg (xO m) (e - 1) = binary_round F32.prec F32.emax sg m e.
Proof.
  unfold binary_round. cbn [digits2_pos].
  replace (Z.pos (Pos.succ (digits2_pos m)) + (e - 1)) with (Z.pos (digits2_pos m) + e) by lia.
  set (f := fexp F32.prec F32.emax (Z.pos (digits2_pos m) + e)).
  unfold shl_align.
  destruct (Z.compare_spec f e) as [Eq|Lt|Gt].
  - (* the target is [e]: one digit to drop on the left, none on the right *)
    assert (E : f - e = 0) by lia. assert (E' : f - (e - 1) = 0 + 1) by lia.
    rewrite E. replace (f - (e - 1)) with 1 by lia.
    unfold binary_round_aux, shr_fexp. cbn [Zdigits2 digits2_pos].
    replace (Z.pos (Pos.succ (digits2_pos m)) + (e - 1)) with (Z.pos (digits2_pos m) + e) by lia.
    fold f. rewrite E, E'.
    cbn [shr_record_of_loc]. now rewrite shr_xO by lia.
  - (* both are aligned on the target *)
    destruct (f - e) as [|d|d] eqn:E; try lia.
    destruct (f - (e - 1)) as [|d'|d'] eqn:E'; try lia.
    + assert (d = 1%positive) by lia. subst d. replace (e - 1) with f by lia. reflexivity.
    + assert (d = Pos.succ d') by lia. subst d.
      now rewrite iter_xO_succ, iter_xO_swap.
  - (* digits to drop on both sides *)
    destruct (f - e) as [|d|d] eqn:E; try lia.
    destruct (f - (e - 1)) as [|d'|d'] eqn:E'; try lia.
    unfold binary_round_aux, shr_fexp. cbn [Zdigits2 digits2_pos].
    replace (Z.pos (Pos.succ (digits2_pos m)) + (e - 1)) with (Z.pos (digits2_pos m) + e) by lia.
    fold f. rewrite E, E'. replace (Z.pos d') with (Z.pos d + 1) by lia.
    cbn [shr_record_of_loc]. now rewrite shr_xO by lia.
Qed.

Lemma binary_round_iter sg m e d :
  binary_round F32.prec F32.emax sg (Pos.iter xO m d) (e - Z.pos d)
  = binary_round F32.prec F32.emax sg m e.
Proof.
  induction d as [|d IH] using Pos.peano_ind.
  - apply binary_round_xO.
  - rewrite iter_xO_succ.
    replace (e - Z.pos (Pos.succ d)) with (e - Z.pos d - 1) by lia.
    now rewrite binary_round_xO.
Qed.

(** The sum does not change when a trailing zero of an operand is moved
    into its exponent. *)
Lemma add_xO_l m e my ey :
  F32.add (S754_finite false (xO m) (e - 1)) (S754_finite false my ey)
  = F32.add (S754_finite false m e) (S754_finite false my ey).
Proof.
  unfold F32.add, SFadd. cbn [cond_Zopp].
  change (Z.pos ?a + Z.pos ?b) with (Z.pos (a + b)). unfold binary_normalize.
  destruct (Z_le_gt_dec e ey) as [Low|High].
  - (* the sum is formed at [e - 1] on the left and at [e] on the right *)
    rewrite (Z.min_l (e - 1) ey), (Z.min_l e ey) by lia.
    assert (A : fst (shl_align (xO m) (e - 1) (e - 1)) = xO m).
    { unfold shl_align. now rewrite Z.sub_diag. }
    assert (A' : fst (shl_align m e e) = m).
    { unfold shl_align. now rewrite Z.sub_diag. }
    assert (B : fst (shl_align my ey (e - 1)) = xO (fst (shl_align my ey e))).
    { unfold shl_align.
      destruct (e - ey) as [|d|d] eqn:E; destruct (e - 1 - ey) as [|d'|d'] eqn:E';
        try lia; cbn [fst].
      - assert (d' = 1%positive) by lia. subst d'. reflexivity.
      - assert (d' = Pos.succ d) by lia. subst d'. apply iter_xO_succ. }
    rewrite A, A', B.
    change (xO m + xO (fst (shl_align my ey e)))%positive
      with (xO (m + fst (shl_align my ey e)))%positive.
    apply binary_round_xO.
  - (* the sum is formed at [ey] on both sides *)
    rewrite (Z.min_r (e - 1) ey), (Z.min_r e ey) by lia.
    do 2 f_equal. unfold shl_align.
    destruct (ey - e) as [|d|d] eqn:E; destruct (ey - (e - 1)) as [|d'|d'] eqn:E';
      try lia; cbn [fst].
    + assert (d = 1%positive) by lia. subst d. reflexivity.
    + assert (d = Pos.succ d') by lia. subst d.
      now rewrite iter_xO_succ, iter_xO_swap.
Qed.

Lemma add_comm_finite m e m' e' :
  F32.add (S754_finite false m e) (S754_finite false m' e')
  = F32.add (S754_finite false m' e') (S754_finite false m e).
Proof. unfold F32.add, SFadd. cbn [cond_Zopp]. now rewrite Z.min_comm, Z.add_comm. Qed.

Lemma add_xO_r m e my ey :
  F32.add (S754_finite false my ey) (S754_finite false (xO m) (e - 1))
  = F32.add (S754_finite false my ey) (S754_finite false m e).
Proof. now rewrite add_comm_finite, add_xO_l, add_comm_finite. Qed.

(** Rounding a number that needs no rounding. *)
Lemma binary_round_exact sg m e :
  fexp F32.prec F32.emax (Z.pos (digits2_pos m) + e) <= e ->
  binary_round F32.prec F32.emax sg m e =
  if fexp F32.prec F32.emax (Z.pos (digits2_pos m) + e) <=? 104
  then S754_finite sg
         (fst (shl_align m e (fexp F32.prec F32.emax (Z.pos (digits2_pos m) + e))))
         (fexp F32.prec F32.emax (Z.pos (digits2_pos m) + e))
  else S754_infinity sg.
Proof.
  intros Hf. unfold binary_round.
  pose proof (shl_align_digits m e (fexp F32.prec F32.emax (Z.pos (digits2_pos m) + e))) as Hs.
  assert (Hx : snd (shl_align m e (fexp F32.prec F32.emax (Z.pos (digits2_pos m) + e)))
               = fexp F32.prec F32.emax (Z.pos (digits2_pos m) + e)).
  { unfold shl_align. destruct (_ - e) eqn:E; cbn [snd]; lia. }
  destruct (shl_align m e _) as [mz ez]. cbn [fst snd] in *. subst ez.
  unfold binary_round_aux, shr_fexp. cbn [Zdigits2]. rewrite Hs, Z.sub_diag.
  cbn [shr shr_record_of_loc shr_m loc_of_shr_record round_nearest_even Zdigits2].
  rewrite Hs, Z.sub_diag. cbn [shr shr_m]. reflexivity.
Qed.

Lemma shl_align_succ m e e' :
  e' <= e -> fst (shl_align m (e + 1) e') = xO (fst (shl_align m e e')).
Proof.
  intros H. unfold shl_align.
  destruct (e' - e) as [|d|d] eqn:E; destruct (e' - (e + 1)) as [|d'|d'] eqn:E';
    try lia; cbn [fst].
  - assert (d' = 1%positive) by lia. subst d'. reflexivity.
  - assert (d' = Pos.succ d) by lia. subst d'. apply iter_xO_succ.
Qed.

(** Four times a float is the float rounded from the same mantissa two
    exponents higher. *)
Lemma mul_four_round m e :
  F32.mul (S754_finite false m e) F32.four
  = binary_round F32.prec F32.emax false m (e + 2).
Proof.
  rewrite <- (binary_round_iter false m (e + 2) 23).
  unfold F32.mul, F32.four, SFmul. cbn [xorb].
  replace (m * 8388608)%positive with (Pos.iter xO m 23)
    by (rewrite Pos.mul_comm; reflexivity).
  replace (e + 2 - 23) with (e + -21) by lia.
  unfold binary_round.
  assert (H : e + -21 <= fexp F32.prec F32.emax
                           (Z.pos (digits2_pos (Pos.iter xO m 23)) + (e + -21))).
  { rewrite digits2_iter_xO. unfold fexp, emin, F32.prec, F32.emax. lia. }
  unfold shl_align.
  destruct (fexp _ _ _ - (e + -21)) eqn:E; try lia; reflexivity.
Qed.

(** ** One call of the accumulation *)

Lemma quadruple_ge p c :
  quadruple p c -> sign_ok c = true -> F32.ge p F32.one = F32.ge c F32.quarter.
Proof.
  intros [->|H] Sg; [now apply scale4_ge|].
  destruct c as [| | |sg m e]; try contradiction.
  destruct sg; [discriminate|]. destruct H as [-> [->| ->]]; reflexivity.
Qed.

Lemma round_quadruple sg m e :
  -149 <= e ->
  quadruple (binary_round F32.prec F32.emax sg m (e + 2)) (binary_round F32.prec F32.emax sg m e).
Proof.
  intros He. destruct (Z_le_gt_dec (-125) (Z.pos (digits2_pos m) + e)) as [N|T].
  - left. now apply binary_round_scale.
  - assert (F0 : fexp F32.prec F32.emax (Z.pos (digits2_pos m) + e) = -149)
      by (unfold fexp, emin, F32.prec, F32.emax; lia).
    unfold quadruple.
    rewrite (binary_round_exact sg m e) by (rewrite F0; exact He).
    rewrite F0. change (-149 <=? 104) with true. cbv iota.
    right. split; [reflexivity|].
    destruct (Z.eq_dec (Z.pos (digits2_pos m) + e) (-126)) as [E|E].
    + left.
      assert (F2 : fexp F32.prec F32.emax (Z.pos (digits2_pos m) + (e + 2)) = -148)
        by (unfold fexp, emin, F32.prec, F32.emax; lia).
      rewrite binary_round_exact by (rewrite F2; lia).
      rewrite F2. change (-148 <=? 104) with true. cbv iota. f_equal.
      replace (e + 2) with (e + 1 + 1) by lia. change (-148) with (-149 + 1).
      rewrite shl_align_shift. cbn [fst]. apply shl_align_succ. exact He.
    + right.
      assert (F2 : fexp F32.prec F32.emax (Z.pos (digits2_pos m) + (e + 2)) = -149)
        by (unfold fexp, emin, F32.prec, F32.emax; lia).
      rewrite binary_round_exact by (rewrite F2; lia).
      rewrite F2. change (-149 <=? 104) with true. cbv iota. f_equal.
      replace (e + 2) with (e + 1 + 1) by lia.
      rewrite shl_align_succ by lia. now rewrite shl_align_succ by lia.
Qed.

(** Adding two non-negative floats after both were multiplied by four gives
    four times their sum. *)
Lemma add_quadruple mc ec md ed :
  -149 <= ec -> -149 <= ed ->
  quadruple (F32.add (S754_finite false mc (ec + 2)) (S754_finite false md (ed + 2)))
            (F32.add (S754_finite false mc ec) (S754_finite false md ed)).
Proof.
  intros Hc He. unfold F32.add, SFadd. cbn [cond_Zopp].
  rewrite Z.add_min_distr_r, !shl_align_shift. cbn [fst].
  change (Z.pos ?a + Z.pos ?b) with (Z.pos (a + b)). unfold binary_normalize.
  apply round_quadruple. lia.
Qed.

Lemma bounded_exponent m e :
  bounded F32.prec F32.emax m e = true ->
  -149 <= e <= 104 /\
  (digits2_pos m = 24%positive \/ e = -149 /\ Z.pos (digits2_pos m) < 24).
Proof.
  unfold bounded, canonical_mantissa. intros H. apply andb_prop in H as [Hc He].
  apply Z.eqb_eq in Hc. apply Z.leb_le in He.
  unfold fexp, emin, F32.prec, F32.emax in *.
  destruct (Z.eq_dec (Z.pos (digits2_pos m)) 24) as [E|E].
  - split; [lia|]. left. congruence.
  - split; [lia|]. right. lia.
Qed.

(** Four times a float of the format: the exponent moves, or, for a
    subnormal one, the mantissa is shifted instead. *)
Lemma mul_four_quadruple m e :
  bounded F32.prec F32.emax m e = true ->
  quadruple (F32.mul (S754_finite false m e) F32.four) (S754_finite false m e).
Proof.
  intros Hb. destruct (bounded_exponent m e Hb) as [He [Hd|[-> Hd]]].
  - left. cbn [scale4]. apply mul_four_normal; [exact Hd | lia].
  - right. split; [reflexivity|]. rewrite mul_four_round.
    destruct (Z.eq_dec (Z.pos (digits2_pos m)) 23) as [E|E].
    + left.
      assert (F2 : fexp F32.prec F32.emax (Z.pos (digits2_pos m) + (-149 + 2)) = -148)
        by (unfold fexp, emin, F32.prec, F32.emax; lia).
      rewrite binary_round_exact by (rewrite F2; lia).
      rewrite F2. reflexivity.
    + right.
      assert (F2 : fexp F32.prec F32.emax (Z.pos (digits2_pos m) + (-149 + 2)) = -149)
        by (unfold fexp, emin, F32.prec, F32.emax; lia).
      rewrite binary_round_exact by (rewrite F2; lia).
      rewrite F2. reflexivity.
Qed.

(** A finite quadruple stands for the float two exponents higher as an
    operand of an addition. *)
Lemma quadruple_operand p m e :
  quadruple p (S754_finite false m e) -> p <> S754_infinity false ->
  (exists m' e', p = S754_finite false m' e') /\
  (forall my ey, F32.add p (S754_finite false my ey)
                 = F32.add (S754_finite false m (e + 2)) (S754_finite false my ey)) /\
  (forall my ey, F32.add (S754_finite false my ey) p
                 = F32.add (S754_finite false my ey) (S754_finite false m (e + 2))).
Proof.
  intros [->|[-> [->| ->]]] Hp.
  - cbn [scale4] in *. destruct (e + 2 <=? 104); [|contradiction]. eauto.
  - split; [eauto|]. change (-148) with (-149 + 2 - 1).
    split; intros; [apply add_xO_l | apply add_xO_r].
  - split; [eauto|]. change (-149) with (-149 + 2 - 1 - 1) at 1 3.
    split; intros; [now rewrite !add_xO_l | now rewrite !add_xO_r].
Qed.

Lemma advanced_follows dt p x :
  quadruple (F32.add p (F32.mul dt F32.four)) x -> sign_ok x = true ->
  F32.ge (advanced dt p) F32.one = F32.ge x F32.quarter /\
  (F32.ge x F32.quarter = false -> quadruple (advanced dt p) x).
Proof.
  intros Raw Sg. pose proof (quadruple_ge _ _ Raw Sg) as G. unfold advanced.
  destruct (F32.gt (F32.add p (F32.mul dt F32.four)) F32.one) eqn:Gt.
  - apply gt_ge in Gt. rewrite G in Gt. rewrite Gt. split; [reflexivity | discriminate].
  - split; [exact G | intros _; exact Raw].
Qed.

Lemma nonnegative_finite sg m e :
  nonnegative (S754_finite sg m e) = true -> sg = false /\ bounded F32.prec F32.emax m e = true.
Proof.
  unfold nonnegative, F32.valid, valid_binary. rewrite andb_true_iff.
  intros [Hb Hs]. destruct sg; [discriminate | auto].
Qed.

(** One call: the progress is four times the running sum before and, unless
    it has reached [1.0f], after; for a step below a quarter the call
    completes the rotation exactly when the running sum reaches a quarter. *)
Lemma step_cumulative p c dt :
  quadruple p c -> sign_ok c = true -> exp_ok c -> F32.ge p F32.one = false ->
  nonnegative dt = true ->
  sign_ok (F32.add c dt) = true /\ exp_ok (F32.add c dt) /\
  (F32.ge (advanced dt p) F32.one = false ->
   quadruple (advanced dt p) (F32.add c dt) /\
   F32.ge (F32.add c dt) F32.quarter = false) /\
  (F32.lt dt F32.quarter = true ->
   F32.ge (advanced dt p) F32.one = F32.ge (F32.add c dt) F32.quarter).
Proof.
  intros Hp Hs Hx Hn Hdt.
  assert (Track : quadruple (F32.add p (F32.mul dt F32.four)) (F32.add c dt) ->
                  sign_ok (F32.add c dt) = true ->
                  (F32.ge (advanced dt p) F32.one = false ->
                   quadruple (advanced dt p) (F32.add c dt) /\
                   F32.ge (F32.add c dt) F32.quarter = false) /\
                  (F32.lt dt F32.quarter = true ->
                   F32.ge (advanced dt p) F32.one = F32.ge (F32.add c dt) F32.quarter)).
  { intros Raw Sg. destruct (advanced_follows dt p _ Raw Sg) as [Done Next].
    split; [|intros _; exact Done].
    intros Hd. rewrite Done in Hd. auto. }
  assert (Fin : forall m e, c = S754_finite false m e ->
                  p <> S754_infinity false).
  { intros m e -> ->. discriminate. }
  destruct c as [sc|sc| |sc mc ec]; try (destruct sc; [discriminate|]).
  - (* nothing accumulated yet *)
    destruct Hp as [->|[]]. cbn [scale4] in *.
    destruct dt as [sd|sd| |sd md ed]; try discriminate.
    + split; [destruct sd; reflexivity|]. split; [destruct sd; exact I|].
      apply Track; [left; destruct sd; reflexivity | destruct sd; reflexivity].
    + destruct sd; [discriminate|]. split; [reflexivity|]. split; [exact I|].
      split; [discriminate|]. discriminate.
    + destruct (nonnegative_finite _ _ _ Hdt) as [-> Hb].
      destruct (bounded_exponent md ed Hb) as [He _].
      split; [reflexivity|]. split; [cbn; lia|].
      apply Track; [|reflexivity].
      pose proof (mul_four_quadruple md ed Hb) as Q.
      replace (F32.add (S754_zero false) (F32.mul (S754_finite false md ed) F32.four))
        with (F32.mul (S754_finite false md ed) F32.four); [exact Q|].
      destruct Q as [->|[_ [->| ->]]]; try reflexivity.
      cbn [scale4]. destruct (ed + 2 <=? 104); reflexivity.
  - (* the sum is infinite: the progress has reached 1 *)
    destruct Hp as [->|[]]. discriminate.
  - (* the sum is not a number *)
    destruct Hp as [->|[]]. cbn [scale4] in *.
    destruct dt as [sd|sd| |sd md ed]; try discriminate;
      (split; [reflexivity|]); (split; [exact I|]);
      (apply Track; [left|]; reflexivity).
  - (* a positive sum *)
    destruct (quadruple_operand p mc ec Hp (Fin _ _ eq_refl)) as ((mp & ep & Ep) & OnLeft & _).
    destruct dt as [sd|sd| |sd md ed]; try discriminate.
    + split; [reflexivity|]. split; [exact Hx|].
      apply Track; [|reflexivity]. subst p. exact Hp.
    + destruct sd; [discriminate|]. split; [reflexivity|]. split; [exact I|].
      subst p. split; discriminate.
    + destruct (nonnegative_finite _ _ _ Hdt) as [-> Hb].
      destruct (bounded_exponent md ed Hb) as [He _].
      pose proof (add_nonneg_sign mc ec md ed) as Sg.
      split; [exact Sg|]. split; [apply add_exponent; [exact Hx | lia]|].
      pose proof (mul_four_quadruple md ed Hb) as Q.
      destruct (F32.mul (S754_finite false md ed) F32.four) as [sq|sq| |sq mq eq] eqn:Mul.
      * destruct Q as [Q|[_ [Q|Q]]]; try discriminate.
        cbn [scale4] in Q. destruct (ed + 2 <=? 104); discriminate.
      * (* four times the step overflows *)
        assert (Over : 104 < ed + 2).
        { destruct Q as [Q|[_ [Q|Q]]]; try discriminate.
          cbn [scale4] in Q. destruct (Z.leb_spec (ed + 2) 104); [discriminate | lia]. }
        assert (sq = false).
        { destruct Q as [Q|[_ [Q|Q]]]; try discriminate.
          cbn [scale4] in Q. destruct (ed + 2 <=? 104); congruence. }
        subst sq. split.
        -- unfold advanced. rewrite Mul, Ep. discriminate.
        -- intros Hq. apply lt_quarter_exponent in Hq. lia.
      * destruct Q as [Q|[_ [Q|Q]]]; try discriminate.
        cbn [scale4] in Q. destruct (ed + 2 <=? 104); discriminate.
      * apply Track; [|exact Sg].
        assert (sq = false).
        { destruct Q as [Q|[_ [Q|Q]]]; try congruence.
          cbn [scale4] in Q. destruct (ed + 2 <=? 104); congruence. }
        subst sq. rewrite <- Mul in Q.
        assert (Hq : F32.mul (S754_finite false md ed) F32.four <> S754_infinity false)
          by (rewrite Mul; discriminate).
        destruct (quadruple_operand _ md ed Q Hq) as (_ & _ & OnRight).
        rewrite Mul in OnRight. rewrite OnLeft, OnRight.
        apply add_quadruple; [exact Hx | lia].
Qed.

Lemma accumulate_cumulative dts : forall p c,
  quadruple p c -> sign_ok c = true -> exp_ok c -> F32.ge p F32.one = false ->
  Forall (fun dt => nonnegative dt = true) dts ->
  match accumulate dts p with
  | Some p' => F32.ge (fold_left F32.add dts c) F32.quarter = false
  | None => True
  end.
Proof.
  induction dts as [|dt dts IH]; intros p c Hp Hs Hx Hn Hall; cbn [accumulate fold_left].
  - now rewrite <- (quadruple_ge p c).
  - apply Forall_cons in Hall as [Hdt Hall].
    destruct (step_cumulative p c dt Hp Hs Hx Hn Hdt) as (Sg & Ex & Next & _).
    destruct (F32.ge (advanced dt p) F32.one) eqn:Q; [exact I|].
    destruct (Next eq_refl) as [Ep _]. apply IH; auto.
Qed.

(** Steps that are not negative and whose running binary32 sum is at least
    a quarter bring the accumulated progress to [1.0f]. *)
Lemma cumulative_commits dts :
  Forall (fun dt => nonnegative dt = true) dts ->
  F32.ge (cumulative dts) F32.quarter = true ->
  accumulate dts F32.zero = None.
Proof.
  intros Hall Hq.
  pose proof (accumulate_cumulative dts F32.zero F32.zero (or_introl eq_refl) eq_refl I
                eq_refl Hall) as H.
  destruct (accumulate dts F32.zero); [|reflexivity].
  unfold cumulative in Hq. congruence.
Qed.

(** ** A rotation over three distinct coordinates *)

Ltac lookups :=
  cbn [cells store]; rewrite ?lookup_insert;
  repeat (case_decide; try congruence); try reflexivity; try congruence.

Ltac same_map :=
  unfold store; cbn [cells rotation]; f_equal; apply map_eq; intros ?; lookups.

Section distinct.
Context (h0 h1 h2 : Hex).
Context (D : distinct h0 h1 h2).

Lemma startRotation_distinct g w c0 c1 c2 :
  cells g !! key h0 = Some c0 -> cells g !! key h1 = Some c1 ->
  cells g !! key h2 = Some c2 ->
  HexMap_startRotation (h0, h1, h2) g w =
  Normal (in_flight h0 h1 h2 (color c0) (color c1) (color c2)
            F32.zero F32.zero F32.zero (cells g), w).
Proof.
  destruct D as (N01 & N02 & N12). intros E0 E1 E2. unfold HexMap_startRotation.
  set (g0 := mkHexMap (cells g) (Some (h0, h1, h2))).
  rewrite (bind_Normal _ _ _ _ _ (cells_at_Some g0 w _ _ E0)).
  rewrite (bind_Normal _ _ _ _ _ (cells_at_Some g0 w _ _ E1)).
  rewrite (bind_Normal _ _ _ _ _ (cells_at_Some g0 w _ _ E2)).
  rewrite (bind_Normal _ _ _ _ _ (update_Some g0 w _ _ _ E1)).
  erewrite (bind_Normal _ _ _ _ _ (update_Some _ w (key h2) _ c2 _)).
  erewrite (update_Some _ w (key h0) _ c0 _).
  unfold in_flight, Cell_startRotation, g0. f_equal. f_equal. same_map.
  Unshelve. all: subst g0; lookups.
Qed.

Lemma stepRotation_in_flight dt col0 col1 col2 p0 p1 p2 rest w :
  HexMap_stepRotation dt (in_flight h0 h1 h2 col0 col1 col2 p0 p1 p2 rest) w =
  Normal (if F32.ge (advanced dt p0) F32.one && F32.ge (advanced dt p1) F32.one
             && F32.ge (advanced dt p2) F32.one
          then landed h0 h1 h2 col0 col1 col2 rest
          else in_flight h0 h1 h2 col0 col1 col2
                 (advanced dt p0) (advanced dt p1) (advanced dt p2) rest, w).
Proof.
  destruct D as (N01 & N02 & N12).
  set (g := in_flight h0 h1 h2 col0 col1 col2 p0 p1 p2 rest).
  assert (R : rotation g = Some (h0, h1, h2)) by reflexivity.
  unfold HexMap_stepRotation. rewrite R.
  assert (E0 : cells g !! key h0 = Some (mkCell (Some h2) p0 col0))
    by (subst g; unfold in_flight; lookups).
  assert (E1 : cells g !! key h1 = Some (mkCell (Some h0) p1 col1))
    by (subst g; unfold in_flight; lookups).
  assert (E2 : cells g !! key h2 = Some (mkCell (Some h1) p2 col2))
    by (subst g; unfold in_flight; lookups).
  rewrite (bind_Normal _ _ _ _ _ (cells_at_Some g w _ _ E0)).
  rewrite (bind_Normal _ _ _ _ _ (cells_at_Some g w _ _ E1)).
  rewrite (bind_Normal _ _ _ _ _ (cells_at_Some g w _ _ E2)).
  (* the three cells are stepped *)
  set (ga := in_flight h0 h1 h2 col0 col1 col2
               (advanced dt p0) (advanced dt p1) (advanced dt p2) rest).
  assert (A : advance_cells dt (key h0) (key h1) (key h2) g w = Normal (ga, w)).
  { unfold advance_cells.
    rewrite (bind_Normal _ _ _ _ _ (update_Some g w _ _ _ E0)).
    erewrite (bind_Normal _ _ _ _ _ (update_Some _ w (key h1) _ (mkCell (Some h0) p1 col1) _)).
    erewrite (update_Some _ w (key h2) _ (mkCell (Some h1) p2 col2) _).
    rewrite !stepRotation_pending. subst g ga. unfold in_flight. f_equal. f_equal.
    same_map.
    Unshelve. all: subst g; unfold in_flight; lookups. }
  rewrite (bind_Normal _ _ _ _ _ A).
  assert (A0 : cells ga !! key h0 = Some (mkCell (Some h2) (advanced dt p0) col0))
    by (subst ga; unfold in_flight; lookups).
  assert (A1 : cells ga !! key h1 = Some (mkCell (Some h0) (advanced dt p1) col1))
    by (subst ga; unfold in_flight; lookups).
  assert (A2 : cells ga !! key h2 = Some (mkCell (Some h1) (advanced dt p2) col2))
    by (subst ga; unfold in_flight; lookups).
  assert (B : all_done (key h0) (key h1) (key h2) ga w =
              Normal (F32.ge (advanced dt p0) F32.one && F32.ge (advanced dt p1) F32.one
                      && F32.ge (advanced dt p2) F32.one, w)).
  { unfold all_done.
    rewrite (bind_Normal _ _ _ _ _ (load_Some ga w _ _ A0)).
    rewrite (bind_Normal _ _ _ _ _ (load_Some ga w _ _ A1)).
    rewrite (bind_Normal _ _ _ _ _ (load_Some ga w _ _ A2)).
    reflexivity. }
  rewrite (bind_Normal _ _ _ _ _ B).
  destruct (F32.ge (advanced dt p0) F32.one && F32.ge (advanced dt p1) F32.one
            && F32.ge (advanced dt p2) F32.one); [|reflexivity].
  (* the commit: three swaps, three resets *)
  unfold commit.
  rewrite (bind_Normal _ _ _ _ _ (swap_with_target_Some ga w _ _ _ _ A0 eq_refl A2)).
  erewrite (bind_Normal _ _ _ _ _
              (swap_with_target_Some _ w (key h1) (mkCell (Some h0) (advanced dt p1) col1)
                 h0 (mkCell (Some h1) (advanced dt p2) col2) _ eq_refl _)).
  erewrite (bind_Normal _ _ _ _ _
              (swap_with_target_Some _ w (key h2) (mkCell (Some h2) (advanced dt p0) col0)
                 h2 (mkCell (Some h2) (advanced dt p0) col0) _ eq_refl _)).
  erewrite (bind_Normal _ _ _ _ _ (update_Some _ w (key h0) _ (mkCell (Some h0) (advanced dt p1) col1) _)).
  erewrite (bind_Normal _ _ _ _ _ (update_Some _ w (key h1) _ (mkCell (Some h1) (advanced dt p2) col2) _)).
  erewrite (bind_Normal _ _ _ _ _ (update_Some _ w (key h2) _ (mkCell (Some h2) (advanced dt p0) col0) _)).
  unfold ret, landed, Cell_resetRotation. cbn [color]. f_equal. f_equal.
  subst ga. unfold in_flight. same_map.
  Unshelve. all: subst ga; unfold in_flight; lookups.
Qed.

End distinct.

(** ** Runs of steps *)

Lemma stepRotations_idle dts g w :
  rotation g = None -> stepRotations dts g w = Normal (g, w).
Proof.
  intros R. induction dts as [|dt dts IH]; [reflexivity|].
  unfold stepRotations. cbn [foldM].
  rewrite (bind_Normal _ _ _ _ _ (stepRotation_idle dt g w R)). exact IH.
Qed.

Section runs.
Context (h0 h1 h2 : Hex).
Context (D : distinct h0 h1 h2).
Context (col0 col1 col2 : Color) (rest : gmap (Z * Z) Cell).

Lemma stepRotations_in_flight dts p w :
  stepRotations dts (in_flight h0 h1 h2 col0 col1 col2 p p p rest) w =
  Normal (match accumulate dts p with
          | Some p' => in_flight h0 h1 h2 col0 col1 col2 p' p' p' rest
          | None => landed h0 h1 h2 col0 col1 col2 rest
          end, w).
Proof.
  revert p. induction dts as [|dt dts IH]; intros p; [reflexivity|].
  unfold stepRotations. cbn [foldM accumulate].
  rewrite (bind_Normal _ _ _ _ _
             (stepRotation_in_flight h0 h1 h2 D dt col0 col1 col2 p p p rest w)).
  rewrite !andb_diag.
  destruct (F32.ge (advanced dt p) F32.one).
  - now apply stepRotations_idle.
  - apply IH.
Qed.

End runs.

Lemma commit_call_prefix dts p k :
  commit_call dts p = Some k ->
  (forall j, (j < k)%nat -> is_Some (accumulate (take j dts) p)) /\
  accumulate (take k dts) p = None.
Proof.
  revert p k. induction dts as [|dt dts IH]; intros p k; cbn [commit_call]; [discriminate|].
  destruct (F32.ge (advanced dt p) F32.one) eqn:E.
  - intros [= <-]. split.
    + intros j Hj. assert (j = 0%nat) by lia. subst j. cbn. eauto.
    + cbn. now rewrite E.
  - destruct (commit_call dts (advanced dt p)) as [k'|] eqn:C; [|discriminate].
    cbn. intros [= <-]. destruct (IH _ _ C) as [Hlt Hat]. split.
    + intros [|j] Hj; cbn; [eauto|]. rewrite E. apply Hlt. lia.
    + cbn. now rewrite E.
Qed.

(** ** The claims about the rotation *)

(** C3, as the code has it: on an idle grid that holds three pairwise
    distinct coordinates [h0], [h1], [h2], [startRotation] records
    [(h0, h1, h2)] as the descriptor, sets the target of the cell at [h1] to
    [h0], at [h2] to [h1] and at [h0] to [h2], resets the progress of the
    three cells to [0.0f] and takes the grid from idle to rotating; the
    colours stay where they are. *)
Theorem startRotation_records (g : HexMap) (h0 h1 h2 : Hex) (w : World) :
  rotation g = None -> distinct h0 h1 h2 ->
  is_Some (cells g !! key h0) -> is_Some (cells g !! key h1) ->
  is_Some (cells g !! key h2) ->
  exists g', HexMap_startRotation (h0, h1, h2) g w = Normal (g', w) /\
    rotation g' = Some (h0, h1, h2) /\
    target_at h1 g' = Some (Some h0) /\
    target_at h2 g' = Some (Some h1) /\
    target_at h0 g' = Some (Some h2) /\
    progress_at h0 g' = Some F32.zero /\
    progress_at h1 g' = Some F32.zero /\
    progress_at h2 g' = Some F32.zero /\
    HexMap_hasRotation g = false /\ HexMap_hasRotation g' = true /\
    (forall h, color_at h g' = color_at h g).
Proof.
  intros R D [c0 E0] [c1 E1] [c2 E2].
  eexists. split; [exact (startRotation_distinct h0 h1 h2 D g w c0 c1 c2 E0 E1 E2)|].
  destruct D as (N01 & N02 & N12).
  unfold target_at, progress_at, color_at, HexMap_hasRotation, in_flight.
  rewrite R. cbn [rotation].
  repeat (split; [solve [reflexivity | lookups]|]).
  intros h. cbn [cells]. rewrite !lookup_insert.
  repeat case_decide; try reflexivity.
  - rewrite <- H, E0. reflexivity.
  - rewrite <- H0, E1. reflexivity.
  - rewrite <- H1, E2. reflexivity.
Qed.

(** A rotation over three distinct coordinates, once the accumulated
    progress has reached [1.0f]. *)
Lemma rotation_commits_once_reached (g : HexMap) (h0 h1 h2 : Hex) (c0 c1 c2 : Cell)
    (dts : list float) (w : World) :
  distinct h0 h1 h2 ->
  cells g !! key h0 = Some c0 -> cells g !! key h1 = Some c1 ->
  cells g !! key h2 = Some c2 ->
  accumulate dts F32.zero = None ->
  rotate (h0, h1, h2) dts g w
  = Normal (landed h0 h1 h2 (color c0) (color c1) (color c2) (cells g), w).
Proof.
  intros D E0 E1 E2 A. unfold rotate.
  rewrite (bind_Normal _ _ _ _ _ (startRotation_distinct h0 h1 h2 D g w c0 c1 c2 E0 E1 E2)).
  now rewrite (stepRotations_in_flight h0 h1 h2 D), A.
Qed.

(** C1, as the code has it: [startRotation] on three pairwise distinct
    coordinates of an idle grid, followed by calls of [stepRotation] with
    cumulative [dt >= 0.25] (each step a binary32 value with [dt >= 0], the
    cumulative [dt] being their running binary32 sum in call order), leaves the grid idle again with the colour formerly at [h0] now
    at [h2], the one formerly at [h1] at [h0] and the one formerly at [h2]
    at [h1]; the three cells are at rest, every other cell and the set of
    keys are unchanged. *)
Theorem rotation_commits_cycle (g : HexMap) (h0 h1 h2 : Hex) (c0 c1 c2 : Cell)
    (dts : list float) (w : World) :
  rotation g = None -> distinct h0 h1 h2 ->
  cells g !! key h0 = Some c0 -> cells g !! key h1 = Some c1 ->
  cells g !! key h2 = Some c2 ->
  Forall (fun dt => nonnegative dt = true) dts ->
  F32.ge (cumulative dts) F32.quarter = true ->
  exists g', rotate (h0, h1, h2) dts g w = Normal (g', w) /\
    rotation g' = None /\
    color_at h2 g' = Some (color c0) /\
    color_at h0 g' = Some (color c1) /\
    color_at h1 g' = Some (color c2) /\
    target_at h0 g' = Some None /\ target_at h1 g' = Some None /\
    target_at h2 g' = Some None /\
    dom (cells g') = dom (cells g) /\
    (forall k, k <> key h0 -> k <> key h1 -> k <> key h2 ->
               cells g' !! k = cells g !! k).
Proof.
  intros R D E0 E1 E2 Hall Hq.
  pose proof (cumulative_commits dts Hall Hq) as A.
  exists (landed h0 h1 h2 (color c0) (color c1) (color c2) (cells g)).
  split; [now apply rotation_commits_once_reached|].
  destruct D as (N01 & N02 & N12).
  unfold color_at, target_at, landed. cbn [rotation cells].
  repeat (split; [solve [reflexivity | lookups]|]). split.
  - do 3 (rewrite dom_insert_lookup_L
            by (rewrite ?lookup_insert_ne by congruence; eauto)).
    reflexivity.
  - intros k K0 K1 K2. now rewrite !lookup_insert_ne by congruence.
Qed.

(** *** The commit, whatever the targets are *)

(** The slot holds a cell with a pending target. *)
Local Abbreviation armed k m :=
  (exists c : Cell, m !! k = Some c /\ is_Some (rotatingTo c)).

Lemma cells_index_inv h g w p g' w' :
  cells_index h g w = Normal ((p, g'), w') ->
  p = key h /\ rotation g' = rotation g /\ is_Some (cells g' !! key h) /\
  forall k, is_Some (cells g !! k) -> cells g' !! k = cells g !! k.
Proof.
  unfold cells_index. destruct (cells g !! key h) as [c|] eqn:E.
  - unfold ret. intros [= <- <- <-]. rewrite E. eauto.
  - unfold Cell_new, bind, ret. intros [= <- <- <-]. cbn [cells rotation].
    rewrite lookup_insert_eq. split; [reflexivity|]. split; [reflexivity|].
    split; [eauto|]. intros k [c Hc]. apply lookup_insert_ne. congruence.
Qed.

Lemma cells_index_Normal h g w :
  exists g' w', cells_index h g w = Normal ((key h, g'), w').
Proof.
  unfold cells_index. destruct (cells g !! key h); [eexists; eexists; reflexivity|].
  unfold Cell_new, bind, ret. eexists; eexists; reflexivity.
Qed.

(** A swap through a slot that holds a cell with a target ends normally; the
    other slots that held such a cell still do, and no key is lost. *)
Lemma swap_with_target_armed k g w :
  armed k (cells g) ->
  exists g' w', swap_with_target k g w = Normal (g', w') /\
    rotation g' = rotation g /\
    (forall k', k' <> k -> armed k' (cells g) -> armed k' (cells g')) /\
    (forall k', is_Some (cells g !! k') -> is_Some (cells g' !! k')).
Proof.
  intros (c & Hc & [t Ht]).
  destruct (cells_index_Normal t g w) as (g1 & w1 & E1).
  destruct (cells_index_inv _ _ _ _ _ _ E1) as (_ & R1 & [ct Hct] & Old).
  assert (Hc1 : cells g1 !! k = Some c) by (rewrite Old; eauto).
  exists (store (key t) c (store k ct g1)), w1. split; [|split; [|split]].
  - unfold swap_with_target. rewrite (bind_Normal _ _ _ _ _ (load_Some g w k c Hc)), Ht.
    rewrite (bind_Normal _ _ _ _ _ E1). cbn [fst snd].
    now apply swap_Some.
  - exact R1.
  - intros k' Nk (c' & Hc' & Ht'). rewrite !cells_store.
    destruct (decide (key t = k')) as [<-|Nt].
    + exists c. rewrite lookup_insert_eq. split; [reflexivity|]. rewrite Ht. eauto.
    + exists c'. rewrite !lookup_insert_ne by congruence.
      split; [|exact Ht']. rewrite Old; eauto.
  - intros k' Hk'. rewrite !cells_store.
    destruct (decide (key t = k')) as [<-|Nt]; [rewrite lookup_insert_eq; eauto|].
    rewrite lookup_insert_ne by congruence.
    destruct (decide (k = k')) as [<-|Nk]; [rewrite lookup_insert_eq; eauto|].
    rewrite lookup_insert_ne by congruence. now rewrite Old.
Qed.

Lemma reset_present k g w :
  is_Some (cells g !! k) ->
  exists g', update k Cell_resetRotation g w = Normal (g', w) /\
    rotation g' = rotation g /\
    (forall k', is_Some (cells g !! k') -> is_Some (cells g' !! k')).
Proof.
  intros [c Hc]. exists (store k (Cell_resetRotation c) g).
  split; [now apply update_Some|]. split; [reflexivity|].
  intros k' Hk'. rewrite cells_store.
  destruct (decide (k = k')) as [<-|N]; [rewrite lookup_insert_eq; eauto|].
  now rewrite lookup_insert_ne.
Qed.

(** The commit over three different slots that each hold a cell with a
    pending target ends normally and leaves the grid idle. *)
Lemma commit_armed k0 k1 k2 g w :
  k0 <> k1 -> k0 <> k2 -> k1 <> k2 ->
  armed k0 (cells g) -> armed k1 (cells g) -> armed k2 (cells g) ->
  exists g' w', commit k0 k1 k2 g w = Normal (g', w') /\ rotation g' = None.
Proof.
  intros N01 N02 N12 A0 A1 A2. unfold commit.
  destruct (swap_with_target_armed k0 g w A0) as (g1 & w1 & E1 & _ & K1 & P1).
  destruct (swap_with_target_armed k1 g1 w1) as (g2 & w2 & E2 & _ & K2 & P2);
    [apply K1; [congruence | exact A1]|].
  destruct (swap_with_target_armed k2 g2 w2) as (g3 & w3 & E3 & _ & _ & P3);
    [apply K2, K1; [congruence | congruence | exact A2]|].
  assert (Q : forall k, armed k (cells g) -> is_Some (cells g3 !! k)).
  { intros k (c & Hc & _). apply P3, P2, P1. eauto. }
  destruct (reset_present k0 g3 w3 (Q k0 A0)) as (g4 & E4 & _ & P4).
  destruct (reset_present k1 g4 w3 (P4 k1 (Q k1 A1))) as (g5 & E5 & _ & P5).
  destruct (reset_present k2 g5 w3 (P5 k2 (P4 k2 (Q k2 A2)))) as (g6 & E6 & _).
  exists (mkHexMap (cells g6) None), w3.
  rewrite (bind_Normal _ _ _ _ _ E1), (bind_Normal _ _ _ _ _ E2),
    (bind_Normal _ _ _ _ _ E3), (bind_Normal _ _ _ _ _ E4),
    (bind_Normal _ _ _ _ _ E5), (bind_Normal _ _ _ _ _ E6).
  split; reflexivity.
Qed.

Lemma stepRotation_idle_cell dt c : rotatingTo c = None -> Cell_stepRotation dt c = c.
Proof. intros H. unfold Cell_stepRotation. now rewrite H. Qed.

(** C2, as the code has it: on a grid whose descriptor names three pairwise
    distinct coordinates that are keys of the map, one call of
    [stepRotation] first replaces the progress [p] of each of the three
    cells that has a pending target by [p + dt * 4.0f], or by [1.0f] if
    that exceeds [1.0f], and leaves a cell without a target as it is.  It
    then commits exactly when each of the three cells is done (its progress
    is [>= 1.0f], or it has no pending target), and otherwise returns the
    advanced grid, still rotating.  The commit returns to idle in the same
    call provided each of the three cells has a pending target, which the
    commit dereferences; so does a call with [dt >= 0.25] on three cells
    freshly started at progress [0.0f]. *)
Theorem stepRotation_advances_then_commits (g : HexMap) (h0 h1 h2 : Hex)
    (c0 c1 c2 : Cell) (dt : float) (w : World) :
  rotation g = Some (h0, h1, h2) -> distinct h0 h1 h2 ->
  cells g !! key h0 = Some c0 -> cells g !! key h1 = Some c1 ->
  cells g !! key h2 = Some c2 ->
  let stepped c :=
    match rotatingTo c with
    | Some _ => mkCell (rotatingTo c) (advanced dt (rotationProgress c)) (color c)
    | None => c
    end in
  let done c :=
    match rotatingTo c with
    | Some _ => F32.ge (rotationProgress c) F32.one
    | None => true
    end in
  let all_three := done (stepped c0) && done (stepped c1) && done (stepped c2) in
  exists ga,
    advance_cells dt (key h0) (key h1) (key h2) g w = Normal (ga, w) /\
    rotation ga = Some (h0, h1, h2) /\
    cells ga !! key h0 = Some (stepped c0) /\
    cells ga !! key h1 = Some (stepped c1) /\
    cells ga !! key h2 = Some (stepped c2) /\
    (forall k, k <> key h0 -> k <> key h1 -> k <> key h2 ->
               cells ga !! k = cells g !! k) /\
    (forall p, F32.gt (advanced dt p) F32.one = false) /\
    (all_three = false -> HexMap_stepRotation dt g w = Normal (ga, w)) /\
    (all_three = true ->
     is_Some (rotatingTo c0) -> is_Some (rotatingTo c1) -> is_Some (rotatingTo c2) ->
     exists g' w', HexMap_stepRotation dt g w = Normal (g', w') /\ rotation g' = None) /\
    (F32.valid dt = true -> F32.ge dt F32.quarter = true ->
     is_Some (rotatingTo c0) -> is_Some (rotatingTo c1) -> is_Some (rotatingTo c2) ->
     rotationProgress c0 = F32.zero -> rotationProgress c1 = F32.zero ->
     rotationProgress c2 = F32.zero ->
     exists g' w', HexMap_stepRotation dt g w = Normal (g', w') /\ rotation g' = None).
Proof.
  intros R D E0 E1 E2 stepped done all_three.
  pose proof D as (N01 & N02 & N12).
  assert (St : forall c, Cell_stepRotation dt c = stepped c).
  { intros c. unfold Cell_stepRotation, stepped, advanced.
    destruct (rotatingTo c); reflexivity. }
  assert (Dn : forall c, Cell_rotationDone c = done c).
  { intros c. unfold Cell_rotationDone, done. destruct (rotatingTo c); reflexivity. }
  set (ga := store (key h2) (stepped c2)
               (store (key h1) (stepped c1) (store (key h0) (stepped c0) g))).
  assert (A : advance_cells dt (key h0) (key h1) (key h2) g w = Normal (ga, w)).
  { unfold advance_cells.
    rewrite (bind_Normal _ _ _ _ _ (update_Some g w _ _ _ E0)).
    erewrite (bind_Normal _ _ _ _ _ (update_Some _ w (key h1) _ c1 _)).
    erewrite (update_Some _ w (key h2) _ c2 _). rewrite !St. reflexivity.
    Unshelve. all: lookups. }
  assert (A0 : cells ga !! key h0 = Some (stepped c0)) by (subst ga; lookups).
  assert (A1 : cells ga !! key h1 = Some (stepped c1)) by (subst ga; lookups).
  assert (A2 : cells ga !! key h2 = Some (stepped c2)) by (subst ga; lookups).
  assert (B : all_done (key h0) (key h1) (key h2) ga w = Normal (all_three, w)).
  { unfold all_done.
    rewrite (bind_Normal _ _ _ _ _ (load_Some ga w _ _ A0)).
    rewrite (bind_Normal _ _ _ _ _ (load_Some ga w _ _ A1)).
    rewrite (bind_Normal _ _ _ _ _ (load_Some ga w _ _ A2)).
    unfold ret. now rewrite !Dn. }
  assert (S : HexMap_stepRotation dt g w =
              if all_three then commit (key h0) (key h1) (key h2) ga w
              else Normal (ga, w)).
  { unfold HexMap_stepRotation. rewrite R.
    rewrite (bind_Normal _ _ _ _ _ (cells_at_Some g w _ _ E0)).
    rewrite (bind_Normal _ _ _ _ _ (cells_at_Some g w _ _ E1)).
    rewrite (bind_Normal _ _ _ _ _ (cells_at_Some g w _ _ E2)).
    rewrite (bind_Normal _ _ _ _ _ A), (bind_Normal _ _ _ _ _ B).
    now destruct all_three. }
  assert (Keep : forall c, is_Some (rotatingTo c) -> is_Some (rotatingTo (stepped c))).
  { intros c [t Ht]. unfold stepped. rewrite Ht. cbn. eauto. }
  assert (C : all_three = true ->
              is_Some (rotatingTo c0) -> is_Some (rotatingTo c1) ->
              is_Some (rotatingTo c2) ->
              exists g' w', HexMap_stepRotation dt g w = Normal (g', w') /\
                            rotation g' = None).
  { intros Hall T0 T1 T2. rewrite S, Hall.
    apply commit_armed; eauto. }
  exists ga. split; [exact A|]. split; [exact R|].
  split; [exact A0|]. split; [exact A1|]. split; [exact A2|].
  split; [intros k K0 K1 K2; subst ga; lookups|].
  split; [apply advanced_le_one|].
  split; [intros Hall; now rewrite S, Hall|].
  split; [exact C|].
  intros Hv Hq [t0 T0] [t1 T1] [t2 T2] Z0 Z1 Z2. apply C; eauto.
  unfold all_three, done, stepped. rewrite T0, T1, T2. cbn [rotatingTo rotationProgress].
  rewrite Z0, Z1, Z2, (advanced_quarter dt Hv Hq). reflexivity.
Qed.

Lemma commit_call_calls_needed dt n : forall p c,
  quadruple p c -> sign_ok c = true -> exp_ok c -> F32.ge p F32.one = false ->
  nonnegative dt = true -> F32.lt dt F32.quarter = true ->
  commit_call (repeat dt n) p = calls_needed dt c n.
Proof.
  induction n as [|n IH]; intros p c Hp Hs Hx Hn Hdt Hq;
    cbn [repeat commit_call calls_needed]; [reflexivity|].
  destruct (step_cumulative p c dt Hp Hs Hx Hn Hdt) as (Sg & Ex & Next & Done).
  rewrite <- (Done Hq). destruct (F32.ge (advanced dt p) F32.one) eqn:Q; [reflexivity|].
  destruct (Next eq_refl) as [Ep _]. f_equal. apply IH; auto.
Qed.

Lemma commit_call_bound dt n : forall p k,
  commit_call (repeat dt n) p = Some k -> (k <= n)%nat.
Proof.
  induction n as [|n IH]; intros p k; cbn [repeat commit_call]; [discriminate|].
  destruct (F32.ge (advanced dt p) F32.one); [intros [= <-]; lia|].
  destruct (commit_call (repeat dt n) (advanced dt p)) eqn:E; [|discriminate].
  cbn. intros [= <-]. specialize (IH _ _ E). lia.
Qed.

Lemma commit_call_never dts : forall p,
  commit_call dts p = None -> forall j, is_Some (accumulate (take j dts) p).
Proof.
  induction dts as [|dt dts IH]; intros p C j.
  - rewrite take_nil. cbn. eauto.
  - cbn [commit_call] in C. destruct j as [|j]; [cbn; eauto|].
    cbn [take accumulate]. destruct (F32.ge (advanced dt p) F32.one); [discriminate|].
    apply IH. destruct (commit_call dts (advanced dt p)); [discriminate | reflexivity].
Qed.

Lemma accumulate_app_None dts dts' : forall p,
  accumulate dts p = None -> accumulate (dts ++ dts') p = None.
Proof.
  induction dts as [|dt dts IH]; intros p; cbn [accumulate app]; [discriminate|].
  destruct (F32.ge (advanced dt p) F32.one); [reflexivity | apply IH].
Qed.

Lemma take_repeat {A : Type} (x : A) n : forall j, (j <= n)%nat ->
  take j (repeat x n) = repeat x j.
Proof.
  induction n as [|n IH]; intros [|j] Hj; cbn; try reflexivity; try lia.
  f_equal. apply IH. lia.
Qed.

(** C5, as the code has it: on an idle grid [stepRotation] changes nothing,
    whatever [dt]; and from a rotation freshly started on three pairwise
    distinct coordinates, repeated calls [stepRotation(dt)] with
    [0 <= dt < 0.25] commit on exactly the
    [k]-th call, where [k] is the number of terms after which the running
    binary32 sum [dt + dt + ...] first reaches [0.25]: the grid is still
    rotating after every earlier call and idle after that one and the
    following; as long as the sum has not reached [0.25], the grid is still
    rotating. *)
Theorem repeated_steps_commit (g : HexMap) (h0 h1 h2 : Hex) (dt : float) (w : World) :
  distinct h0 h1 h2 ->
  is_Some (cells g !! key h0) -> is_Some (cells g !! key h1) ->
  is_Some (cells g !! key h2) ->
  nonnegative dt = true -> F32.lt dt F32.quarter = true ->
  (forall n,
     match calls_needed dt F32.zero n with
     | Some k =>
         (forall j, (j < k)%nat ->
            exists gj, rotate (h0, h1, h2) (repeat dt j) g w = Normal (gj, w) /\
                       rotation gj = Some (h0, h1, h2)) /\
         (forall j, (k <= j)%nat ->
            exists gj, rotate (h0, h1, h2) (repeat dt j) g w = Normal (gj, w) /\
                       rotation gj = None)
     | None =>
         forall j, (j <= n)%nat ->
           exists gj, rotate (h0, h1, h2) (repeat dt j) g w = Normal (gj, w) /\
                      rotation gj = Some (h0, h1, h2)
     end) /\
  (forall dt' gi wi, rotation gi = None ->
     HexMap_stepRotation dt' gi wi = Normal (gi, wi)).
Proof.
  intros D [c0 E0] [c1 E1] [c2 E2] Hdt Hq.
  assert (Run : forall j, rotate (h0, h1, h2) (repeat dt j) g w =
            Normal (match accumulate (repeat dt j) F32.zero with
                    | Some p' => in_flight h0 h1 h2 (color c0) (color c1) (color c2)
                                   p' p' p' (cells g)
                    | None => landed h0 h1 h2 (color c0) (color c1) (color c2) (cells g)
                    end, w)).
  { intros j. unfold rotate.
    rewrite (bind_Normal _ _ _ _ _ (startRotation_distinct h0 h1 h2 D g w c0 c1 c2 E0 E1 E2)).
    apply (stepRotations_in_flight h0 h1 h2 D). }
  split; [|intros dt' gi wi; apply stepRotation_idle].
  intros n.
  rewrite <- (commit_call_calls_needed dt n F32.zero F32.zero (or_introl eq_refl) eq_refl I
                eq_refl Hdt Hq).
  destruct (commit_call (repeat dt n) F32.zero) as [k|] eqn:C.
  - destruct (commit_call_prefix _ _ _ C) as [Hlt Hat].
    pose proof (commit_call_bound dt n _ _ C) as Kn.
    rewrite take_repeat in Hat by lia. split.
    + intros j Hj. eexists. split; [apply Run|].
      destruct (Hlt j Hj) as [p' Hp]. rewrite take_repeat in Hp by lia. now rewrite Hp.
    + intros j Hj. eexists. split; [apply Run|].
      replace j with (k + (j - k))%nat by lia.
      now rewrite repeat_app, (accumulate_app_None _ _ _ Hat).
  - intros j Hj. eexists. split; [apply Run|].
    destruct (commit_call_never _ _ C j) as [p' Hp].
    rewrite take_repeat in Hp by lia. now rewrite Hp.
Qed.

(** ** The claims on the sample grid *)

Lemma sample_distinct : distinct hexA hexB hexC.
Proof. repeat split; discriminate. Qed.

Lemma sample_reachable : reachable idle_cell sample_grid.
Proof.
  unfold sample_grid. repeat (apply reach_insert; [|reflexivity]).
  apply (reach_generate idle_cell (-1) sample_world HexMap_new sample_world).
  reflexivity.
Qed.

Lemma sample_start :
  HexMap_startRotation (hexA, hexB, hexC) sample_grid sample_world
  = Normal (sample_rotating, sample_world).
Proof.
  apply (startRotation_distinct hexA hexB hexC sample_distinct sample_grid sample_world
           (mkCell None S754_nan ORANGE) (mkCell None S754_nan MAROON)
           (mkCell None S754_nan LIME)); reflexivity.
Qed.

Lemma sample_rotating_reachable : reachable idle_cell sample_rotating.
Proof.
  apply (reach_start idle_cell hexA hexB hexC sample_grid sample_world
           sample_rotating sample_world sample_reachable);
    [reflexivity | eexists; reflexivity .. | exact sample_start].
Qed.

(** C8 at radius 2: 19 cells. *)
Lemma generateHexMap_radius_two :
  0 <= 2 /\
  exists g w', generateHexMap 2 sample_world = Normal (g, w') /\
               Z.of_nat (size (cells g)) = 19.
Proof.
  split; [lia|]. apply (generateHexMap_cell_count 2 sample_world). lia.
Defined.

(** C4 on the sample grid while it rotates. *)
Lemma rotation_invariant_sample :
  reachable idle_cell sample_rotating /\
  HexMap_hasRotation sample_rotating = true /\
  (forall h0 h1 h2, rotation sample_rotating = Some (h0, h1, h2) ->
     is_Some (cells sample_rotating !! key h0) /\
     is_Some (cells sample_rotating !! key h1) /\
     is_Some (cells sample_rotating !! key h2)) /\
  quiet_elsewhere sample_rotating.
Proof.
  split; [exact sample_rotating_reachable|].
  destruct (rotation_invariant idle_cell sample_rotating sample_rotating_reachable)
    as (_ & Keys & Quiet).
  split; [reflexivity|]. split; [exact Keys|]. apply Quiet. auto.
Defined.



(** C3 on the sample grid. *)
Lemma startRotation_records_sample :
  rotation sample_grid = None /\ distinct hexA hexB hexC /\
  exists g', HexMap_startRotation (hexA, hexB, hexC) sample_grid sample_world
             = Normal (g', sample_world) /\
    rotation g' = Some (hexA, hexB, hexC) /\
    target_at hexB g' = Some (Some hexA) /\
    target_at hexC g' = Some (Some hexB) /\
    target_at hexA g' = Some (Some hexC) /\
    progress_at hexA g' = Some F32.zero /\
    progress_at hexB g' = Some F32.zero /\
    progress_at hexC g' = Some F32.zero /\
    HexMap_hasRotation sample_grid = false /\ HexMap_hasRotation g' = true /\
    (forall h, color_at h g' = color_at h sample_grid).
Proof.
  split; [reflexivity|]. split; [exact sample_distinct|].
  apply (startRotation_records sample_grid hexA hexB hexC sample_world eq_refl
           sample_distinct); eexists; reflexivity.
Defined.

(** C3 as stated fails when a coordinate is repeated: in
    [startRotation([A, A, C])] the cell at [h1 = A] ends up heading for
    [h2 = C], the last write through the same reference, not for [h0 = A]. *)
Lemma startRotation_repeated_coordinate :
  is_Some (cells sample_grid !! key hexA) /\ is_Some (cells sample_grid !! key hexC) /\
  rotation sample_grid = None /\
  exists g', HexMap_startRotation (hexA, hexA, hexC) sample_grid sample_world
             = Normal (g', sample_world) /\
             target_at hexA g' = Some (Some hexC) /\
             target_at hexA g' <> Some (Some hexA).
Proof.
  split; [eexists; reflexivity|]. split; [eexists; reflexivity|]. split; [reflexivity|].
  eexists. split; [reflexivity|]. split; [reflexivity | discriminate].
Qed.

(** C1 on the sample grid, in 25 steps of [0.01f]. *)
Lemma rotation_commits_cycle_sample :
  rotation sample_grid = None /\ distinct hexA hexB hexC /\
  Forall (fun dt => nonnegative dt = true) (repeat centi 25) /\
  F32.ge (cumulative (repeat centi 25)) F32.quarter = true /\
  exists g', rotate (hexA, hexB, hexC) (repeat centi 25) sample_grid sample_world
             = Normal (g', sample_world) /\
    rotation g' = None /\
    color_at hexC g' = Some ORANGE /\
    color_at hexA g' = Some MAROON /\
    color_at hexB g' = Some LIME.
Proof.
  split; [reflexivity|]. split; [exact sample_distinct|].
  assert (O : Forall (fun dt => nonnegative dt = true) (repeat centi 25))
    by (cbn [repeat]; repeat constructor).
  assert (Q : F32.ge (cumulative (repeat centi 25)) F32.quarter = true)
    by (vm_compute; reflexivity).
  split; [exact O|]. split; [exact Q|].
  destruct (rotation_commits_cycle sample_grid hexA hexB hexC
              (mkCell None S754_nan ORANGE) (mkCell None S754_nan MAROON)
              (mkCell None S754_nan LIME) (repeat centi 25) sample_world
              eq_refl sample_distinct eq_refl eq_refl eq_refl O Q)
    as (g' & E & R & C2 & C0 & C1 & _).
  exists g'. auto.
Defined.

(** C1 as stated fails three times.  After a single step of [0.25] the grid
    is idle again, but the cell at [h1 = B] holds the colour that was at
    [h2 = C], not the one that was at [h0 = A]: the colours travel the way
    the targets point, [h0] to [h2] to [h1] to [h0].  Steps whose sizes add
    up to exactly [0.25] as real numbers need not commit: after
    [0.25 - 2^-26] the progress is the float just below [1.0f], and each
    further [2^-28] is rounded away, in the progress as in a running
    binary32 sum of the steps.  And steps of any sign need not commit even
    when their running binary32 sum is above [0.25]: after [-2^126] the
    progress is [-infinity], after [2^127] it is a NaN and stays one, while
    the sum of the two steps is [2^126]. *)
Lemma rotation_cycle_as_claimed_fails :
  (exists g', rotate (hexA, hexB, hexC) [F32.quarter] sample_grid sample_world
              = Normal (g', sample_world) /\
              rotation g' = None /\
              color_at hexA sample_grid = Some ORANGE /\
              color_at hexB g' = Some LIME /\
              color_at hexB g' <> color_at hexA sample_grid) /\
  ((1 # 4 <= total [below_quarter; tiny; tiny; tiny; tiny])%Q /\
   cumulative [below_quarter; tiny; tiny; tiny; tiny] = below_quarter /\
   exists g', rotate (hexA, hexB, hexC) [below_quarter; tiny; tiny; tiny; tiny]
                sample_grid sample_world = Normal (g', sample_world) /\
              rotation g' = Some (hexA, hexB, hexC)) /\
  (F32.ge (cumulative [minus_huge; huge]) F32.quarter = true /\
   exists g', rotate (hexA, hexB, hexC) [minus_huge; huge] sample_grid sample_world
              = Normal (g', sample_world) /\
              rotation g' = Some (hexA, hexB, hexC) /\
              progress_at hexA g' = Some S754_nan).
Proof.
  split; [|split].
  - eexists. split; [vm_compute; reflexivity|].
    split; [reflexivity|]. split; [reflexivity|]. split; [reflexivity | discriminate].
  - split; [vm_compute; discriminate|]. split; [vm_compute; reflexivity|].
    eexists. split; [vm_compute; reflexivity | reflexivity].
  - split; [vm_compute; reflexivity|].
    eexists. split; [vm_compute; reflexivity|]. split; reflexivity.
Qed.

(** C2 on the sample grid: one step of [0.25] from rest commits. *)
Lemma stepRotation_advances_then_commits_sample :
  rotation sample_rotating = Some (hexA, hexB, hexC) /\ distinct hexA hexB hexC /\
  exists ga g' w',
    advance_cells F32.quarter (key hexA) (key hexB) (key hexC) sample_rotating sample_world
    = Normal (ga, sample_world) /\
    progress_at hexA ga = Some F32.one /\ progress_at hexB ga = Some F32.one /\
    progress_at hexC ga = Some F32.one /\
    HexMap_stepRotation F32.quarter sample_rotating sample_world = Normal (g', w') /\
    rotation g' = None.
Proof.
  split; [reflexivity|]. split; [exact sample_distinct|].
  destruct (stepRotation_advances_then_commits sample_rotating hexA hexB hexC
              (mkCell (Some hexC) F32.zero ORANGE) (mkCell (Some hexA) F32.zero MAROON)
              (mkCell (Some hexB) F32.zero LIME) F32.quarter sample_world
              eq_refl sample_distinct eq_refl eq_refl eq_refl)
    as (ga & A & _ & P0 & P1 & P2 & _ & _ & _ & _ & Q).
  destruct Q as (g' & w' & S & R); try reflexivity; try (eexists; reflexivity).
  exists ga, g', w'. unfold progress_at. rewrite P0, P1, P2.
  split; [exact A|]. repeat (split; [reflexivity|]). split; [exact S | exact R].
Defined.

(** C2 as stated fails twice.  When a coordinate is repeated: after
    [startRotation([A, A, C])] the cell at [A] is stepped through two of the
    three references, so one call with [dt = 0.0625] takes its progress from
    [0] to [0.5], not to [dt * 4 = 0.25].  And when one of the three cells
    has no pending target: on [half_started] a call with [dt = 0.25] finds
    all three cells done, the cell at [B] for want of a target, and the
    commit dereferences that empty target instead of returning to idle. *)
Lemma stepRotation_advance_as_claimed_fails :
  (exists g1 g',
     HexMap_startRotation (hexA, hexA, hexC) sample_grid sample_world
     = Normal (g1, sample_world) /\
     reachable idle_cell g1 /\
     progress_at hexA g1 = Some F32.zero /\
     HexMap_stepRotation sixteenth g1 sample_world = Normal (g', sample_world) /\
     rotation g' = Some (hexA, hexA, hexC) /\
     advanced sixteenth F32.zero = F32.quarter /\
     progress_at hexA g' = Some half /\
     progress_at hexA g' <> Some (advanced sixteenth F32.zero)) /\
  (rotation half_started = Some (hexA, hexB, hexC) /\ distinct hexA hexB hexC /\
   target_at hexA half_started = Some (Some hexC) /\
   target_at hexB half_started = Some None /\
   target_at hexC half_started = Some (Some hexB) /\
   progress_at hexA half_started = Some F32.zero /\
   progress_at hexC half_started = Some F32.zero /\
   HexMap_stepRotation F32.quarter half_started sample_world = Undefined).
Proof.
  split.
  - eexists. eexists. split; [reflexivity|]. split.
    { apply (reach_start idle_cell hexA hexA hexC sample_grid sample_world _ sample_world
               sample_reachable); [reflexivity | eexists; reflexivity .. | reflexivity]. }
    split; [reflexivity|]. split; [vm_compute; reflexivity|].
    split; [reflexivity|]. split; [reflexivity|]. split; [reflexivity | discriminate].
  - split; [reflexivity|]. split; [exact sample_distinct|].
    repeat (split; [reflexivity|]). vm_compute. reflexivity.
Qed.

(** C5 on the sample grid with [dt = 0.01f]: the 25th call commits. *)
Lemma repeated_steps_commit_sample :
  distinct hexA hexB hexC /\ nonnegative centi = true /\
  F32.lt centi F32.quarter = true /\
  calls_needed centi F32.zero 25 = Some 25%nat /\
  (forall j, (j < 25)%nat ->
     exists gj, rotate (hexA, hexB, hexC) (repeat centi j) sample_grid sample_world
                = Normal (gj, sample_world) /\
                rotation gj = Some (hexA, hexB, hexC)) /\
  (forall j, (25 <= j)%nat ->
     exists gj, rotate (hexA, hexB, hexC) (repeat centi j) sample_grid sample_world
                = Normal (gj, sample_world) /\
                rotation gj = None).
Proof.
  split; [exact sample_distinct|]. split; [reflexivity|]. split; [reflexivity|].
  assert (C : calls_needed centi F32.zero 25 = Some 25%nat) by (vm_compute; reflexivity).
  split; [exact C|].
  destruct (repeated_steps_commit sample_grid hexA hexB hexC centi sample_world
              sample_distinct) as (Count & _);
    [eexists; reflexivity .. | reflexivity | reflexivity |].
  specialize (Count 25%nat). rewrite C in Count. exact Count.
Defined.

(** [centi] and [half_centi] are within half a unit in the last place of
    1/100 and 1/200. *)
Lemma centi_nearest :
  (Qabs (F32.to_Q centi - (1 # 100)) <= 1 # 2147483648)%Q /\
  (Qabs (F32.to_Q half_centi - (1 # 200)) <= 1 # 4294967296)%Q.
Proof. split; vm_compute; discriminate. Qed.

(** C5 as stated fails, however [ceil(0.25 / dt)] is read.  With
    [dt = 0.01f] the 25th call commits, but [dt] is slightly below 1/100 and
    [ceil(0.25 / dt)] is 26.  With [dt = 0.005f] the grid is still rotating
    after call 50, which is [ceil(0.25 / 0.005)] in decimal and also the
    quotient [0.25f / dt] as binary32 computes it; the 51st call commits.
    And when the rotation was started on a repeated coordinate, the one cell
    is stepped once per reference: with [dt = 0.0625] the second call
    commits, not the fourth. *)
Lemma ceil_call_count_fails :
  (exists g25, rotate (hexA, hexB, hexC) (repeat centi 25) sample_grid sample_world
               = Normal (g25, sample_world) /\ rotation g25 = None) /\
  Qceiling (F32.to_Q F32.quarter / F32.to_Q centi) = 26 /\
  (exists g50, rotate (hexA, hexB, hexC) (repeat half_centi 50) sample_grid sample_world
               = Normal (g50, sample_world) /\
               rotation g50 = Some (hexA, hexB, hexC)) /\
  (exists g51, rotate (hexA, hexB, hexC) (repeat half_centi 51) sample_grid sample_world
               = Normal (g51, sample_world) /\ rotation g51 = None) /\
  Qceiling ((1 # 4) / (1 # 200)) = 50 /\
  F32.div F32.quarter half_centi = fifty /\
  Qceiling (F32.to_Q fifty) = 50 /\
  (exists g2, rotate (hexA, hexA, hexA) [sixteenth; sixteenth] sample_grid sample_world
              = Normal (g2, sample_world) /\ rotation g2 = None) /\
  Qceiling (F32.to_Q F32.quarter / F32.to_Q sixteenth) = 4.
Proof.
  split; [eexists; split; [vm_compute; reflexivity | reflexivity]|].
  split; [vm_compute; reflexivity|].
  split; [eexists; split; [vm_compute; reflexivity | reflexivity]|].
  split; [eexists; split; [vm_compute; reflexivity | reflexivity]|].
  split; [vm_compute; reflexivity|].
  split; [vm_compute; reflexivity|].
  split; [vm_compute; reflexivity|].
  split; [eexists; split; [vm_compute; reflexivity | reflexivity]|].
  vm_compute; reflexivity.
Qed.

(** ** Arc interpolation with coinciding start and end *)

Lemma sub_diag_finite sg m e :
  F32.sub (S754_finite sg m e) (S754_finite sg m e) = F32.zero.
Proof.
  unfold F32.sub, SFsub. now rewrite Z.sub_diag.
Qed.

Lemma sub_diag_steady a : steady_angle a = true -> F32.sub a a = F32.zero.
Proof.
  destruct a as [[|]| | |sg m e]; try discriminate; intros _.
  - reflexivity.
  - apply sub_diag_finite.
Qed.

Lemma mul_zero_finite t :
  F32.is_finite t = true -> exists sg, F32.mul F32.zero t = S754_zero sg.
Proof. destruct t; try discriminate; intros _; cbn; eauto. Qed.

Lemma add_zero_steady a sg : steady_angle a = true -> F32.add a (S754_zero sg) = a.
Proof. destruct a as [[|]| | |? ? ?]; try discriminate; intros _; destruct sg; reflexivity. Qed.

(** The point [(1, 1)] about the origin, with an angle, a cosine and a
    sine that are the nearest floats. *)
Lemma rotatePoint_diagonal libm :
  atan2f libm F32.one F32.one = eighth_turn ->
  cosf libm eighth_turn = cos_eighth_turn ->
  sinf libm eighth_turn = cos_eighth_turn ->
  rotatePoint libm diagonal_point diagonal_point origin F32.zero
  = mkVector2 below_one below_one.
Proof.
  intros Ea Ec Es. unfold rotatePoint.
  change (Vector2Subtract diagonal_point origin) with diagonal_point.
  cbn [x y diagonal_point]. rewrite Ea.
  change (F32.sub eighth_turn eighth_turn) with F32.zero.
  change (F32.gt F32.zero F32.PI) with false.
  change (F32.lt F32.zero (F32.opp F32.PI)) with false. cbn iota.
  change (F32.add eighth_turn (F32.mul F32.zero F32.zero)) with eighth_turn.
  rewrite Ec, Es. vm_compute. reflexivity.
Qed.

(** With an infinite progress the interpolated angle is a NaN. *)
Lemma endless_progress_angle b :
  F32.add b
    (F32.mul (if F32.gt (F32.sub b b) F32.PI
              then F32.sub (F32.sub b b) (F32.mul F32.two F32.PI)
              else if F32.lt (F32.sub b b) (F32.opp F32.PI)
                   then F32.add (F32.sub b b) (F32.mul F32.two F32.PI)
                   else F32.sub b b) infinity)
  = S754_nan.
Proof.
  destruct b as [[|]|[|]| |sg m e]; try reflexivity.
  rewrite sub_diag_finite. reflexivity.
Qed.

(** C9, as the code has it: when start and end coincide, the progress is
    finite and [atan2f] gives a finite angle [a] other than [-0] for the
    start, [rotatePoint] returns the start rebuilt from its polar form about
    the pivot, [(pivot.x + cosf(a) * R, pivot.y + sinf(a) * R)] with [R] the
    distance from the pivot, whatever the progress is: the angle difference
    is exactly zero.  The result is the start itself when the two products
    give back the components of [start - pivot] and adding these to the
    pivot gives back the start. *)
Theorem rotatePoint_same_point (libm : Libm) (p pivot : Vector2) (t t' : float) :
  let rel := Vector2Subtract p pivot in
  let a := atan2f libm (y rel) (x rel) in
  let R := Vector2Length rel in
  F32.is_finite t = true -> F32.is_finite t' = true -> steady_angle a = true ->
  rotatePoint libm p p pivot t =
    mkVector2 (F32.add (x pivot) (F32.mul (cosf libm a) R))
              (F32.add (y pivot) (F32.mul (sinf libm a) R)) /\
  rotatePoint libm p p pivot t' = rotatePoint libm p p pivot t /\
  (F32.mul (cosf libm a) R = x rel -> F32.mul (sinf libm a) R = y rel ->
   F32.add (x pivot) (x rel) = x p -> F32.add (y pivot) (y rel) = y p ->
   rotatePoint libm p p pivot t = p).
Proof.
  intros rel a R Ht Ht' Ha.
  assert (E : forall u, F32.is_finite u = true ->
            rotatePoint libm p p pivot u =
            mkVector2 (F32.add (x pivot) (F32.mul (cosf libm a) R))
                      (F32.add (y pivot) (F32.mul (sinf libm a) R))).
  { intros u Hu. unfold rotatePoint. fold rel. fold a. fold R.
    rewrite (sub_diag_steady a Ha).
    change (F32.gt F32.zero F32.PI) with false.
    change (F32.lt F32.zero (F32.opp F32.PI)) with false. cbn iota.
    destruct (mul_zero_finite u Hu) as [sg ->].
    now rewrite (add_zero_steady a sg Ha). }
  split; [now apply E|]. split; [now rewrite !E|].
  intros Ex Ey Px Py. rewrite E, Ex, Ey, Px, Py by assumption. now destruct p.
Qed.

(** C9 on the x axis: the point [(1, 0)] about the origin, half way and at
    the start. *)
Lemma rotatePoint_same_point_axis :
  F32.is_finite half = true /\ F32.is_finite F32.zero = true /\
  steady_angle (atan2f axis_libm F32.zero F32.one) = true /\
  rotatePoint axis_libm (mkVector2 F32.one F32.zero) (mkVector2 F32.one F32.zero)
    origin F32.zero
  = rotatePoint axis_libm (mkVector2 F32.one F32.zero) (mkVector2 F32.one F32.zero)
      origin half /\
  rotatePoint axis_libm (mkVector2 F32.one F32.zero) (mkVector2 F32.one F32.zero)
    origin half = mkVector2 F32.one F32.zero.
Proof.
  split; [reflexivity|]. split; [reflexivity|]. split; [reflexivity|].
  destruct (rotatePoint_same_point axis_libm (mkVector2 F32.one F32.zero) origin
              half F32.zero eq_refl eq_refl eq_refl) as (_ & Same & Exact).
  split; [exact Same|]. apply Exact; reflexivity.
Defined.

(** C9 as stated fails.  Whatever [atan2f], [cosf] and [sinf] return: for
    the point [(2^127, 0)] and the pivot [(0, 0)] the squared distance
    overflows, the radius is infinite and the x coordinate of the result is
    an infinity or a NaN; for the point [(2^-100, 0)] the squared distance
    underflows, the radius is zero and the x coordinate of the result is a
    zero or a NaN.  With functions that return the floats nearest to the
    true values: for the point [(1, 1)] and the pivot [(0, 0)] the radius is
    the float nearest to the square root of 2, and the product of the
    cosine with it rounds to the float just below [1.0f].  And with a
    progress that is not finite the angle is a NaN: where the cosine of a
    NaN is one, so is the x coordinate of the result. *)
Lemma rotatePoint_same_point_not_exact :
  ~ (exists libm, rotatePoint libm far_point far_point origin F32.zero = far_point) /\
  ~ (exists libm, rotatePoint libm near_point near_point origin F32.zero = near_point) /\
  ~ (exists libm,
       atan2f libm F32.one F32.one = eighth_turn /\
       cosf libm eighth_turn = cos_eighth_turn /\
       sinf libm eighth_turn = cos_eighth_turn /\
       rotatePoint libm diagonal_point diagonal_point origin F32.zero
       <> mkVector2 below_one below_one) /\
  mkVector2 below_one below_one <> diagonal_point /\
  ~ (exists libm,
       cosf libm S754_nan = S754_nan /\
       rotatePoint libm diagonal_point diagonal_point origin infinity = diagonal_point).
Proof.
  split; [|split; [|split; [|split]]].
  - intros [libm H]. apply (f_equal x) in H.
    unfold rotatePoint in H; cbn [x] in H.
    match type of H with
    | F32.add _ (F32.mul (cosf libm ?a) ?r) = _ =>
        generalize dependent (cosf libm a); intros c;
        let r' := eval vm_compute in r in change r with r'
    end.
    destruct c as [[|]|[|]| |[|] ? ?]; discriminate.
  - intros [libm H]. apply (f_equal x) in H.
    unfold rotatePoint in H; cbn [x] in H.
    match type of H with
    | F32.add _ (F32.mul (cosf libm ?a) ?r) = _ =>
        generalize dependent (cosf libm a); intros c;
        let r' := eval vm_compute in r in change r with r'
    end.
    destruct c as [[|]|[|]| |[|] ? ?]; discriminate.
  - intros (libm & Ea & Ec & Es & H). apply H. clear H.
    destruct (rotatePoint_diagonal libm Ea Ec Es). reflexivity.
  - discriminate.
  - intros (libm & Ec & H). apply (f_equal x) in H.
    unfold rotatePoint in H; cbn [x] in H.
    rewrite endless_progress_angle, Ec in H. discriminate.
Qed.

(* ===================================================================== *)
(** * Further properties of the program *)
(* ===================================================================== *)

(** ** Arithmetic of the coordinates *)

Lemma hexLength_half (h : Hex) :
  Hex_valid h -> 2 * hexLength h = Z.abs (q h) + Z.abs (r h) + Z.abs (s h).
Proof.
  unfold Hex_valid, hexLength. intros H.
  rewrite Z.quot_div_nonneg by lia.
  assert (E : exists k, Z.abs (q h) + Z.abs (r h) + Z.abs (s h) = 2 * k).
  { destruct (Z.abs_spec (q h)) as [[_ ->]|[_ ->]];
    destruct (Z.abs_spec (r h)) as [[_ ->]|[_ ->]];
    destruct (Z.abs_spec (s h)) as [[_ ->]|[_ ->]].
    - exists 0. lia.
    - exists (- s h). lia.
    - exists (- r h). lia.
    - exists (q h). lia.
    - exists (- q h). lia.
    - exists (r h). lia.
    - exists (s h). lia.
    - exists 0. lia. }
  destruct E as [k ->]. rewrite (Z.mul_comm 2 k), Z.div_mul by lia. lia.
Qed.

Lemma hexSubtract_valid (a b : Hex) :
  Hex_valid a -> Hex_valid b -> Hex_valid (hexSubtract a b).
Proof. unfold Hex_valid, hexSubtract. simpl. lia. Qed.

Lemma hexMultiply_valid (a : Hex) (k : Z) : Hex_valid a -> Hex_valid (hexMultiply a k).
Proof. unfold Hex_valid, hexMultiply. simpl. nia. Qed.

(** The assertion of the [Hex] constructor holds for the six direction
    vectors, and for whatever [hexAdd], [hexSubtract], [hexMultiply] and
    [hexNeighbour] build from coordinates for which it holds. *)
Theorem hex_operations_keep_constraint (a b : Hex) (k : Z) (d : HexDirection) :
  Hex_valid a -> Hex_valid b ->
  Hex_valid (hexAdd a b) /\ Hex_valid (hexSubtract a b) /\
  Hex_valid (hexMultiply a k) /\ Hex_valid (hexDirection d) /\
  Hex_valid (hexNeighbour a d).
Proof.
  intros Ha Hb.
  split; [now apply hexAdd_valid|].
  split; [now apply hexSubtract_valid|].
  split; [now apply hexMultiply_valid|].
  split; [apply hexDirection_valid | now apply hexNeighbour_valid].
Qed.



(** The six neighbours of a coordinate are the coordinates at distance 1
    from it. *)
Theorem neighbours_are_at_distance_one (a b : Hex) :
  Hex_valid a -> Hex_valid b ->
  (hexDistance a b = 1 <-> exists d, b = hexNeighbour a d).
Proof.
  intros Ha Hb. split.
  - intros E. unfold hexDistance in E.
    pose proof (hexLength_half _ (hexSubtract_valid a b Ha Hb)) as H.
    rewrite E in H. unfold Hex_valid in Ha, Hb.
    unfold hexSubtract in H. cbn [q r s] in H.
    destruct a as [qa ra sa], b as [qb rb sb]. cbn [q r s] in *.
    assert (C : (qb = qa + 1 /\ rb = ra) \/ (qb = qa + 1 /\ rb = ra - 1) \/
                (qb = qa /\ rb = ra - 1) \/ (qb = qa - 1 /\ rb = ra) \/
                (qb = qa - 1 /\ rb = ra + 1) \/ (qb = qa /\ rb = ra + 1)) by lia.
    destruct C as [[-> ->]|[[-> ->]|[[-> ->]|[[-> ->]|[[-> ->]|[-> ->]]]]]];
      [exists East | exists SouthEast | exists SouthWest
      | exists West | exists NorthWest | exists NorthEast];
      unfold hexNeighbour, hexAdd; cbn; f_equal; lia.
  - intros [d ->]. unfold hexDistance, hexLength, hexSubtract, hexNeighbour, hexAdd.
    cbn [q r s].
    replace (q a - (q a + q (hexDirection d))) with (- q (hexDirection d)) by lia.
    replace (r a - (r a + r (hexDirection d))) with (- r (hexDirection d)) by lia.
    replace (s a - (s a + s (hexDirection d))) with (- s (hexDirection d)) by lia.
    destruct d; reflexivity.
Qed.


(** The constraint on what is built from two corners of the sample triangle. *)
Lemma hex_operations_keep_constraint_sample :
  Hex_valid hexB /\ Hex_valid hexC /\
  Hex_valid (hexAdd hexB hexC) /\ Hex_valid (hexSubtract hexB hexC) /\
  Hex_valid (hexMultiply hexB 3) /\ Hex_valid (hexDirection East) /\
  Hex_valid (hexNeighbour hexB East).
Proof.
  split; [reflexivity|]. split; [reflexivity|].
  apply (hex_operations_keep_constraint hexB hexC 3 East); reflexivity.
Defined.



(** [B] is a neighbour of [A]. *)
Lemma neighbours_are_at_distance_one_sample :
  Hex_valid hexA /\ Hex_valid hexB /\
  (hexDistance hexA hexB = 1 <-> exists d, hexB = hexNeighbour hexA d).
Proof.
  split; [reflexivity|]. split; [reflexivity|].
  apply neighbours_are_at_distance_one; reflexivity.
Defined.


(** ** The hash of a coordinate *)

Lemma lxor_size_t a b : 0 <= a < 2 ^ 64 -> 0 <= b < 2 ^ 64 -> 0 <= Z.lxor a b < 2 ^ 64.
Proof.
  intros Ha Hb.
  assert (N : 0 <= Z.lxor a b) by (apply Z.lxor_nonneg; lia).
  split; [exact N|].
  destruct (Z.eq_dec (Z.lxor a b) 0) as [->|P]; [reflexivity|].
  apply Z.log2_lt_pow2; [lia|].
  pose proof (Z.log2_lxor a b ltac:(lia) ltac:(lia)) as L.
  assert (La : Z.log2 a < 64).
  { destruct (Z.eq_dec a 0) as [->|]; [reflexivity|]. apply Z.log2_lt_pow2; lia. }
  assert (Lb : Z.log2 b < 64).
  { destruct (Z.eq_dec b 0) as [->|]; [reflexivity|]. apply Z.log2_lt_pow2; lia. }
  lia.
Qed.

(** The hash fits the equality of the coordinates, as [std::unordered_map]
    needs it to: two coordinates that [operator==] takes for equal, which
    compares [q] and [r] only, have the same hash, whatever [std::hash<int>]
    is; and the hash is a [size_t] value when those of [std::hash<int>]
    are. *)
Theorem Hex_hash_respects_equality (int_hash : Z -> Z) (a b : Hex) :
  (Hex_eqb a b = true -> Hex_hash int_hash a = Hex_hash int_hash b) /\
  ((forall z, 0 <= int_hash z < 2 ^ 64) -> 0 <= Hex_hash int_hash a < 2 ^ 64).
Proof.
  split.
  - unfold Hex_eqb, Hex_hash. rewrite andb_true_iff, !Z.eqb_eq. now intros [-> ->].
  - intros H. unfold Hex_hash. apply lxor_size_t; [apply H|].
    unfold size_t. apply Z.mod_pos_bound. reflexivity.
Qed.

(** ** Reading an outcome backwards *)

Lemma bind_inv {A B : Type} (c : M A) (k : A -> M B) w r :
  bind c k w = Normal r -> exists a w1, c w = Normal (a, w1) /\ k a w1 = Normal r.
Proof.
  unfold bind. destruct (c w) as [[a w1]| |]; [eauto | discriminate | discriminate].
Qed.

Lemma load_inv p g w c w' :
  load p g w = Normal (c, w') -> cells g !! p = Some c /\ w' = w.
Proof.
  unfold load. destruct (cells g !! p); [|discriminate].
  unfold ret. intros [= -> ->]. auto.
Qed.

Lemma update_inv p f g w g' w' :
  update p f g w = Normal (g', w') ->
  exists c, cells g !! p = Some c /\ g' = store p (f c) g /\ w' = w.
Proof.
  unfold update. intros H. apply bind_inv in H as (c & w1 & L & H).
  apply load_inv in L as [L ->]. unfold ret in H. injection H as <- <-. eauto.
Qed.

(** ** More on the cursor *)

Lemma move_new (d : HexDirection) (T : Hex) :
  Cursor_move d (Cursor_new T) = Cursor_new (hexNeighbour T d).
Proof.
  unfold Cursor_move, Cursor_new, hexNeighbour, hexAdd. cbn [hexes q r s].
  f_equal. f_equal; [f_equal|]; f_equal; lia.
Qed.

Lemma apply_new (m : Motion) (T : Hex) :
  exists T', Cursor_apply m (Cursor_new T) = Cursor_new T' /\
             (Hex_valid T -> Hex_valid T').
Proof.
  destruct m; cbn [Cursor_apply];
    rewrite ?moveUp_unfold, ?moveDown_unfold;
    unfold Cursor_moveLeft, Cursor_moveRight;
    try destruct (Z.even _);
    rewrite move_new; eexists; (split; [reflexivity | apply hexNeighbour_valid]).
Qed.

Lemma path_new (ms : list Motion) (T : Hex) :
  exists T', Cursor_path ms (Cursor_new T) = Cursor_new T' /\
             (Hex_valid T -> Hex_valid T').
Proof.
  revert T. induction ms as [|m ms IH]; intros T.
  - exists T. split; [reflexivity | auto].
  - destruct (apply_new m T) as (T1 & E1 & V1).
    destruct (IH T1) as (T2 & E2 & V2).
    exists T2. unfold Cursor_path in *. cbn [foldl]. rewrite E1. auto.
Qed.

Lemma cursor_triangle_valid (ms : list Motion) (T : Hex) :
  Hex_valid T ->
  let '(h0, h1, h2) := hexes (Cursor_path ms (Cursor_new T)) in
  Hex_valid h0 /\ Hex_valid h1 /\ Hex_valid h2.
Proof.
  intros H. destruct (path_new ms T) as (T' & -> & V). specialize (V H).
  cbn [Cursor_new hexes]. unfold Hex_valid in *. cbn [hexNeighbour hexAdd q r s].
  cbn. lia.
Qed.

(** Whatever motions the cursor built on a top coordinate goes through, it
    stays the same triangle: its second and third coordinates are the
    NorthWest and NorthEast neighbours of its first, the three are different
    keys, each is at distance 1 from the two others, and they satisfy
    [q + r + s = 0] when the top coordinate it was built on does. *)
Theorem cursor_keeps_triangle (topHex : Hex) (ms : list Motion) :
  let '(h0, h1, h2) := hexes (Cursor_path ms (Cursor_new topHex)) in
  h1 = hexNeighbour h0 NorthWest /\ h2 = hexNeighbour h0 NorthEast /\
  distinct h0 h1 h2 /\
  hexDistance h0 h1 = 1 /\ hexDistance h0 h2 = 1 /\ hexDistance h1 h2 = 1 /\
  (Hex_valid topHex -> Hex_valid h0 /\ Hex_valid h1 /\ Hex_valid h2).
Proof.
  destruct (path_new ms topHex) as (T & -> & V). cbn [Cursor_new hexes].
  split; [reflexivity|]. split; [reflexivity|].
  split; [exact (Cursor_new_distinct T)|].
  unfold hexDistance, hexLength, hexSubtract, hexNeighbour, hexAdd. cbn.
  replace (q T - (q T + -1)) with 1 by lia.
  replace (r T - (r T + 1)) with (-1) by lia.
  replace (s T - (s T + 0)) with 0 by lia.
  replace (q T - (q T + 0)) with 0 by lia.
  replace (s T - (s T + -1)) with 1 by lia.
  replace (q T + -1 - (q T + 0)) with (-1) by lia.
  replace (r T + 1 - (r T + 1)) with 0 by lia.
  replace (s T + 0 - (s T + -1)) with 1 by lia.
  repeat (split; [reflexivity|]).
  intros H. specialize (V H).
  unfold Hex_valid in *. cbn [q r s]. lia.
Qed.

(** [moveLeft] and [moveRight] undo each other. *)
Theorem cursor_left_right_roundtrip (c : Cursor) :
  Cursor_moveLeft (Cursor_moveRight c) = c /\ Cursor_moveRight (Cursor_moveLeft c) = c.
Proof.
  unfold Cursor_moveLeft, Cursor_moveRight. split; apply move_move; reflexivity.
Qed.

Lemma move_comm (d e : HexDirection) (c : Cursor) :
  Cursor_move d (Cursor_move e c) = Cursor_move e (Cursor_move d c).
Proof.
  destruct c as [[[a b] c]]. unfold Cursor_move, hexNeighbour, hexAdd.
  cbn [hexes q r s]. f_equal. f_equal; [f_equal|]; f_equal; lia.
Qed.

(** A horizontal and a vertical motion lead to the same place in either
    order: [moveLeft] and [moveRight] stay on the row, whose parity is all
    that [moveUp] and [moveDown] look at. *)
Theorem cursor_moves_commute (c : Cursor) :
  Cursor_moveUp (Cursor_moveLeft c) = Cursor_moveLeft (Cursor_moveUp c) /\
  Cursor_moveUp (Cursor_moveRight c) = Cursor_moveRight (Cursor_moveUp c) /\
  Cursor_moveDown (Cursor_moveLeft c) = Cursor_moveLeft (Cursor_moveDown c) /\
  Cursor_moveDown (Cursor_moveRight c) = Cursor_moveRight (Cursor_moveDown c).
Proof.
  unfold Cursor_moveLeft, Cursor_moveRight.
  rewrite !moveUp_unfold, !moveDown_unfold, !move_top_r.
  cbn [hexDirection hex_directions direction_index nth r]. rewrite !Z.add_0_r.
  destruct (Z.even (r (fst (fst (hexes c))))); repeat split; apply move_comm.
Qed.

(** Two [moveUp] in a row take the cursor two rows straight up, each
    coordinate by [(1, -2, 1)], and two [moveDown] two rows straight down,
    by [(-1, 2, -1)], whatever the parity of the row it starts from. *)
Theorem cursor_two_rows (c : Cursor) :
  let '(h0, h1, h2) := hexes c in
  Cursor_moveUp (Cursor_moveUp c) =
    mkCursor (mkHex (q h0 + 1) (r h0 - 2) (s h0 + 1),
              mkHex (q h1 + 1) (r h1 - 2) (s h1 + 1),
              mkHex (q h2 + 1) (r h2 - 2) (s h2 + 1)) /\
  Cursor_moveDown (Cursor_moveDown c) =
    mkCursor (mkHex (q h0 - 1) (r h0 + 2) (s h0 - 1),
              mkHex (q h1 - 1) (r h1 + 2) (s h1 - 1),
              mkHex (q h2 - 1) (r h2 + 2) (s h2 - 1)).
Proof.
  rewrite !moveUp_unfold, !moveDown_unfold.
  destruct c as [[[a b] c]]. cbn [hexes fst].
  destruct (Z.even (r a)) eqn:E;
    rewrite !move_top_r; cbn [hexDirection hex_directions direction_index nth r hexes fst];
    rewrite !Z.even_add, E; cbn [Z.even xorb negb Bool.eqb];
    unfold Cursor_move, hexNeighbour, hexAdd; cbn [hexes q r s hexDirection hex_directions
                                                   direction_index nth];
    split; (f_equal; f_equal; [f_equal|]; f_equal; lia).
Qed.

(** ** The map interface: [insert], [at], and how [startRotation] ends *)

(** [insert] followed by [at] on the same coordinate gives the inserted
    cell when the coordinate was free and the cell that was there when it
    was taken ([emplace] does not overwrite); [at] on the other coordinates
    and the rotation descriptor are as before. *)
Theorem insert_then_at (hex : Hex) (cell : Cell) (g : HexMap) (w : World) :
  HexMap_at hex (HexMap_insert hex cell g) w =
    Normal (default cell (cells g !! key hex), w) /\
  (forall h, key h <> key hex ->
     HexMap_at h (HexMap_insert hex cell g) w = HexMap_at h g w) /\
  rotation (HexMap_insert hex cell g) = rotation g.
Proof.
  split; [|split; [|apply insert_rotation]].
  - unfold HexMap_at, HexMap_insert.
    destruct (cells g !! key hex) as [c|] eqn:E; cbn [default].
    + rewrite (bind_Normal _ _ _ _ _ (cells_at_Some g w _ _ E)).
      now apply load_Some.
    + assert (E' : cells (mkHexMap (<[key hex := cell]> (cells g)) (rotation g))
                     !! key hex = Some cell) by apply lookup_insert_eq.
      rewrite (bind_Normal _ _ _ _ _ (cells_at_Some _ w _ _ E')).
      now apply load_Some.
  - intros h N. unfold HexMap_at, HexMap_insert, cells_at, load, bind, ret.
    destruct (cells g !! key hex) as [c|] eqn:E; [reflexivity|].
    cbn [cells]. rewrite lookup_insert_ne by congruence.
    destruct (cells g !! key h) eqn:E'; [|reflexivity].
    now rewrite lookup_insert_ne, E' by congruence.
Qed.


Lemma update_colour p f g w g' w' :
  (forall c, color (f c) = color c) ->
  update p f g w = Normal (g', w') ->
  w' = w /\ rotation g' = rotation g /\ colour_map g' = colour_map g.
Proof.
  intros Hf H. apply update_inv in H as (c & E & -> & ->).
  split; [reflexivity|]. split; [reflexivity|].
  unfold colour_map. rewrite cells_store, fmap_insert, Hf.
  apply insert_id. now rewrite lookup_fmap, E.
Qed.

Lemma startRotation_colour_map g h0 h1 h2 w g' w' :
  HexMap_startRotation (h0, h1, h2) g w = Normal (g', w') ->
  colour_map g' = colour_map g.
Proof.
  intros E. unfold HexMap_startRotation in E.
  apply bind_inv in E as (p0 & w0 & _ & E).
  apply bind_inv in E as (p1 & w1 & _ & E).
  apply bind_inv in E as (p2 & w2 & _ & E).
  apply bind_inv in E as (ga & wa & Ua & E).
  apply bind_inv in E as (gb & wb & Ub & Uc).
  apply update_colour in Ua as (_ & _ & Ca); [|reflexivity].
  apply update_colour in Ub as (_ & _ & Cb); [|reflexivity].
  apply update_colour in Uc as (_ & _ & Cc); [|reflexivity].
  rewrite Cc, Cb, Ca. reflexivity.
Qed.

Lemma startRotation_absent g h0 h1 h2 w :
  cells g !! key h0 = None \/ cells g !! key h1 = None \/ cells g !! key h2 = None ->
  HexMap_startRotation (h0, h1, h2) g w = OutOfRange.
Proof.
  intros H. unfold HexMap_startRotation, cells_at, bind, ret, throw_out_of_range.
  cbn [cells].
  destruct (cells g !! key h0); [|reflexivity].
  destruct (cells g !! key h1); [|reflexivity].
  destruct (cells g !! key h2); [|reflexivity].
  destruct H as [|[|]]; discriminate.
Qed.

(** [startRotation] throws [std::out_of_range] exactly when one of the three
    coordinates is not a key of the map, and never runs into undefined
    behaviour.  When it returns, the three coordinates being different or
    not, it has recorded them as the descriptor, has left the world, the
    keys and the colour under every key as they were. *)
Theorem startRotation_outcome (g : HexMap) (h0 h1 h2 : Hex) (w : World) :
  (HexMap_startRotation (h0, h1, h2) g w = OutOfRange <->
   cells g !! key h0 = None \/ cells g !! key h1 = None \/ cells g !! key h2 = None) /\
  HexMap_startRotation (h0, h1, h2) g w <> Undefined /\
  (forall g' w', HexMap_startRotation (h0, h1, h2) g w = Normal (g', w') ->
     w' = w /\ rotation g' = Some (h0, h1, h2) /\
     dom (cells g') = dom (cells g) /\ colour_map g' = colour_map g).
Proof.
  destruct (cells g !! key h0) as [c0|] eqn:E0;
    [destruct (cells g !! key h1) as [c1|] eqn:E1;
      [destruct (cells g !! key h2) as [c2|] eqn:E2|]|].
  - destruct (startRotation_consistent g w h0 h1 h2) as (g1 & E & R & _ & [D _]);
      [eauto | eauto | eauto |].
    rewrite E. split; [|split].
    + split; [discriminate | intros [|[|]]; discriminate].
    + discriminate.
    + intros g' w' [= <- <-]. split; [reflexivity|]. split; [exact R|].
      split; [exact D|]. now apply startRotation_colour_map in E.
  - rewrite startRotation_absent by (rewrite ?E0, ?E1, ?E2; auto).
    split; [|split]; [split; auto | discriminate | discriminate].
  - rewrite startRotation_absent by (rewrite ?E0, ?E1, ?E2; auto).
    split; [|split]; [split; auto | discriminate | discriminate].
  - rewrite startRotation_absent by (rewrite ?E0, ?E1, ?E2; auto).
    split; [|split]; [split; auto | discriminate | discriminate].
Qed.

(** ** The colours on the grid *)

Lemma swap_colours (m : gmap (Z * Z) Color) a b ca cb :
  m !! a = Some ca -> m !! b = Some cb ->
  (map_to_list (<[b := ca]> (<[a := cb]> m))).*2 ≡ₚ (map_to_list m).*2.
Proof.
  intros Ea Eb. destruct (decide (a = b)) as [->|N].
  - assert (ca = cb) by congruence. subst cb.
    rewrite insert_insert_eq, insert_id by assumption. reflexivity.
  - set (m0 := delete a (delete b m)).
    assert (Na : m0 !! a = None) by (subst m0; apply lookup_delete_eq).
    assert (Nb : m0 !! b = None)
      by (subst m0; rewrite lookup_delete_ne by assumption; apply lookup_delete_eq).
    assert (Em : m = <[a := ca]> (<[b := cb]> m0)).
    { apply map_eq. intros k. subst m0.
      destruct (decide (k = a)) as [->|Ka]; [now rewrite lookup_insert_eq|].
      rewrite lookup_insert_ne by congruence.
      destruct (decide (k = b)) as [->|Kb]; [now rewrite lookup_insert_eq|].
      rewrite lookup_insert_ne by congruence.
      now rewrite !lookup_delete_ne by congruence. }
    clearbody m0. clear Ea Eb. subst m.
    assert (El : <[b := ca]> (<[a := cb]> (<[a := ca]> (<[b := cb]> m0)))
                 = <[b := ca]> (<[a := cb]> m0)).
    { apply map_eq. intros k.
      destruct (decide (k = b)) as [->|Kb]; [now rewrite !lookup_insert_eq|].
      rewrite !(lookup_insert_ne _ b) by congruence.
      destruct (decide (k = a)) as [->|Ka]; [now rewrite !lookup_insert_eq|].
      now rewrite !lookup_insert_ne by congruence. }
    rewrite El.
    rewrite !map_to_list_insert
      by (rewrite ?lookup_insert_ne by congruence; assumption).
    reflexivity.
Qed.

Section colours.
Context (k0 k1 k2 : ref).

Lemma swap_with_target_colours g w k g' w' :
  heading k0 k1 k2 (cells g) -> among k0 k1 k2 k ->
  swap_with_target k g w = Normal (g', w') ->
  colours g' ≡ₚ colours g.
Proof.
  intros H Hk E. destruct (H k Hk) as (c & t & Hc & Ht & Hin).
  destruct (H (key t) Hin) as (ct & tt & Hct & _).
  rewrite (swap_with_target_Some g w k c t ct Hc Ht Hct) in E.
  injection E as <- <-. unfold colours, colour_map.
  rewrite !cells_store, !fmap_insert.
  apply swap_colours; now rewrite lookup_fmap, ?Hc, ?Hct.
Qed.

Lemma commit_colours g w g' w' :
  heading k0 k1 k2 (cells g) ->
  commit k0 k1 k2 g w = Normal (g', w') ->
  colours g' ≡ₚ colours g.
Proof.
  intros H E. unfold commit in E.
  destruct (swap_with_target_heading k0 k1 k2 g w k0 H) as (g1 & E1 & _ & H1 & _);
    [left; reflexivity|].
  destruct (swap_with_target_heading k0 k1 k2 g1 w k1 H1) as (g2 & E2 & _ & H2 & _);
    [right; left; reflexivity|].
  destruct (swap_with_target_heading k0 k1 k2 g2 w k2 H2) as (g3 & E3 & _ & H3 & _);
    [right; right; reflexivity|].
  rewrite (bind_Normal _ _ _ _ _ E1), (bind_Normal _ _ _ _ _ E2),
    (bind_Normal _ _ _ _ _ E3) in E.
  apply bind_inv in E as (g4 & w4 & U4 & E).
  apply bind_inv in E as (g5 & w5 & U5 & E).
  apply bind_inv in E as (g6 & w6 & U6 & E).
  unfold ret in E. injection E as <- <-.
  apply update_colour in U4 as (_ & _ & C4); [|reflexivity].
  apply update_colour in U5 as (_ & _ & C5); [|reflexivity].
  apply update_colour in U6 as (_ & _ & C6); [|reflexivity].
  unfold colours at 1, colour_map at 1. cbn [cells].
  fold (colour_map g6). rewrite C6, C5, C4. fold (colours g3).
  rewrite (swap_with_target_colours g2 w k2 g3 w H2 (or_intror (or_intror eq_refl)) E3).
  rewrite (swap_with_target_colours g1 w k1 g2 w H1 (or_intror (or_introl eq_refl)) E2).
  exact (swap_with_target_colours g w k0 g1 w H (or_introl eq_refl) E1).
Qed.

End colours.

Lemma stepRotation_colour dt c : color (Cell_stepRotation dt c) = color c.
Proof. unfold Cell_stepRotation. now destruct (rotatingTo c). Qed.

Lemma stepRotation_colours dt g w g' w' :
  consistent g ->
  HexMap_stepRotation dt g w = Normal (g', w') ->
  colours g' ≡ₚ colours g.
Proof.
  intros C E. unfold consistent in C.
  destruct (rotation g) as [[[h0 h1] h2]|] eqn:R.
  - unfold HexMap_stepRotation in E. rewrite R in E.
    apply bind_inv in E as (p0 & w0 & P0 & E).
    apply bind_inv in E as (p1 & w1 & P1 & E).
    apply bind_inv in E as (p2 & w2 & P2 & E).
    destruct (heading_present _ _ _ _ (key h0) C) as [c0 E0]; [left; reflexivity|].
    destruct (heading_present _ _ _ _ (key h1) C) as [c1 E1]; [right; left; reflexivity|].
    destruct (heading_present _ _ _ _ (key h2) C) as [c2 E2]; [right; right; reflexivity|].
    rewrite (cells_at_Some g w _ _ E0) in P0. injection P0 as <- <-.
    rewrite (cells_at_Some g w _ _ E1) in P1. injection P1 as <- <-.
    rewrite (cells_at_Some g w _ _ E2) in P2. injection P2 as <- <-.
    destruct (advance_cells_heading _ _ _ g w dt C) as (ga & A & _ & Ha & _).
    rewrite (bind_Normal _ _ _ _ _ A) in E.
    assert (Ca : colour_map ga = colour_map g).
    { unfold advance_cells in A.
      apply bind_inv in A as (g1 & x1 & U1 & A).
      apply bind_inv in A as (g2 & x2 & U2 & U3).
      apply update_colour in U1 as (_ & _ & C1); [|apply stepRotation_colour].
      apply update_colour in U2 as (_ & _ & C2); [|apply stepRotation_colour].
      apply update_colour in U3 as (_ & _ & C3); [|apply stepRotation_colour].
      congruence. }
    apply bind_inv in E as (b & wb & B & E).
    destruct (all_done_heading _ _ _ ga w Ha) as [b' B'].
    rewrite B' in B. injection B as <- <-.
    destruct b'.
    + rewrite (commit_colours _ _ _ ga w g' w' Ha E). unfold colours. now rewrite Ca.
    + unfold ret in E. injection E as <- <-. unfold colours. now rewrite Ca.
  - rewrite (stepRotation_idle dt g w R) in E. injection E as <- <-. reflexivity.
Qed.

Lemma stepRotation_normal dt g w :
  consistent g ->
  exists g', HexMap_stepRotation dt g w = Normal (g', w) /\
             consistent g' /\
             dom (cells g') = dom (cells g) /\
             (rotation g' = rotation g \/ rotation g' = None).
Proof.
  intros C. pose proof C as C'. unfold consistent in C'.
  destruct (rotation g) as [[[h0 h1] h2]|] eqn:R.
  - destruct (stepRotation_consistent dt g w h0 h1 h2 R C')
      as (g' & E & [D _] & [[R' H']|[R' _]]);
      exists g'; (split; [exact E|]); unfold consistent; rewrite R'; auto.
  - exists g. rewrite (stepRotation_idle dt g w R). rewrite R. auto.
Qed.

(** A call of [stepRotation] neither creates nor loses a colour where the
    three cells of a rotation head for its three coordinates (as on every
    grid the interface builds): the colours of the grid, counted with their
    multiplicities, are the same before and after, whether the call commits
    the rotation or not and whether the three coordinates differ or not. *)
Theorem stepRotation_keeps_colours (g : HexMap) (dt : float) (w : World) :
  consistent g ->
  exists g', HexMap_stepRotation dt g w = Normal (g', w) /\
             colours g' ≡ₚ colours g.
Proof.
  intros C.
  destruct (stepRotation_normal dt g w C) as (g' & E & _).
  exists g'. split; [exact E|]. now apply stepRotation_colours with dt w w.
Qed.

(** The colours of the sample grid over the step that commits its rotation. *)
Lemma stepRotation_keeps_colours_sample :
  consistent sample_rotating /\
  exists g', HexMap_stepRotation F32.quarter sample_rotating sample_world
             = Normal (g', sample_world) /\
             colours g' ≡ₚ colours sample_rotating.
Proof.
  pose proof (reachable_consistent idle_cell _ sample_rotating_reachable) as C.
  split; [exact C|]. exact (stepRotation_keeps_colours sample_rotating F32.quarter sample_world C).
Defined.

(** ** The generated grid *)

Lemma elem_of_grid_keys n qz rz :
  (qz, rz) ∈ grid_keys n <->
  - n <= qz <= n /\ Z.max (- n) (- qz - n) <= rz <= Z.min n (- qz + n).
Proof.
  unfold grid_keys. rewrite list_elem_of_bind. split.
  - intros (q0 & Hr & Hq). apply elem_of_seqZ in Hq.
    unfold row_keys in Hr. apply list_elem_of_fmap in Hr as (r0 & [= -> ->] & Hr).
    apply elem_of_seqZ in Hr. lia.
  - intros [Hq Hr]. exists qz. split.
    + unfold row_keys. apply list_elem_of_fmap. exists rz. split; [reflexivity|].
      apply elem_of_seqZ. lia.
    + apply elem_of_seqZ. lia.
Qed.

Lemma generated_keys n w g w' h :
  generateHexMap n w = Normal (g, w') -> Hex_valid h ->
  (is_Some (cells g !! key h) <-> hexLength h <= n).
Proof.
  intros E V. destruct (generateHexMap_spec n w) as (g0 & w0 & E0 & _ & D & _).
  rewrite E0 in E. injection E as <- <-.
  rewrite <- elem_of_dom, D, elem_of_list_to_set. unfold key.
  rewrite elem_of_grid_keys. pose proof (hexLength_half h V).
  unfold Hex_valid in V. lia.
Qed.


(** For a negative size the loops of [generateHexMap] do not run: the grid
    is empty and idle, and no random number has been drawn. *)
Theorem generateHexMap_negative (n : Z) (w : World) :
  n < 0 -> generateHexMap n w = Normal (HexMap_new, w).
Proof.
  intros Hn. unfold generateHexMap, for_upto.
  replace (seqZ (- n) (n - - n + 1)) with (@nil Z); [reflexivity|].
  unfold seqZ. replace (Z.to_nat (n - - n + 1)) with 0%nat by lia. reflexivity.
Qed.

Lemma Cell_new_spec w :
  exists c, Cell_new w =
              Normal (c, mkWorld (random w) (uninitialised w) (S (constructed w))) /\
            rotatingTo c = None /\ color c ∈ availableColors.
Proof.
  unfold Cell_new. eexists. split; [reflexivity|]. split; [reflexivity|].
  cbn [color]. apply list_elem_of_In, nth_In. unfold GetRandomValue.
  change (length availableColors) with 3%nat.
  change (3 - 1 - 0 + 1)%nat with 3%nat.
  pose proof (Nat.mod_upper_bound (random w (constructed w)) 3). lia.
Qed.

Lemma insert_palette hex cell g :
  color cell ∈ availableColors -> palette g -> palette (HexMap_insert hex cell g).
Proof.
  intros Hc H k c E. destruct (insert_lookup_inv _ _ _ _ _ E) as [E'|(_ & -> & _)].
  - exact (H k c E').
  - exact Hc.
Qed.

Lemma row_loop_draws qc (l : list Z) g w g' w' :
  foldM (fun rc hexMap =>
           let* cell := Cell_new in
           ret (HexMap_insert (mkHex qc rc (- qc - rc)) cell hexMap)) l g w
    = Normal (g', w') ->
  (palette g -> palette g') /\
  random w' = random w /\ uninitialised w' = uninitialised w /\
  constructed w' = (constructed w + length l)%nat.
Proof.
  revert g w. induction l as [|r0 l IH]; intros g w; cbn [foldM].
  - unfold ret. intros [= <- <-]. cbn [length]. auto with lia.
  - destruct (Cell_new_spec w) as (c & Ec & _ & Hc).
    rewrite (bind_Normal _ _ _ _ _ (bind_Normal _ _ _ _ _ Ec)). unfold ret at 1.
    intros E. apply IH in E as (P & R & U & N). cbn [random uninitialised constructed] in *.
    split; [|split; [exact R|split; [exact U|cbn [length]; lia]]].
    intros Hg. apply P. now apply insert_palette.
Qed.

Lemma grid_loop_draws n (l : list Z) g w g' w' :
  foldM (fun q hexMap =>
           let r1 := Z.max (- n) (- q - n) in
           let r2 := Z.min n (- q + n) in
           for_upto r1 r2
             (fun r hexMap =>
                let* cell := Cell_new in
                ret (HexMap_insert (mkHex q r (- q - r)) cell hexMap))
             hexMap) l g w
    = Normal (g', w') ->
  (palette g -> palette g') /\
  random w' = random w /\ uninitialised w' = uninitialised w /\
  constructed w' = (constructed w + length (l ≫= row_keys n))%nat.
Proof.
  revert g w. induction l as [|q0 l IH]; intros g w; cbn [foldM].
  - unfold ret. intros [= <- <-]. cbn. auto with lia.
  - intros E. apply bind_inv in E as (g1 & w1 & E1 & E).
    unfold for_upto in E1. apply row_loop_draws in E1 as (P1 & R1 & U1 & N1).
    apply IH in E as (P & R & U & N).
    split; [auto|]. split; [congruence|]. split; [congruence|].
    cbn [mbind list_bind]. rewrite length_app. unfold row_keys at 1.
    rewrite length_fmap. fold (mbind (M := list) (row_keys n) l). lia.
Qed.

(** The grid [generateHexMap] returns is idle, each of its cells has no
    target and one of the three available colours, and exactly one random
    number has been drawn per cell: the world is otherwise as it was. *)
Theorem generateHexMap_fresh (n : Z) (w : World) :
  exists g w', generateHexMap n w = Normal (g, w') /\
    rotation g = None /\
    (forall k c, cells g !! k = Some c ->
       rotatingTo c = None /\ color c ∈ availableColors) /\
    random w' = random w /\ uninitialised w' = uninitialised w /\
    constructed w' = (constructed w + size (cells g))%nat.
Proof.
  destruct (generateHexMap_spec n w) as (g & w' & E & R & D & I).
  exists g, w'. split; [exact E|]. split; [exact R|].
  unfold generateHexMap, for_upto in E.
  apply grid_loop_draws in E as (P & Rw & U & N).
  split; [|split; [exact Rw|split; [exact U|]]].
  - intros k c Hc. split; [exact (I k c Hc)|].
    apply (P ltac:(intros k' c'; cbn; now rewrite lookup_empty) k c Hc).
  - rewrite N, <- size_dom, D, size_list_to_set by apply NoDup_grid_keys.
    reflexivity.
Qed.

(** The grid of size [-1]. *)
Lemma generateHexMap_negative_sample :
  -1 < 0 /\ generateHexMap (-1) sample_world = Normal (HexMap_new, sample_world).
Proof. split; [reflexivity|]. apply generateHexMap_negative. reflexivity. Defined.

(** ** The game loop *)

Lemma path_snoc ms m c : Cursor_path (ms ++ [m]) c = Cursor_apply m (Cursor_path ms c).
Proof. unfold Cursor_path. now rewrite foldl_app. Qed.

Lemma steered_path f ms c :
  exists ms', steered f (Cursor_path ms c) = Cursor_path ms' c.
Proof.
  unfold steered.
  destruct (IsKeyPressed f KEY_UP); [exists (ms ++ [Up]); now rewrite path_snoc|].
  destruct (IsKeyPressed f KEY_DOWN); [exists (ms ++ [Down]); now rewrite path_snoc|].
  destruct (IsKeyPressed f KEY_LEFT); [exists (ms ++ [Left]); now rewrite path_snoc|].
  destruct (IsKeyPressed f KEY_RIGHT); [exists (ms ++ [Right]); now rewrite path_snoc|].
  now exists ms.
Qed.

Lemma steered_space_only f c : space_only f = true -> steered f c = c.
Proof.
  unfold space_only, steered. rewrite !andb_true_iff, !negb_true_iff.
  intros [[[[-> ->] ->] ->] _]. reflexivity.
Qed.

(** A turn in which no rotation is started: the cursor follows the arrow
    key and the grid takes one step. *)
Lemma main_turn_step f st w :
  space_only f && negb (HexMap_hasRotation (hexMap st)) = false ->
  main_turn f st w =
  (let* hexMap := HexMap_stepRotation (GetFrameTime f) (hexMap st) in
   ret (mkGame hexMap (steered f (cursor st)))) w.
Proof.
  unfold main_turn, space_only, steered. intros H.
  destruct (IsKeyPressed f KEY_UP); [reflexivity|].
  destruct (IsKeyPressed f KEY_DOWN); [reflexivity|].
  destruct (IsKeyPressed f KEY_LEFT); [reflexivity|].
  destruct (IsKeyPressed f KEY_RIGHT); [reflexivity|].
  cbn [negb andb] in H. rewrite H. reflexivity.
Qed.

(** A turn in which one is. *)
Lemma main_turn_start f st w :
  space_only f && negb (HexMap_hasRotation (hexMap st)) = true ->
  main_turn f st w =
  (let* g1 := HexMap_startRotation (hexes (cursor st)) (hexMap st) in
   let* hexMap := HexMap_stepRotation (GetFrameTime f) g1 in
   ret (mkGame hexMap (cursor st))) w.
Proof.
  unfold main_turn, space_only, Cursor_getHexes.
  rewrite !andb_true_iff, !negb_true_iff.
  intros [[[[[-> ->] ->] ->] ->] ->]. cbn [andb negb].
  unfold bind, ret. destruct (HexMap_startRotation _ _ w) as [[g1 w1]| |]; reflexivity.
Qed.

Lemma idle_not_rotating g : HexMap_hasRotation g = false <-> rotation g = None.
Proof.
  unfold HexMap_hasRotation, has_value. destruct (rotation g); split; congruence.
Qed.

Section play.
Context (g0 : HexMap).

Lemma step_in_play dt g c w :
  in_play g0 (mkGame g c) ->
  exists g', HexMap_stepRotation dt g w = Normal (g', w) /\
             (rotation g' = rotation g \/ rotation g' = None) /\
             forall c', (exists ms, c' = Cursor_path ms (Cursor_new (mkHex 2 2 (-4)))) ->
                        in_play g0 (mkGame g' c').
Proof.
  intros (Hr & Hd & Hc & _ & Hx). cbn [hexMap cursor] in *.
  pose proof (reachable_consistent _ _ Hr) as C.
  destruct (stepRotation_normal dt g w C) as (g' & E & _ & D & R).
  exists g'. split; [exact E|]. split; [exact R|].
  intros c' Hc'. unfold in_play. cbn [hexMap cursor].
  split; [exact (reach_step idle_cell dt g w g' w Hr E)|].
  split; [congruence|].
  split; [now rewrite (stepRotation_colours dt g w g' w C E)|].
  split; [exact Hc'|].
  intros h0 h1 h2 R'. destruct R as [R|R]; [|congruence].
  apply Hx. congruence.
Qed.

Lemma start_in_play g c w :
  in_play g0 (mkGame g c) -> rotation g = None ->
  let '(h0, h1, h2) := hexes c in
  (is_Some (cells g !! key h0) /\ is_Some (cells g !! key h1) /\
   is_Some (cells g !! key h2) ->
   exists g1, HexMap_startRotation (hexes c) g w = Normal (g1, w) /\
              rotation g1 = Some (h0, h1, h2) /\
              in_play g0 (mkGame g1 c)).
Proof.
  intros (Hr & Hd & Hc & Hp & Hx) R. cbn [hexMap cursor] in *.
  destruct Hp as [ms Hp].
  destruct (path_new ms (mkHex 2 2 (-4))) as (T & ET & _).
  rewrite ET in Hp. pose proof (Cursor_new_distinct T) as Dc. rewrite <- Hp in Dc.
  destruct (hexes c) as [[h0 h1] h2] eqn:Eh.
  intros (P0 & P1 & P2).
  destruct (startRotation_consistent g w h0 h1 h2 P0 P1 P2) as (g1 & E & R1 & _ & [D _]).
  exists g1. split; [exact E|]. split; [exact R1|].
  unfold in_play. cbn [hexMap cursor].
  split; [exact (reach_start idle_cell h0 h1 h2 g w g1 w Hr R P0 P1 P2 E)|].
  split; [congruence|].
  split; [unfold colours; now rewrite (startRotation_colour_map _ _ _ _ _ _ _ E)|].
  split; [exists ms; now rewrite ET|].
  intros a b c' R'. rewrite R1 in R'. injection R' as <- <- <-. exact Dc.
Qed.

Lemma turn_in_play f st w :
  in_play g0 st ->
  match main_turn f st w with
  | Normal (st', w') => w' = w /\ in_play g0 st'
  | OutOfRange =>
      space_only f = true /\ rotation (hexMap st) = None /\
      let '(h0, h1, h2) := hexes (cursor st) in
      cells (hexMap st) !! key h0 = None \/ cells (hexMap st) !! key h1 = None \/
      cells (hexMap st) !! key h2 = None
  | Undefined => False
  end.
Proof.
  intros H. destruct st as [g c].
  destruct (space_only f && negb (HexMap_hasRotation g)) eqn:B.
  - rewrite main_turn_start by exact B. cbn [hexMap cursor].
    apply andb_true_iff in B as [Bs Bi]. apply negb_true_iff, idle_not_rotating in Bi.
    pose proof (start_in_play g c w H Bi) as S.
    destruct (hexes c) as [[h0 h1] h2] eqn:Eh.
    destruct (cells g !! key h0) as [c0|] eqn:E0;
      [destruct (cells g !! key h1) as [c1|] eqn:E1;
        [destruct (cells g !! key h2) as [c2|] eqn:E2|]|].
    + destruct S as (g1 & E & R1 & H1); [eauto|].
      destruct (step_in_play (GetFrameTime f) g1 c w H1) as (g' & E' & _ & H').
      rewrite (bind_Normal _ _ _ _ _ E), (bind_Normal _ _ _ _ _ E'). unfold ret.
      split; [reflexivity|]. apply H'. destruct H as (_ & _ & _ & Hp & _). exact Hp.
    + unfold bind. rewrite startRotation_absent by auto. auto.
    + unfold bind. rewrite startRotation_absent by auto. auto.
    + unfold bind. rewrite startRotation_absent by auto. auto.
  - rewrite main_turn_step by exact B. cbn [hexMap cursor].
    destruct (step_in_play (GetFrameTime f) g c w H) as (g' & E' & _ & H').
    rewrite (bind_Normal _ _ _ _ _ E'). unfold ret.
    split; [reflexivity|]. apply H'.
    destruct H as (_ & _ & _ & [ms Hp] & _). cbn [cursor] in Hp. rewrite Hp.
    apply steered_path.
Qed.

Lemma turns_in_play frames st w :
  in_play g0 st ->
  match foldM main_turn frames st w with
  | Normal (st', w') => w' = w /\ in_play g0 st'
  | OutOfRange => True
  | Undefined => False
  end.
Proof.
  revert st. induction frames as [|f frames IH]; intros st H; cbn [foldM].
  - unfold ret. auto.
  - pose proof (turn_in_play f st w H) as T. unfold bind.
    destruct (main_turn f st w) as [[st1 w1]| |]; [|exact I|exact T].
    destruct T as [-> H1]. now apply IH.
Qed.

End play.

Lemma setup_in_play w :
  exists g0 w0, generateHexMap 10 w = Normal (g0, w0) /\
                main_setup w = Normal (mkGame g0 (Cursor_new (mkHex 2 2 (-4))), w0) /\
                in_play g0 (mkGame g0 (Cursor_new (mkHex 2 2 (-4)))).
Proof.
  destruct (generateHexMap_spec 10 w) as (g0 & w0 & E & R & _).
  exists g0, w0. split; [exact E|]. unfold main_setup.
  rewrite (bind_Normal _ _ _ _ _ E). split; [reflexivity|].
  unfold in_play. cbn [hexMap cursor].
  split; [exact (reach_generate idle_cell 10 w g0 w0 E)|].
  split; [reflexivity|]. split; [reflexivity|].
  split; [now exists []|]. intros h0 h1 h2. rewrite R. discriminate.
Qed.

Lemma main_in_play frames w :
  exists g0 w0, generateHexMap 10 w = Normal (g0, w0) /\
    match main frames w with
    | Normal (st, w') => w' = w0 /\ in_play g0 st
    | OutOfRange => True
    | Undefined => False
    end.
Proof.
  destruct (setup_in_play w) as (g0 & w0 & E & S & H).
  exists g0, w0. split; [exact E|]. unfold main.
  rewrite (bind_Normal _ _ _ _ _ S). now apply turns_in_play.
Qed.


(** While a rotation is in progress the space bar does nothing: a turn of
    the loop moves the cursor as the arrow key says and gives the grid one
    [stepRotation], after which the descriptor is the same or gone. *)
Theorem rotation_is_not_restarted (frames : list Frame) (f : Frame) (w : World) :
  match main frames w with
  | Normal (st, w') =>
      rotation (hexMap st) <> None ->
      exists g', HexMap_stepRotation (GetFrameTime f) (hexMap st) w' = Normal (g', w') /\
                 main_turn f st w' = Normal (mkGame g' (steered f (cursor st)), w') /\
                 (rotation g' = rotation (hexMap st) \/ rotation g' = None)
  | _ => True
  end.
Proof.
  destruct (main_in_play frames w) as (g0 & w0 & _ & H).
  destruct (main frames w) as [[[g c] w']| |]; [|exact I|exact I].
  destruct H as [-> H]. cbn [hexMap cursor]. intros R.
  destruct (step_in_play g0 (GetFrameTime f) g c w0 H) as (g' & E & R' & _).
  exists g'. split; [exact E|]. split; [|exact R'].
  rewrite main_turn_step; cbn [hexMap cursor].
  - now rewrite (bind_Normal _ _ _ _ _ E).
  - apply andb_false_iff. right. apply negb_false_iff.
    unfold HexMap_hasRotation. now destruct (rotation g).
Qed.

Lemma off_grid_iff g0 w w0 g h :
  generateHexMap 10 w = Normal (g0, w0) -> dom (cells g) = dom (cells g0) ->
  Hex_valid h -> (cells g !! key h = None <-> 10 < hexLength h).
Proof.
  intros E0 D Vh. rewrite <- not_elem_of_dom, D, elem_of_dom.
  pose proof (generated_keys 10 w g0 w0 h E0 Vh) as K.
  split.
  - intros N. destruct (Z_le_gt_dec (hexLength h) 10) as [L|L]; [|lia].
    exfalso. apply N, K, L.
  - intros L HS. apply K in HS. lia.
Qed.

Lemma turn_throws_iff g0 w w0 f st w' :
  generateHexMap 10 w = Normal (g0, w0) -> in_play g0 st ->
  (main_turn f st w' = OutOfRange <->
   space_only f = true /\ rotation (hexMap st) = None /\
   let '(h0, h1, h2) := hexes (cursor st) in
   10 < hexLength h0 \/ 10 < hexLength h1 \/ 10 < hexLength h2).
Proof.
  intros E0 H. destruct st as [g c]. cbn [hexMap cursor].
  pose proof (turn_in_play g0 f (mkGame g c) w' H) as T. cbn [hexMap cursor] in T.
  destruct H as (_ & D & _ & [ms Hp] & _). cbn [hexMap cursor] in D, Hp.
  pose proof (cursor_triangle_valid ms (mkHex 2 2 (-4)) eq_refl) as V.
  rewrite <- Hp in V. destruct (hexes c) as [[h0 h1] h2] eqn:Eh.
  destruct V as (V0 & V1 & V2).
  rewrite <- (off_grid_iff g0 w w0 g h0 E0 D V0), <- (off_grid_iff g0 w w0 g h1 E0 D V1),
    <- (off_grid_iff g0 w w0 g h2 E0 D V2).
  split.
  - intros E. rewrite E in T. exact T.
  - intros (Bs & R & A).
    rewrite main_turn_start; cbn [hexMap cursor].
    + rewrite Eh. unfold bind. now rewrite startRotation_absent.
    + rewrite Bs. cbn. apply negb_true_iff. now apply idle_not_rotating.
Qed.

(** The cursor is not confined to the grid.  A turn of the loop throws
    [std::out_of_range], which ends the program, exactly when no arrow key
    is pressed, the space bar is, the grid is idle and one of the three
    coordinates of the cursor is farther than 10 from the centre. *)
Theorem main_turn_throws_off_grid (frames : list Frame) (f : Frame) (w : World) :
  match main frames w with
  | Normal (st, w') =>
      main_turn f st w' = OutOfRange <->
      space_only f = true /\ rotation (hexMap st) = None /\
      let '(h0, h1, h2) := hexes (cursor st) in
      10 < hexLength h0 \/ 10 < hexLength h1 \/ 10 < hexLength h2
  | _ => True
  end.
Proof.
  destruct (main_in_play frames w) as (g0 & w0 & E0 & H).
  destruct (main frames w) as [[st w']| |]; [|exact I|exact I].
  destruct H as [-> H]. now apply (turn_throws_iff g0 w w0).
Qed.





